(** * Genome assembly core: de Bruijn graph and overlap-layout-consensus

    A shallow embedding of [genome_assembly_src/dbg_assembler.py],
    [genome_assembly_src/olc_assembler_old.py] and
    [genome_assembly_src/graph_utils.py], together with the properties of
    the assembly pipeline that are stated about them. *)

From Stdlib Require Import ZArith List String Ascii Bool Lia Permutation Sorted.
From Stdlib Require Import DecimalString.
Import ListNotations.
Open Scope string_scope.
Open Scope list_scope.
Open Scope Z_scope.

Set Implicit Arguments.

(* ================================================================== *)
(** ** Python values used by the assemblers *)
(* ================================================================== *)

Module Py.

(** Python [str]: a Rocq [string]; the slicing primitives work on its
    list of characters. *)
Definition chars (s : string) : list ascii := list_ascii_of_string s.
Definition str (l : list ascii) : string := string_of_list_ascii l.

(** [len(s)] as a Python integer. *)
Definition len (s : string) : Z := Z.of_nat (String.length s).

(** Index adjustment of a slice bound against a sequence of length [n]:
    a negative bound counts from the end, and every bound is clamped to
    [0 .. n]. *)
Definition adjust (n i : Z) : Z :=
  if i <? 0 then Z.max 0 (i + n) else Z.min i n.

(** [s[lo:hi]] with optional bounds (step 1). *)
Definition slice (s : string) (lo hi : option Z) : string :=
  let n := len s in
  let a := match lo with None => 0 | Some i => adjust n i end in
  let b := match hi with None => n | Some i => adjust n i end in
  str (firstn (Z.to_nat (b - a)) (skipn (Z.to_nat a) (chars s))).

(** [range(start, stop, step)] for a positive step, and [range(n)]. *)
Definition range3 (start stop step : Z) : list Z :=
  map (fun i => start + Z.of_nat i * step)
      (seq 0 (Z.to_nat ((stop - start + step - 1) / step))).

Definition range (n : Z) : list Z := range3 0 n 1.

(** [x in l] for a list (or set) of strings. *)
Definition mem (x : string) (l : list string) : bool :=
  existsb (String.eqb x) l.

(** [str(int)]. *)
Definition str_of_int (z : Z) : string := NilZero.string_of_int (Z.to_int z).

(** [''.join(l)]. *)
Definition join (l : list string) : string := String.concat "" l.

(** Exceptions the modelled code can raise, and the outcome of a call:
    a returned value, a raised exception, or a loop that was cut off
    by the step bound of the model. *)
Inductive exn := IndexError | KeyError.

Inductive outcome (A : Type) :=
| Return (a : A)
| Raise (e : exn)
| OutOfFuel.
Arguments Return {A} a.
Arguments Raise {A} e.
Arguments OutOfFuel {A}.

Definition bind {A B} (m : outcome A) (f : A -> outcome B) : outcome B :=
  match m with
  | Return a => f a
  | Raise e => Raise e
  | OutOfFuel => OutOfFuel
  end.

(** *** Insertion-ordered dictionaries with string keys *)

Section Dict.
Variable V : Type.

Definition dict := list (string * V).

Fixpoint lookup (key : string) (d : dict) : option V :=
  match d with
  | [] => None
  | (k0, v) :: rest => if String.eqb key k0 then Some v else lookup key rest
  end.

(** [d[key] = v]: an existing key keeps its position. *)
Fixpoint set_item (key : string) (v : V) (d : dict) : dict :=
  match d with
  | [] => [(key, v)]
  | (k0, v0) :: rest =>
      if String.eqb key k0 then (k0, v) :: rest
      else (k0, v0) :: set_item key v rest
  end.

Definition keys (d : dict) : list string := map fst d.

(** [d[key]] on a [defaultdict]: a missing key is inserted with the
    default value, at the end of the dictionary. *)
Definition dd_getitem (dflt : V) (key : string) (d : dict) : V * dict :=
  match lookup key d with
  | Some v => (v, d)
  | None => (dflt, d ++ [(key, dflt)])
  end.

(** [d[key]] on a plain [dict]. *)
Definition getitem (key : string) (d : dict) : outcome V :=
  match lookup key d with
  | Some v => Return v
  | None => Raise KeyError
  end.
End Dict.

(** The value a [defaultdict(int)] holds for a key, read without
    inserting. *)
Definition count_of (d : dict Z) (key : string) : Z :=
  match lookup key d with Some v => v | None => 0 end.

(** [d[key] += 1] on a [defaultdict(int)]. *)
Definition incr (key : string) (d : dict Z) : dict Z :=
  let '(v, d1) := dd_getitem 0 key d in
  set_item key (v + 1) d1.

(** Stable sort by decreasing key, as [sorted(..., reverse=True)] and
    [list.sort(..., reverse=True)] give it: equal keys keep their
    original order. *)
Section Sort.
Variable A : Type.
Variable key : A -> Z.

Fixpoint insert_desc (x : A) (l : list A) : list A :=
  match l with
  | [] => [x]
  | y :: rest => if key x <? key y then y :: insert_desc x rest else x :: l
  end.

Definition sort_desc (l : list A) : list A :=
  fold_right insert_desc [] l.

(** [max(l, key=...)]: the first element with the largest key. *)
Fixpoint max_by_from (best : A) (l : list A) : A :=
  match l with
  | [] => best
  | x :: rest => max_by_from (if key best <? key x then x else best) rest
  end.

Definition max_by (l : list A) : option A :=
  match l with
  | [] => None
  | x :: rest => Some (max_by_from x rest)
  end.
End Sort.

End Py.

Import Py.

(** A read record as ingestion hands it over: identifier, sequence and
    per-base quality. *)
Definition read := (string * string * list Z)%type.

(* ================================================================== *)
(** ** The de Bruijn graph assembler ([dbg_assembler.py]) *)
(* ================================================================== *)

Module DBG.

(** The instance state of [DBGAssembler]: [graph] is a
    [defaultdict(list)], the two degree maps are [defaultdict(int)]. *)
Record DBGAssembler := mkDBG {
  k : Z;
  graph : dict (list string);
  in_degree : dict Z;
  out_degree : dict Z
}.

(** [DBGAssembler.__init__]. *)
Definition init (k : Z) : DBGAssembler := mkDBG k [] [] [].

Definition is_acgt (c : ascii) : bool := existsb (Ascii.eqb c) (chars "ACGT").

(** [any(c not in 'ACGT' for c in kmer)]. *)
Definition has_non_acgt (kmer : string) : bool :=
  existsb (fun c => negb (is_acgt c)) (chars kmer).

(** The edge insertion of [build_graph]: prefix and suffix of the
    k-mer, the membership test on [self.graph[prefix]] (which creates
    the key when it is missing), and the three paired updates. *)
Definition add_kmer (self : DBGAssembler) (kmer : string) : DBGAssembler :=
  let prefix := slice kmer None (Some (-1)) in
  let suffix := slice kmer (Some 1) None in
  let '(succs, g1) := dd_getitem [] prefix (graph self) in
  if mem suffix succs then
    mkDBG (k self) g1 (in_degree self) (out_degree self)
  else
    mkDBG (k self)
          (set_item prefix (succs ++ [suffix]) g1)
          (incr suffix (in_degree self))
          (incr prefix (out_degree self)).

(** One iteration of the window loop. *)
Definition add_window (seq : string) (self : DBGAssembler) (i : Z)
  : DBGAssembler :=
  let kmer := slice seq (Some i) (Some (i + k self)) in
  if has_non_acgt kmer then self else add_kmer self kmer.

(** One iteration of the read loop. *)
Definition add_read (self : DBGAssembler) (r : read) : DBGAssembler :=
  let '(_, seq, _) := r in
  if len seq <? k self then self
  else fold_left (add_window seq) (range (len seq - k self + 1)) self.

(** [DBGAssembler.build_graph]: the assembler after the call (the
    method returns [self.graph]). *)
Definition build_graph (self : DBGAssembler) (reads : list read)
  : DBGAssembler :=
  fold_left add_read reads self.

(** First loop of [find_contigs]: nodes with outgoing edges whose
    degrees are unbalanced, or that have no incoming edge. *)
Definition select_start (st : list string * DBGAssembler) (node : string)
  : list string * DBGAssembler :=
  let '(start_nodes, self) := st in
  let '(od, out1) := dd_getitem 0 node (out_degree self) in
  if od >? 0 then
    let '(idg, in1) := dd_getitem 0 node (in_degree self) in
    let self1 := mkDBG (k self) (graph self) in1 out1 in
    if negb (idg =? od) || (idg =? 0)
    then (start_nodes ++ [node], self1)
    else (start_nodes, self1)
  else (start_nodes, mkDBG (k self) (graph self) (in_degree self) out1).

(** Second loop of [find_contigs]: the first node with an outgoing
    edge. *)
Fixpoint first_with_out_edge (nodes : list string) (self : DBGAssembler)
  : list string * DBGAssembler :=
  match nodes with
  | [] => ([], self)
  | node :: rest =>
      let '(od, out1) := dd_getitem 0 node (out_degree self) in
      let self1 := mkDBG (k self) (graph self) (in_degree self) out1 in
      if od >? 0 then ([node], self1) else first_with_out_edge rest self1
  end.

(** [s[-1]]; there is none in the empty string, where Python raises
    [IndexError]. *)
Definition last_char (s : string) : option string :=
  match rev (chars s) with
  | [] => None
  | c :: _ => Some (str [c])
  end.

(** [visited.add(x)]. *)
Definition set_add (x : string) (s : list string) : list string :=
  if mem x s then s else x :: s.

(** The [while True] loop of [find_contigs].  It returns the path and
    the visited set at the [break]. *)
Fixpoint walk (fuel : nat) (self : DBGAssembler) (visited path : list string)
  (current : string) : outcome (list string * list string) * DBGAssembler :=
  match fuel with
  | O => (OutOfFuel, self)
  | S fuel' =>
      let visited1 := set_add current visited in
      let '(next_nodes, g1) := dd_getitem [] current (graph self) in
      let self1 := mkDBG (k self) g1 (in_degree self) (out_degree self) in
      match next_nodes with
      | [next_node] =>
          let '(d, in1) := dd_getitem 0 next_node (in_degree self) in
          let self2 := mkDBG (k self) g1 in1 (out_degree self) in
          if d =? 1 then
            if mem next_node visited1 then (Return (path, visited1), self2)
            else
              match last_char next_node with
              | Some c => walk fuel' self2 visited1 (path ++ [c]) next_node
              | None => (Raise IndexError, self2)
              end
          else (Return (path, visited1), self2)
      | _ => (Return (path, visited1), self1)
      end
  end.

(** Every string that occurs in the graph, as a key or as a successor. *)
Definition all_nodes (g : dict (list string)) : list string :=
  flat_map (fun e => fst e :: snd e) g.

(** One iteration of the loop over the start nodes. *)
Definition extract_from (fuel : nat)
  (st : outcome (list string * list string) * DBGAssembler) (start : string)
  : outcome (list string * list string) * DBGAssembler :=
  match st with
  | (Return (contigs, visited), self) =>
      if mem start visited then st
      else
        match walk fuel self visited [start] start with
        | (Return (path, visited1), self1) =>
            let contig := (hd "" path ++ join (tl path))%string in
            (Return (if len contig >=? k self then contigs ++ [contig]
                     else contigs, visited1), self1)
        | (Raise e, self1) => (Raise e, self1)
        | (OutOfFuel, self1) => (OutOfFuel, self1)
        end
  | _ => st
  end.

(** [DBGAssembler.find_contigs]: the contigs, and the assembler after
    the call.  Each walk is given one step per string of the graph and
    one more. *)
Definition find_contigs (self : DBGAssembler)
  : outcome (list string) * DBGAssembler :=
  let '(start_nodes, self1) :=
    fold_left select_start (keys (graph self)) ([], self) in
  let '(start_nodes2, self2) :=
    match start_nodes with
    | [] => first_with_out_edge (keys (graph self1)) self1
    | _ => (start_nodes, self1)
    end in
  let fuel := S (List.length (all_nodes (graph self2))) in
  let '(res, self3) :=
    fold_left (extract_from fuel) start_nodes2 (Return ([], []), self2) in
  (match res with
   | Return (contigs, _) => Return contigs
   | Raise e => Raise e
   | OutOfFuel => OutOfFuel
   end, self3).

End DBG.

(* ================================================================== *)
(** ** The overlap-layout-consensus assembler ([olc_assembler_old.py]) *)
(* ================================================================== *)

Module OLC.

Definition edge := (string * string)%type.

(** [networkx.DiGraph] as the assembler uses it: the adjacency
    structure, node -> (successor -> weight), both levels in insertion
    order.  Every node of the graph has an entry, possibly empty. *)
Definition DiGraph := dict (dict Z).

Definition add_node (n : string) (g : DiGraph) : DiGraph :=
  match lookup n g with
  | Some _ => g
  | None => g ++ [(n, [])]
  end.

(** [G.add_edge(u, v, weight=w)]: both endpoints become nodes, and the
    weight of an edge that is already there is overwritten. *)
Definition add_edge (u v : string) (w : Z) (g : DiGraph) : DiGraph :=
  let g2 := add_node v (add_node u g) in
  match lookup u g2 with
  | Some nbrs => set_item u (set_item v w nbrs) g2
  | None => g2
  end.

Definition nodes (g : DiGraph) : list string := keys g.

Definition successors (g : DiGraph) (u : string) : list string :=
  match lookup u g with
  | Some nbrs => keys nbrs
  | None => []
  end.

Definition out_degree (g : DiGraph) (n : string) : Z :=
  Z.of_nat (List.length (successors g n)).

Definition in_degree (g : DiGraph) (n : string) : Z :=
  Z.of_nat (List.length (filter (fun e => mem n (keys (snd e))) g)).

(** [G.out_edges(u)] and [G.edges()], in the order networkx reports
    them. *)
Definition out_edges (g : DiGraph) (u : string) : list edge :=
  map (pair u) (successors g u).

Definition edges (g : DiGraph) : list edge :=
  flat_map (fun e => map (pair (fst e)) (keys (snd e))) g.

(** [G[u][v]['weight']]. *)
Definition edge_weight (g : DiGraph) (e : edge) : outcome Z :=
  bind (getitem (fst e) g) (fun nbrs => getitem (snd e) nbrs).

Definition edge_eqb (e1 e2 : edge) : bool :=
  String.eqb (fst e1) (fst e2) && String.eqb (snd e1) (snd e2).

(** Sets of edges ([visited_edges], [all_edges]). *)
Definition emem (e : edge) (s : list edge) : bool := existsb (edge_eqb e) s.
Definition eadd (e : edge) (s : list edge) : list edge :=
  if emem e s then s else e :: s.
Definition ediff (s t : list edge) : list edge :=
  filter (fun e => negb (emem e t)) s.

Record OLCAssembler := mkOLC {
  min_overlap : Z;
  graph : DiGraph
}.

(** [OLCAssembler.__init__]. *)
Definition init (min_overlap : Z) : OLCAssembler := mkOLC min_overlap [].

(** *** find_overlaps *)

(** [reads[:max_reads]]. *)
Definition working_set (reads : list read) : list read :=
  let read_count := Z.of_nat (List.length reads) in
  let max_reads := if read_count <? 500 then Z.min read_count 2000 else 500 in
  firstn (Z.to_nat max_reads) reads.

(** [np.mean(lens) > bound].  The mean of an empty list is NaN, and
    every comparison with NaN is false; for at most a hundred lengths
    the mean exceeds an integer bound exactly when the sum exceeds the
    bound times the count. *)
Definition mean_exceeds (lens : list Z) (bound : Z) : bool :=
  match lens with
  | [] => false
  | _ => bound * Z.of_nat (List.length lens) <? fold_left Z.add lens 0
  end.

Definition seq_of (r : read) : string := snd (fst r).
Definition header_of (r : read) : string := fst (fst r).

(** [seq_i[-k:] == seq_j[:k]]. *)
Definition suffix_matches (seq_i seq_j : string) (k : Z) : bool :=
  String.eqb (slice seq_i (Some (- k)) None) (slice seq_j None (Some k)).

(** The refinement loop around a coarse hit [k]. *)
Definition refine (eff step : Z) (seq_i seq_j : string) (k : Z) : Z :=
  let start := Z.max (k - step) eff in
  let end_ := Z.min (k + step) (Z.min (len seq_i) (len seq_j)) in
  fold_left
    (fun max_overlap exact_k =>
       if suffix_matches seq_i seq_j exact_k
       then Z.max max_overlap exact_k else max_overlap)
    (range3 start (end_ + 1) 1) 0.

(** The loop over candidate overlap lengths, left at the first hit. *)
Fixpoint scan (eff step : Z) (seq_i seq_j : string) (cands : list Z) : Z :=
  match cands with
  | [] => 0
  | k :: rest =>
      if suffix_matches seq_i seq_j k then
        if step >? 1 then refine eff step seq_i seq_j k else k
      else scan eff step seq_i seq_j rest
  end.

(** [max_overlap] for one ordered pair of sequences. *)
Definition pair_overlap (eff step : Z) (seq_i seq_j : string) : Z :=
  scan eff step seq_i seq_j
       (range3 eff (Z.min (len seq_i) (len seq_j) + 1) step).

Definition enumerate (A : Type) (l : list A) : list (nat * A) :=
  combine (seq 0 (List.length l)) l.

(** Body of the inner loop over [j]. *)
Definition overlap_step (eff step : Z) (ir : nat * read) (g : DiGraph)
  (jr : nat * read) : DiGraph :=
  if Nat.eqb (fst ir) (fst jr) then g
  else
    let max_overlap :=
      pair_overlap eff step (seq_of (snd ir)) (seq_of (snd jr)) in
    if max_overlap >=? eff
    then add_edge (header_of (snd ir)) (header_of (snd jr)) max_overlap g
    else g.

Definition is_long_read (working_reads : list read) : bool :=
  mean_exceeds (map (fun r => len (seq_of r)) (firstn 100 working_reads)) 1000.

Definition effective_min_overlap (self : OLCAssembler)
  (working_reads : list read) : Z :=
  if is_long_read working_reads then min_overlap self * 3
  else min_overlap self.

Definition stride (working_reads : list read) : Z :=
  if is_long_read working_reads then 10 else 1.

(** [OLCAssembler.find_overlaps]: the assembler after the call. *)
Definition find_overlaps (self : OLCAssembler) (reads : list read)
  : OLCAssembler :=
  let working_reads := working_set reads in
  let eff := effective_min_overlap self working_reads in
  let step := stride working_reads in
  mkOLC (min_overlap self)
        (fold_left
           (fun g ir =>
              fold_left (overlap_step eff step ir) (enumerate working_reads) g)
           (enumerate working_reads) (graph self)).

(** *** find_paths *)

(** The key of the [max] over unvisited out-edges.  The edges come from
    [out_edges], so the lookup never fails there. *)
Definition weight_key (g : DiGraph) (e : edge) : Z :=
  match edge_weight g e with
  | Return w => w
  | _ => 0
  end.

(** The [while True] loop of [_build_greedy_paths]: the path and the
    visited set at the [break]. *)
Fixpoint greedy_loop (fuel : nat) (g : DiGraph) (current : string)
  (path : list string) (visited_edges : list edge)
  : outcome (list string * list edge) :=
  match fuel with
  | O => OutOfFuel
  | S fuel' =>
      let unvisited_out := ediff (out_edges g current) visited_edges in
      match max_by (weight_key g) unvisited_out with
      | None => Return (path, visited_edges)
      | Some next_edge =>
          let visited1 := eadd next_edge visited_edges in
          let next_node := snd next_edge in
          if mem next_node path then Return (path, visited1)
          else greedy_loop fuel' g next_node (path ++ [next_node]) visited1
      end
  end.

(** [_build_greedy_paths(start, paths, visited_edges, start_edge)]: the
    two mutated arguments after the call. *)
Definition build_greedy_paths (fuel : nat) (g : DiGraph) (start : string)
  (paths : list (list string)) (visited_edges : list edge)
  (start_edge : option edge) : outcome (list (list string) * list edge) :=
  let '(current, path, visited0) :=
    match start_edge with
    | Some se =>
        if String.eqb (fst se) start
        then (snd se, [start; snd se], eadd se visited_edges)
        else (start, [start], visited_edges)
    | None => (start, [start], visited_edges)
    end in
  bind (greedy_loop fuel g current path visited0)
       (fun r =>
          Return (if Z.of_nat (List.length (fst r)) >? 1
                  then paths ++ [fst r] else paths, snd r)).

(** Start-node selection of [find_paths]. *)
Definition start_nodes (g : DiGraph) : list string :=
  match filter (fun n => in_degree g n =? 0) (nodes g) with
  | (_ :: _) as s => s
  | [] =>
      match filter (fun n => in_degree g n <? out_degree g n) (nodes g) with
      | (_ :: _) as s => s
      | [] =>
          let nodes_with_edges :=
            map (fun n => (n, out_degree g n))
                (filter (fun n => out_degree g n >? 0) (nodes g)) in
          match sort_desc snd nodes_with_edges with
          | (n, _) :: _ => [n]
          | [] => firstn 1 (nodes g)
          end
      end
  end.

(** The loop over the start nodes. *)
Fixpoint from_starts (fuel : nat) (g : DiGraph) (starts : list string)
  (paths : list (list string)) (visited_edges : list edge)
  : outcome (list (list string) * list edge) :=
  match starts with
  | [] => Return (paths, visited_edges)
  | start :: rest =>
      bind (build_greedy_paths fuel g start paths visited_edges None)
           (fun r => from_starts fuel g rest (fst r) (snd r))
  end.

(** The loop over the edges left unvisited.  [pick] stands for
    [next(iter(unvisited_edges))]: which element of the set comes first
    is not fixed by the language, so it is a parameter. *)
Fixpoint leftover_loop (fuel inner : nat) (g : DiGraph)
  (pick : list edge -> nat) (all_edges : list edge)
  (paths : list (list string)) (visited_edges : list edge)
  : outcome (list (list string)) :=
  match ediff all_edges visited_edges with
  | [] => Return paths
  | (e0 :: _) as unvisited_edges =>
      match fuel with
      | O => OutOfFuel
      | S fuel' =>
          let e := nth (Nat.modulo (pick unvisited_edges)
                                   (List.length unvisited_edges))
                       unvisited_edges e0 in
          bind (build_greedy_paths inner g (fst e) paths visited_edges (Some e))
               (fun r =>
                  leftover_loop fuel' inner g pick all_edges (fst r) (snd r))
      end
  end.

(** [OLCAssembler.find_paths].  Each loop is given one step per edge of
    the graph and one more. *)
Definition find_paths (self : OLCAssembler) (pick : list edge -> nat)
  : outcome (list (list string)) :=
  let g := graph self in
  match nodes g with
  | [] => Return []
  | _ =>
      let fuel := S (List.length (edges g)) in
      bind (from_starts fuel g (start_nodes g) [] [])
           (fun r => leftover_loop fuel fuel g pick (edges g) (fst r) (snd r))
  end.

(** *** generate_consensus *)

(** The offset at which the next read is appended. *)
Definition clip_overlap (overlap seqlen : Z) : Z :=
  if overlap >=? seqlen then Z.max 0 (seqlen - 1) else overlap.

(** The loop [for i in range(1, len(path))]. *)
Fixpoint extend_contig (g : DiGraph) (read_dict : dict string)
  (prev : string) (rest : list string) (contig : string) : outcome string :=
  match rest with
  | [] => Return contig
  | cur :: rest' =>
      bind (edge_weight g (prev, cur)) (fun overlap =>
      bind (getitem cur read_dict) (fun s =>
      extend_contig g read_dict cur rest'
        (contig ++ slice s (Some (clip_overlap overlap (len s))) None)%string))
  end.

Definition consensus_of_path (g : DiGraph) (read_dict : dict string)
  (path : list string) : outcome string :=
  match path with
  | [] => Raise IndexError
  | [p0] => getitem p0 read_dict
  | p0 :: rest =>
      bind (getitem p0 read_dict) (extend_contig g read_dict p0 rest)
  end.

Fixpoint map_outcome (A B : Type) (f : A -> outcome B) (l : list A)
  : outcome (list B) :=
  match l with
  | [] => Return []
  | x :: rest =>
      bind (f x) (fun y => bind (map_outcome f rest) (fun ys => Return (y :: ys)))
  end.

(** [OLCAssembler.generate_consensus]. *)
Definition generate_consensus (self : OLCAssembler)
  (paths : list (list string)) (read_dict : dict string)
  : outcome (list string) :=
  bind (map_outcome (consensus_of_path (graph self) read_dict) paths)
       (fun contigs =>
          match contigs, read_dict with
          | [], _ :: _ =>
              let longest_reads :=
                firstn 5 (sort_desc snd
                            (map (fun hs => (fst hs, len (snd hs))) read_dict)) in
              map_outcome (fun hl => getitem (fst hl) read_dict) longest_reads
          | _, _ => Return contigs
          end).

(** [{header: seq for header, seq, _ in reads}]. *)
Definition make_read_dict (reads : list read) : dict string :=
  fold_left (fun d r => set_item (header_of r) (seq_of r) d) reads [].

(** The in-memory part of [OLCAssembler.assemble]. *)
Definition assemble (self : OLCAssembler) (pick : list edge -> nat)
  (reads : list read) : outcome (list string) * OLCAssembler :=
  let read_dict := make_read_dict reads in
  let self1 := find_overlaps self reads in
  (bind (find_paths self1 pick)
        (fun paths => generate_consensus self1 paths read_dict), self1).

End OLC.

(* ================================================================== *)
(** ** Graph export ([graph_utils.py]) *)
(* ================================================================== *)

Module GFA.

Definition tab : string := String (ascii_of_nat 9) "".
Definition nl : string := String (ascii_of_nat 10) "".

Definition header_line : string := ("H" ++ tab ++ "VN:Z:1.0" ++ nl)%string.

Definition segment_line (node : string) : string :=
  ("S" ++ tab ++ node ++ tab ++ node ++ nl)%string.

(** A link line with a given overlap field. *)
Definition link_line_with (node next_node : string) (ov : Z) : string :=
  ("L" ++ tab ++ node ++ tab ++ "+" ++ tab ++ next_node ++ tab ++ "+" ++ tab
       ++ str_of_int ov ++ "M" ++ nl)%string.

(** The link line [write_gfa] writes for an edge. *)
Definition link_line (node next_node : string) : string :=
  link_line_with node next_node (len node - 1).

(** [write_gfa]: the strings written to the file, in order. *)
Definition write_gfa (graph : dict (list string)) : list string :=
  header_line
    :: map segment_line (keys graph)
    ++ flat_map (fun e => map (link_line (fst e)) (snd e)) graph.

End GFA.

(** The in-memory part of [DBGAssembler.assemble]: contigs, the lines of
    the graph file, and the assembler after the call. *)
Definition dbg_assemble (self : DBG.DBGAssembler) (reads : list read)
  : outcome (list string * list string) * DBG.DBGAssembler :=
  let self1 := DBG.build_graph self reads in
  let '(res, self2) := DBG.find_contigs self1 in
  (bind res (fun contigs => Return (contigs, GFA.write_gfa (DBG.graph self2))),
   self2).

(* ================================================================== *)
(** ** Properties of the de Bruijn graph state *)
(* ================================================================== *)

Module DBGProps.
Import DBG.

(** The adjacency list of a node; a node that is no key has none. *)
Definition adjacency (g : dict (list string)) (n : string) : list string :=
  match lookup n g with
  | Some l => l
  | None => []
  end.

(** The number of adjacency entries, over all keys, that name [n]. *)
Definition in_count (g : dict (list string)) (n : string) : Z :=
  Z.of_nat (count_occ string_dec (flat_map snd g) n).

(** Degree counters and adjacency lists agree. *)
Definition degrees_consistent (self : DBGAssembler) : Prop :=
  forall n,
    count_of (out_degree self) n
    = Z.of_nat (List.length (adjacency (graph self) n))
    /\ count_of (in_degree self) n = in_count (graph self) n.

(** [g'] is [g] followed by fresh keys with empty adjacency lists. *)
Definition extends (g g' : dict (list string)) : Prop :=
  exists extra,
    g' = g ++ map (fun n => (n, [])) extra
    /\ NoDup extra
    /\ forall n, In n extra -> lookup n g = None.

(** What a call may change in the assembler: nothing but fresh empty
    keys in the graph and fresh zero entries in the degree maps. *)
Definition frame (self self' : DBGAssembler) : Prop :=
  k self' = k self
  /\ extends (graph self) (graph self')
  /\ (forall n, count_of (in_degree self') n = count_of (in_degree self) n)
  /\ (forall n, count_of (out_degree self') n = count_of (out_degree self) n).

(** The start-node loops read the degree maps only. *)
Definition degrees_read (self self' : DBGAssembler) : Prop :=
  k self' = k self
  /\ graph self' = graph self
  /\ (forall n, count_of (in_degree self') n = count_of (in_degree self) n)
  /\ (forall n, count_of (out_degree self') n = count_of (out_degree self) n).

(** The strings of [V] not yet in the visited set. *)
Definition unvisited (V visited : list string) : nat :=
  List.length (filter (fun v => negb (mem v visited)) V).

(** Keys are distinct and no adjacency list repeats a successor. *)
Definition simple_graph (g : dict (list string)) : Prop :=
  NoDup (keys g) /\ forall n l, In (n, l) g -> NoDup l.

(** Every string of the graph has the length of a (k-1)-mer. *)
Definition nodes_are_k1mers (self : DBGAssembler) : Prop :=
  forall p, In p (all_nodes (graph self)) -> len p = k self - 1.

(** The invariant of the whole construction, for a positive [k]. *)
Definition well_built (self : DBGAssembler) : Prop :=
  simple_graph (graph self) /\ nodes_are_k1mers self.

(** The state that [k = 0] leads to: every window is the empty string,
    and the graph is the empty string with a loop on itself. *)
Definition loop_on_empty : DBGAssembler :=
  mkDBG 0 [("", [""])] [("", 1)] [("", 1)].

(** The link lines of a graph, each with the same overlap field. *)
Definition link_lines_with (g : dict (list string)) (ov : Z) : list string :=
  flat_map (fun e => map (fun m => GFA.link_line_with (fst e) m ov) (snd e)) g.

End DBGProps.

(* ================================================================== *)
(** ** Properties of the overlap graph and its paths *)
(* ================================================================== *)

Module OLCProps.
Import OLC.

(** The last and the first [w] characters of a sequence (none for
    [w <= 0]). *)
Definition last_chars (w : Z) (s : string) : string :=
  str (skipn (String.length s - Z.to_nat w) (chars s)).

Definition first_chars (w : Z) (s : string) : string :=
  str (firstn (Z.to_nat w) (chars s)).

(** [s] from offset [w] onward, for an offset inside the sequence. *)
Definition from_offset (w : Z) (s : string) : string :=
  str (skipn (Z.to_nat w) (chars s)).

(** An edge [u -> v] of weight [w] is backed by two distinct working
    reads with these identifiers whose sequences overlap by exactly
    [w] characters, [w] being at least [eff]. *)
Definition exact_overlap (ws : list read) (eff : Z) (u v : string) (w : Z)
  : Prop :=
  exists i j r_i r_j,
    i <> j
    /\ nth_error ws i = Some r_i /\ nth_error ws j = Some r_j
    /\ header_of r_i = u /\ header_of r_j = v
    /\ eff <= w <= Z.min (len (seq_of r_i)) (len (seq_of r_j))
    /\ last_chars w (seq_of r_i) = first_chars w (seq_of r_j).

(** The graph has an edge [u -> v]. *)
Definition has_edge (g : DiGraph) (u v : string) : Prop :=
  exists w, edge_weight g (u, v) = Return w.

(** Consecutive node pairs of a path, and of a list of paths. *)
Fixpoint pairs_from (prev : string) (rest : list string) : list edge :=
  match rest with
  | [] => []
  | cur :: rest' => (prev, cur) :: pairs_from cur rest'
  end.

Definition path_pairs (path : list string) : list edge :=
  match path with
  | [] => []
  | p0 :: rest => pairs_from p0 rest
  end.

Definition paths_pairs (paths : list (list string)) : list edge :=
  flat_map path_pairs paths.

(** The representation invariant of a [DiGraph] as a dictionary of
    dictionaries: distinct nodes, and distinct successors per node. *)
Definition well_formed (g : DiGraph) : Prop :=
  NoDup (keys g)
  /\ (forall n nbrs, In (n, nbrs) g -> NoDup (keys nbrs)).

(** A walk: consecutive nodes are joined by edges of the graph. *)
Definition is_walk (g : DiGraph) (p : list string) : Prop :=
  forall e, In e (path_pairs p) -> In e (edges g).

(** The graph has no cycle: no walk comes back to a node it has left. *)
Definition acyclic (g : DiGraph) : Prop :=
  forall p, is_walk g p -> NoDup p.

(** The state of the path search between two steps: the visited set
    holds distinct edges of the graph; the pairs of the recorded paths
    and of the path under construction are distinct visited edges; the
    path under construction is a walk; and as long as no walk of the
    graph repeats a node, every visited edge is one of these pairs. *)
Definition search_inv (g : DiGraph) (paths : list (list string))
  (path : list string) (visited : list edge) : Prop :=
  NoDup visited
  /\ incl visited (edges g)
  /\ NoDup (paths_pairs paths ++ path_pairs path)
  /\ incl (paths_pairs paths ++ path_pairs path) visited
  /\ is_walk g path
  /\ (acyclic g -> incl visited (paths_pairs paths ++ path_pairs path)).

(** Only paths with at least two nodes are recorded. *)
Definition all_long (paths : list (list string)) : Prop :=
  Forall (fun p => (2 <= List.length p)%nat) paths.




End OLCProps.

(* ================================================================== *)
(** ** Assembly statistics ([task1_3_part1.py], [task1_3_part2.py]) *)
(* ================================================================== *)

Module Stats.

(** The loop of [calculate_n50].  [target_length] is [total_length / 2],
    a float; halving is exact, so [current_length >= target_length]
    holds exactly when twice the running sum reaches the total. *)
Fixpoint n50_loop (total_length current_length : Z) (contig_lengths : list Z)
  : Z :=
  match contig_lengths with
  | [] => 0
  | length :: rest =>
      let current_length := current_length + length in
      if 2 * current_length >=? total_length then length
      else n50_loop total_length current_length rest
  end.

(** [calculate_n50]. *)
Definition calculate_n50 (contigs : list string) : Z :=
  let contig_lengths := sort_desc (fun x => x) (map len contigs) in
  let total_length := fold_left Z.add contig_lengths 0 in
  n50_loop total_length 0 contig_lengths.

End Stats.

(* ================================================================== *)
(** ** Further properties of the two assemblers *)
(* ================================================================== *)

Module MoreProps.
Import DBG OLC DBGProps OLCProps.

(** [kmer] is a window of length [k0] of one of the reads, free of
    characters other than A, C, G, T. *)
Definition window_of (k0 : Z) (reads : list read) (kmer : string) : Prop :=
  exists r i,
    In r reads
    /\ k0 <= len (seq_of r)
    /\ 0 <= i < len (seq_of r) - k0 + 1
    /\ kmer = slice (seq_of r) (Some i) (Some (i + k0))
    /\ has_non_acgt kmer = false.

(** Every edge of the graph is the prefix and the suffix of such a
    window. *)
Definition edges_from_reads (k0 : Z) (reads : list read)
  (g : dict (list string)) : Prop :=
  forall p l s,
    In (p, l) g -> In s l ->
    exists kmer,
      window_of k0 reads kmer
      /\ p = slice kmer None (Some (-1))
      /\ s = slice kmer (Some 1) None.

(** The empty string is a successor of the empty string only. *)
Definition empty_after_empty (g : dict (list string)) : Prop :=
  forall p l, In (p, l) g -> In "" l -> p = "".

(** The edge of a k-mer is in the graph. *)
Definition edge_present (self : DBGAssembler) (kmer : string) : Prop :=
  exists l,
    lookup (slice kmer None (Some (-1))) (DBG.graph self) = Some l
    /\ In (slice kmer (Some 1) None) l.

(** Nothing is left to do for window [i] of [seq]. *)
Definition window_done (k0 : Z) (seq : string) (self : DBGAssembler) (i : Z)
  : Prop :=
  has_non_acgt (slice seq (Some i) (Some (i + k0))) = true
  \/ edge_present self (slice seq (Some i) (Some (i + k0))).

(** All windows of a read are done. *)
Definition read_done (k0 : Z) (r : read) (self : DBGAssembler) : Prop :=
  forall i, In i (range (len (seq_of r) - k0 + 1)) ->
            window_done k0 (seq_of r) self i.

(** The contigs collected so far have at least [k0] characters. *)
Definition contigs_long (k0 : Z)
  (st : outcome (list string * list string) * DBGAssembler) : Prop :=
  DBG.k (snd st) = k0
  /\ forall contigs visited,
      fst st = Return (contigs, visited) ->
      Forall (fun c => k0 <= len c) contigs.

(** A path that [generate_consensus] can stitch: it has a first read,
    every read of it is in the dictionary and every step is an edge. *)
Definition valid_path (g : DiGraph) (read_dict : dict string)
  (path : list string) : Prop :=
  path <> []
  /\ (forall n, In n path -> lookup n read_dict <> None)
  /\ (forall e, In e (path_pairs path) -> has_edge g (fst e) (snd e)).

Definition no_self_loop (g : DiGraph) : Prop :=
  forall n, ~ In (n, n) (edges g).

(** Sequences in order of non-increasing length. *)
Definition longest_first (l : list string) : Prop :=
  StronglySorted (fun a b => len b <= len a) l.

(** Every stretch of [k0] consecutive characters of [l] is a clean
    window of some read. *)
Definition kmers_from_reads (k0 : Z) (reads : list read) (l : list ascii)
  : Prop :=
  forall a w b,
    l = a ++ w ++ b -> List.length w = Z.to_nat k0 ->
    window_of k0 reads (str w).

(** The contig that [find_contigs] makes of a path. *)
Definition contig_of (path : list string) : string :=
  (hd "" path ++ join (tl path))%string.

(** The contigs collected so far spell k-mers of the reads only, and so
    do the edges of the graph. *)
Definition contigs_sound (k0 : Z) (reads : list read)
  (st : outcome (list string * list string) * DBGAssembler) : Prop :=
  match fst st with
  | Return (contigs, _) =>
      Forall (fun c => kmers_from_reads k0 reads (chars c)) contigs
      /\ edges_from_reads k0 reads (DBG.graph (snd st))
  | _ => True
  end.

(** The sum of a list of lengths. *)
Definition total (l : list Z) : Z := fold_right Z.add 0 l.

(** The lengths of the contigs that are at least, and that are more
    than, [n] long. *)
Definition at_least (n : Z) (contigs : list string) : list Z :=
  filter (fun x => n <=? x) (map len contigs).

Definition longer_than (n : Z) (contigs : list string) : list Z :=
  filter (fun x => n <? x) (map len contigs).

End MoreProps.

(* ================================================================== *)
(** ** Facts about dictionaries and slices *)
(* ================================================================== *)

Unset Implicit Arguments.

Module PyFacts.

Lemma lookup_set_item (V : Type) (a b : string) (v : V) (d : dict V) :
  lookup a (set_item b v d) = if String.eqb a b then Some v else lookup a d.
Proof.
  induction d as [|[k0 v0] d IH]; simpl.
  - destruct (String.eqb_spec a b); reflexivity.
  - destruct (String.eqb_spec b k0) as [->|Hb]; simpl.
    + destruct (String.eqb_spec a k0); reflexivity.
    + destruct (String.eqb_spec a k0) as [->|Ha].
      * destruct (String.eqb_spec k0 b); congruence.
      * exact IH.
Qed.

Lemma lookup_app (V : Type) (a : string) (d1 d2 : dict V) :
  lookup a (d1 ++ d2) =
  match lookup a d1 with Some v => Some v | None => lookup a d2 end.
Proof.
  induction d1 as [|[k0 v0] d1 IH]; simpl; [reflexivity|].
  destruct (String.eqb a k0); auto.
Qed.

Lemma lookup_In_keys (V : Type) (a : string) (d : dict V) :
  lookup a d <> None <-> In a (keys d).
Proof.
  induction d as [|[k0 v0] d IH]; simpl.
  - split; [congruence | tauto].
  - destruct (String.eqb_spec a k0) as [->|Ha].
    + split; [auto | congruence].
    + rewrite IH. split; [auto | intros [H|H]; [congruence | exact H]].
Qed.

Lemma lookup_None_keys (V : Type) (a : string) (d : dict V) :
  lookup a d = None <-> ~ In a (keys d).
Proof.
  rewrite <- lookup_In_keys. destruct (lookup a d); split; try congruence.
  intros H. exfalso. apply H. congruence.
Qed.

Lemma lookup_Some_In (V : Type) (a : string) (v : V) (d : dict V) :
  lookup a d = Some v -> In (a, v) d.
Proof.
  induction d as [|[k0 v0] d IH]; simpl; [congruence|].
  destruct (String.eqb_spec a k0) as [->|Ha]; intros H.
  - left. congruence.
  - right. auto.
Qed.

Lemma keys_set_item_present (V : Type) (a : string) (v : V) (d : dict V) :
  lookup a d <> None -> keys (set_item a v d) = keys d.
Proof.
  induction d as [|[k0 v0] d IH]; simpl; [congruence|].
  destruct (String.eqb_spec a k0) as [->|Ha]; simpl; intros H.
  - reflexivity.
  - f_equal. auto.
Qed.

Lemma keys_set_item_absent (V : Type) (a : string) (v : V) (d : dict V) :
  lookup a d = None -> set_item a v d = d ++ [(a, v)].
Proof.
  induction d as [|[k0 v0] d IH]; simpl; [reflexivity|].
  destruct (String.eqb_spec a k0) as [->|Ha]; simpl; intros H.
  - congruence.
  - f_equal. auto.
Qed.

Lemma mem_In (x : string) (l : list string) : mem x l = true <-> In x l.
Proof.
  unfold mem. rewrite existsb_exists. split.
  - intros (y & Hy & E). apply String.eqb_eq in E. subst. exact Hy.
  - intros H. exists x. split; [exact H | apply String.eqb_refl].
Qed.

Lemma mem_false (x : string) (l : list string) : mem x l = false <-> ~ In x l.
Proof.
  rewrite <- mem_In. destruct (mem x l); split; congruence.
Qed.

Lemma count_of_incr (a b : string) (d : dict Z) :
  count_of (incr b d) a =
  if String.eqb a b then count_of d a + 1 else count_of d a.
Proof.
  unfold incr, dd_getitem, count_of.
  destruct (lookup b d) as [v|] eqn:E.
  - rewrite lookup_set_item.
    destruct (String.eqb_spec a b) as [->|Hab]; [rewrite E|]; reflexivity.
  - rewrite lookup_set_item, lookup_app. simpl.
    destruct (String.eqb_spec a b) as [->|Hab].
    + rewrite E. reflexivity.
    + destruct (lookup a d); reflexivity.
Qed.

Lemma count_of_dd_getitem (a b : string) (d : dict Z) :
  count_of (snd (dd_getitem 0 b d)) a = count_of d a
  /\ fst (dd_getitem 0 b d) = count_of d b.
Proof.
  unfold dd_getitem, count_of.
  destruct (lookup b d) as [v|] eqn:E; simpl; [auto|].
  split; [|reflexivity].
  rewrite lookup_app. simpl.
  destruct (lookup a d) eqn:E'; [reflexivity|].
  destruct (String.eqb a b); reflexivity.
Qed.

End PyFacts.

Import PyFacts.

(* ================================================================== *)
(** ** The de Bruijn graph builder keeps degrees and adjacency in step *)
(* ================================================================== *)

Module DBGFacts.
Import DBG DBGProps.

Lemma count_set_item (p : string) (l l' : list string)
  (g : dict (list string)) (n : string) :
  lookup p g = Some l ->
  (count_occ string_dec (flat_map snd (set_item p l' g)) n
   + count_occ string_dec l n
   = count_occ string_dec (flat_map snd g) n + count_occ string_dec l' n)%nat.
Proof.
  induction g as [|[k0 v0] g IH]; simpl; [congruence|].
  destruct (String.eqb_spec p k0) as [->|Hp]; intros H; simpl.
  - inversion H; subst. rewrite !count_occ_app. lia.
  - specialize (IH H). rewrite !count_occ_app. lia.
Qed.


Lemma add_kmer_consistent (self : DBGAssembler) (kmer : string) :
  degrees_consistent self -> degrees_consistent (add_kmer self kmer).
Proof.
  intros Hc. unfold add_kmer.
  set (prefix := slice kmer None (Some (-1))).
  set (suffix := slice kmer (Some 1) None).
  unfold dd_getitem.
  destruct (lookup prefix (graph self)) as [succs|] eqn:E.
  - destruct (mem suffix succs) eqn:M.
    + intros n. simpl. apply Hc.
    + intros n. simpl. destruct (Hc n) as [Ho Hi]. split.
      * rewrite count_of_incr. unfold adjacency. rewrite lookup_set_item.
        unfold adjacency in Ho.
        destruct (String.eqb_spec n prefix) as [->|Hn].
        -- rewrite E in Ho. rewrite Ho, length_app. simpl. lia.
        -- exact Ho.
      * rewrite count_of_incr, Hi. unfold in_count.
        pose proof (count_set_item prefix succs (succs ++ [suffix]) (graph self) n E) as C.
        rewrite count_occ_app in C. simpl in C.
        destruct (String.eqb_spec n suffix) as [->|Hn].
        -- destruct (string_dec suffix suffix); [lia | congruence].
        -- destruct (string_dec suffix n); [congruence | lia].
  - simpl. intros n. simpl. destruct (Hc n) as [Ho Hi]. split.
    + rewrite count_of_incr. unfold adjacency.
      rewrite lookup_set_item, lookup_app. simpl.
      unfold adjacency in Ho.
      destruct (String.eqb_spec n prefix) as [->|Hn].
      * rewrite E in Ho. rewrite Ho. simpl. lia.
      * destruct (lookup n (graph self)); exact Ho.
    + rewrite count_of_incr, Hi.
      assert (E' : lookup prefix (graph self ++ [(prefix, [])]) = Some []).
      { rewrite lookup_app, E. simpl. rewrite String.eqb_refl. reflexivity. }
      pose proof (count_set_item prefix [] [suffix] _ n E') as C.
      unfold in_count. rewrite flat_map_app in C. rewrite count_occ_app in C.
      simpl in C.
      destruct (String.eqb_spec n suffix) as [->|Hn].
      * destruct (string_dec suffix suffix); [lia | congruence].
      * destruct (string_dec suffix n); [congruence | lia].
Qed.

Lemma fold_left_invariant (A B : Type) (P : A -> Prop) (f : A -> B -> A)
  (l : list B) (a : A) :
  (forall x y, P x -> P (f x y)) -> P a -> P (fold_left f l a).
Proof.
  intros Hf. revert a. induction l as [|y l IH]; simpl; auto.
Qed.

Lemma add_window_consistent (seq : string) (self : DBGAssembler) (i : Z) :
  degrees_consistent self -> degrees_consistent (add_window seq self i).
Proof.
  intros Hc. unfold add_window.
  destruct (has_non_acgt _); [exact Hc | apply add_kmer_consistent, Hc].
Qed.

Lemma add_read_consistent (self : DBGAssembler) (r : read) :
  degrees_consistent self -> degrees_consistent (add_read self r).
Proof.
  intros Hc. destruct r as [[h seq] q]. unfold add_read.
  destruct (len seq <? k self); [exact Hc|].
  apply fold_left_invariant; [apply add_window_consistent | exact Hc].
Qed.

Lemma init_consistent (k0 : Z) : degrees_consistent (init k0).
Proof. intros n. split; reflexivity. Qed.

(** C9: after [build_graph] has processed any reads, for any [k], every
    node's out-degree counter is the length of its adjacency list and
    its in-degree counter is the number of adjacency entries that name
    it; and each single edge insertion keeps that agreement. *)
Theorem build_graph_degrees_consistent :
  (forall (k0 : Z) (reads : list read),
      degrees_consistent (build_graph (init k0) reads))
  /\ (forall (self : DBGAssembler) (kmer : string),
         degrees_consistent self -> degrees_consistent (add_kmer self kmer)).
Proof.
  split.
  - intros k0 reads. unfold build_graph.
    apply fold_left_invariant; [apply add_read_consistent | apply init_consistent].
  - exact add_kmer_consistent.
Qed.


(** The first edge inserted into a fresh assembler. *)
Lemma build_graph_degrees_consistent_witness :
  degrees_consistent (add_kmer (init 3) "ACG").
Proof.
  apply (proj2 build_graph_degrees_consistent (init 3) "ACG").
  intros n. split; reflexivity.
Defined.

(** *** What [find_contigs] changes *)

Lemma extends_refl (g : dict (list string)) : extends g g.
Proof.
  exists []. simpl. rewrite app_nil_r.
  split; [reflexivity | split; [constructor | intros n []]].
Qed.

Lemma extends_trans (g1 g2 g3 : dict (list string)) :
  extends g1 g2 -> extends g2 g3 -> extends g1 g3.
Proof.
  intros (x1 & E1 & N1 & F1) (x2 & E2 & N2 & F2).
  exists (x1 ++ x2). split; [|split].
  - rewrite E2, E1, map_app, app_assoc. reflexivity.
  - apply NoDup_app; try assumption.
    intros n H1 H2. specialize (F2 n H2).
    rewrite E1, lookup_app in F2.
    destruct (lookup n g1); [congruence|].
    apply lookup_None_keys in F2. apply F2.
    unfold keys. rewrite map_map. simpl. rewrite map_id. exact H1.
  - intros n H. apply in_app_or in H. destruct H as [H|H]; [auto|].
    specialize (F2 n H). rewrite E1, lookup_app in F2.
    destruct (lookup n g1); congruence.
Qed.

Lemma extends_dd_getitem (key : string) (g : dict (list string)) :
  extends g (snd (dd_getitem [] key g)).
Proof.
  unfold dd_getitem. destruct (lookup key g) eqn:E; simpl.
  - apply extends_refl.
  - exists [key]. split; [reflexivity|].
    split; [repeat constructor; simpl; tauto|].
    intros n [<-|[]]. exact E.
Qed.

Lemma frame_refl (self : DBGAssembler) : frame self self.
Proof. repeat split; auto using extends_refl. Qed.

Lemma frame_trans (a b c : DBGAssembler) : frame a b -> frame b c -> frame a c.
Proof.
  intros (K1 & G1 & I1 & O1) (K2 & G2 & I2 & O2).
  repeat split.
  - congruence.
  - eapply extends_trans; eassumption.
  - intros n. rewrite I2. apply I1.
  - intros n. rewrite O2. apply O1.
Qed.

Lemma degrees_read_refl (self : DBGAssembler) : degrees_read self self.
Proof. repeat split; auto. Qed.

Lemma degrees_read_trans (a b c : DBGAssembler) :
  degrees_read a b -> degrees_read b c -> degrees_read a c.
Proof.
  intros (K1 & G1 & I1 & O1) (K2 & G2 & I2 & O2).
  repeat split; try congruence.
  all: intros n; first [rewrite I2; apply I1 | rewrite O2; apply O1].
Qed.

Lemma degrees_read_frame (a b : DBGAssembler) : degrees_read a b -> frame a b.
Proof.
  intros (K & G & I & O). repeat split; auto.
  rewrite G. apply extends_refl.
Qed.

Lemma select_start_reads (sn : list string) (self : DBGAssembler)
  (node : string) :
  degrees_read self (snd (select_start (sn, self) node)).
Proof.
  unfold select_start.
  destruct (dd_getitem 0 node (out_degree self)) as [od out1] eqn:Eo.
  pose proof (fun n => proj1 (count_of_dd_getitem n node (out_degree self))) as Ho.
  rewrite Eo in Ho. simpl in Ho.
  destruct (od >? 0).
  - destruct (dd_getitem 0 node (in_degree self)) as [idg in1] eqn:Ei.
    pose proof (fun n => proj1 (count_of_dd_getitem n node (in_degree self))) as Hi.
    rewrite Ei in Hi. simpl in Hi.
    destruct (negb (idg =? od) || (idg =? 0)); simpl; repeat split; auto.
  - simpl. repeat split; auto.
Qed.

Lemma select_start_loop_reads (nodes : list string) (sn : list string)
  (self : DBGAssembler) :
  degrees_read self (snd (fold_left select_start nodes (sn, self))).
Proof.
  revert sn self.
  induction nodes as [|node nodes IH]; intros sn self; cbn [fold_left].
  - apply degrees_read_refl.
  - destruct (select_start (sn, self) node) as [sn1 self1] eqn:E.
    eapply degrees_read_trans; [|apply IH].
    pose proof (select_start_reads sn self node) as H. rewrite E in H. exact H.
Qed.

Lemma first_with_out_edge_reads (nodes : list string) (self : DBGAssembler) :
  degrees_read self (snd (first_with_out_edge nodes self)).
Proof.
  revert self. induction nodes as [|node nodes IH]; intros self; simpl.
  - apply degrees_read_refl.
  - destruct (dd_getitem 0 node (out_degree self)) as [od out1] eqn:Eo.
    pose proof (fun n => proj1 (count_of_dd_getitem n node (out_degree self))) as Ho.
    rewrite Eo in Ho. simpl in Ho.
    assert (R : degrees_read self
                  (mkDBG (k self) (graph self) (in_degree self) out1)).
    { repeat split; auto. }
    destruct (od >? 0); simpl; [exact R|].
    eapply degrees_read_trans; [exact R | apply IH].
Qed.

Lemma walk_frame (fuel : nat) (self : DBGAssembler)
  (visited path : list string) (current : string) :
  frame self (snd (walk fuel self visited path current)).
Proof.
  revert self visited path current.
  induction fuel as [|fuel IH]; intros self visited path current; simpl.
  - apply frame_refl.
  - destruct (dd_getitem [] current (graph self)) as [next_nodes g1] eqn:Eg.
    pose proof (extends_dd_getitem current (graph self)) as Hg.
    rewrite Eg in Hg. simpl in Hg.
    assert (F1 : frame self
                   (mkDBG (k self) g1 (in_degree self) (out_degree self))).
    { repeat split; auto. }
    destruct next_nodes as [|next_node [|y t]]; simpl; try exact F1.
    destruct (dd_getitem 0 next_node (in_degree self)) as [d in1] eqn:Ei.
    pose proof (fun n => proj1 (count_of_dd_getitem n next_node (in_degree self))) as Hi.
    rewrite Ei in Hi. simpl in Hi.
    assert (F2 : frame self (mkDBG (k self) g1 in1 (out_degree self))).
    { repeat split; auto. }
    destruct (d =? 1); simpl; [|exact F2].
    destruct (mem next_node (set_add current visited)); simpl; [exact F2|].
    destruct (last_char next_node); simpl; try exact F2.
    eapply frame_trans; [exact F2 | apply IH].
Qed.

(** *** The walk stops *)

Lemma filter_length_lt (A : Type) (p q : A -> bool) (l : list A) (x : A) :
  (forall y, p y = true -> q y = true) ->
  In x l -> q x = true -> p x = false ->
  (List.length (filter p l) < List.length (filter q l))%nat.
Proof.
  intros Hpq Hin Hq Hp.
  assert (Hle : forall l', (List.length (filter p l')
                            <= List.length (filter q l'))%nat).
  { induction l' as [|y l' IH]; simpl; [lia|].
    destruct (p y) eqn:Py.
    - rewrite (Hpq y Py). simpl. lia.
    - destruct (q y); simpl; lia. }
  induction l as [|y l IH]; simpl in *; [tauto|].
  destruct Hin as [->|Hin].
  - rewrite Hp, Hq. simpl. specialize (Hle l). lia.
  - specialize (IH Hin). destruct (p y) eqn:Py.
    + rewrite (Hpq y Py). simpl. lia.
    + destruct (q y); simpl; lia.
Qed.

Lemma unvisited_set_add (V visited : list string) (x : string) :
  In x V -> mem x visited = false ->
  (unvisited V (set_add x visited) < unvisited V visited)%nat.
Proof.
  intros Hin Hm. unfold unvisited, set_add. rewrite Hm.
  apply filter_length_lt with (x := x); auto.
  - intros y. simpl. destruct (String.eqb y x); simpl; [discriminate | auto].
  - rewrite Hm. reflexivity.
  - simpl. rewrite String.eqb_refl. reflexivity.
Qed.

Lemma unvisited_le (V visited : list string) :
  (unvisited V visited <= List.length V)%nat.
Proof. unfold unvisited. apply filter_length_le. Qed.


Lemma lookup_all_nodes (key : string) (l : list string)
  (g : dict (list string)) :
  lookup key g = Some l -> incl (key :: l) (all_nodes g).
Proof.
  intros H. apply lookup_Some_In in H.
  intros x Hx. unfold all_nodes. apply in_flat_map.
  exists (key, l). split; [exact H | exact Hx].
Qed.

Lemma all_nodes_dd_getitem (key : string) (g : dict (list string))
  (V : list string) :
  In key V -> incl (all_nodes g) V ->
  incl (all_nodes (snd (dd_getitem [] key g))) V.
Proof.
  intros Hk Hg. unfold dd_getitem.
  destruct (lookup key g); simpl; [exact Hg|].
  unfold all_nodes. rewrite flat_map_app. simpl.
  intros x Hx. apply in_app_or in Hx. destruct Hx as [Hx|[<-|[]]]; auto.
Qed.

Lemma walk_terminates (V : list string) (fuel : nat) (self : DBGAssembler)
  (visited path : list string) (current : string) :
  In current V ->
  incl (all_nodes (graph self)) V ->
  mem current visited = false ->
  (unvisited V visited < fuel)%nat ->
  fst (walk fuel self visited path current) <> OutOfFuel
  /\ incl (all_nodes (graph (snd (walk fuel self visited path current)))) V.
Proof.
  revert self visited path current.
  induction fuel as [|fuel IH]; intros self visited path current Hc Hg Hm Hf.
  - lia.
  - simpl.
    destruct (dd_getitem [] current (graph self)) as [next_nodes g1] eqn:Eg.
    pose proof (all_nodes_dd_getitem current (graph self) V Hc Hg) as Hg1.
    rewrite Eg in Hg1. simpl in Hg1.
    assert (Hn : forall x, In x next_nodes -> In x V).
    { intros x Hx. unfold dd_getitem in Eg.
      destruct (lookup current (graph self)) as [l|] eqn:El.
      - inversion Eg; subst. apply Hg.
        apply (lookup_all_nodes current next_nodes _ El). right. exact Hx.
      - inversion Eg; subst. destruct Hx. }
    destruct next_nodes as [|next_node [|y t]]; simpl;
      try (split; [discriminate | exact Hg1]).
    destruct (dd_getitem 0 next_node (in_degree self)) as [d in1].
    destruct (d =? 1); simpl; [|split; [discriminate | exact Hg1]].
    destruct (mem next_node (set_add current visited)) eqn:Mn; simpl;
      [split; [discriminate | exact Hg1]|].
    destruct (last_char next_node); simpl;
      try (split; [discriminate | exact Hg1]).
    apply IH; simpl; auto.
    + apply Hn. left. reflexivity.
    + pose proof (unvisited_set_add V visited current Hc Hm). lia.
Qed.

(** One iteration of the loop over the start nodes: it ends, and it
    changes nothing outside the frame. *)
Lemma extract_from_ok (V : list string) (fuel : nat)
  (st : outcome (list string * list string) * DBGAssembler) (start : string) :
  fst st <> OutOfFuel ->
  In start V ->
  incl (all_nodes (graph (snd st))) V ->
  (List.length V < fuel)%nat ->
  fst (extract_from fuel st start) <> OutOfFuel
  /\ incl (all_nodes (graph (snd (extract_from fuel st start)))) V
  /\ frame (snd st) (snd (extract_from fuel st start)).
Proof.
  intros Hst Hs Hg Hf. destruct st as [[[contigs visited]|e|] self];
    simpl in *; try congruence.
  2: { split; [discriminate|]. split; [exact Hg | apply frame_refl]. }
  destruct (mem start visited) eqn:M; simpl.
  - split; [discriminate|]. split; [exact Hg | apply frame_refl].
  - pose proof (unvisited_le V visited) as Hle.
    destruct (walk_terminates V fuel self visited [start] start Hs Hg M
                ltac:(lia)) as [T G].
    pose proof (walk_frame fuel self visited [start] start) as F.
    destruct (walk fuel self visited [start] start)
      as [[[path visited1]|e|] self1]; simpl in *.
    + split; [discriminate|]. split; assumption.
    + split; [discriminate|]. split; assumption.
    + congruence.
Qed.

Lemma extract_loop_ok (V : list string) (fuel : nat) (starts : list string)
  (st : outcome (list string * list string) * DBGAssembler) :
  fst st <> OutOfFuel ->
  incl starts V ->
  incl (all_nodes (graph (snd st))) V ->
  (List.length V < fuel)%nat ->
  fst (fold_left (extract_from fuel) starts st) <> OutOfFuel
  /\ incl (all_nodes (graph (snd (fold_left (extract_from fuel) starts st)))) V
  /\ frame (snd st) (snd (fold_left (extract_from fuel) starts st)).
Proof.
  revert st. induction starts as [|start starts IH];
    intros st Hst Hs Hg Hf; cbn [fold_left].
  - split; [exact Hst|]. split; [exact Hg | apply frame_refl].
  - destruct (extract_from_ok V fuel st start Hst) as (T & G & F); auto.
    { apply Hs. left. reflexivity. }
    destruct (IH (extract_from fuel st start) T) as (T' & G' & F'); auto.
    { intros x Hx. apply Hs. right. exact Hx. }
    split; [exact T'|]. split; [exact G' | eapply frame_trans; eassumption].
Qed.

Lemma keys_all_nodes (g : dict (list string)) : incl (keys g) (all_nodes g).
Proof.
  intros x Hx. unfold keys in Hx. apply in_map_iff in Hx.
  destruct Hx as ([a l] & <- & Hin).
  unfold all_nodes. apply in_flat_map. exists (a, l).
  split; [exact Hin | left; reflexivity].
Qed.

Lemma select_start_loop_keys (nodes sn : list string) (self : DBGAssembler)
  (K : list string) :
  incl nodes K -> incl sn K ->
  incl (fst (fold_left select_start nodes (sn, self))) K.
Proof.
  revert sn self. induction nodes as [|node nodes IH];
    intros sn self Hn Hs; cbn [fold_left]; [exact Hs|].
  assert (Hnode : In node K) by (apply Hn; left; reflexivity).
  assert (Hrest : incl nodes K) by (intros x Hx; apply Hn; right; exact Hx).
  unfold select_start at 2.
  destruct (dd_getitem 0 node (out_degree self)) as [od out1].
  destruct (od >? 0); [|apply IH; auto].
  destruct (dd_getitem 0 node (in_degree self)) as [idg in1].
  destruct (negb (idg =? od) || (idg =? 0)); apply IH; auto.
  intros x Hx. apply in_app_or in Hx. destruct Hx as [Hx|[<-|[]]]; auto.
Qed.

Lemma first_with_out_edge_keys (nodes : list string) (self : DBGAssembler) :
  incl (fst (first_with_out_edge nodes self)) nodes.
Proof.
  revert self. induction nodes as [|node nodes IH]; intros self; simpl.
  - intros x [].
  - destruct (dd_getitem 0 node (out_degree self)) as [od out1].
    destruct (od >? 0); simpl.
    + intros x [<-|[]]. left. reflexivity.
    + intros x Hx. right. eapply IH. exact Hx.
Qed.

Lemma find_contigs_core (self : DBGAssembler) :
  fst (find_contigs self) <> OutOfFuel
  /\ incl (all_nodes (graph (snd (find_contigs self)))) (all_nodes (graph self))
  /\ frame self (snd (find_contigs self)).
Proof.
  unfold find_contigs.
  pose proof (select_start_loop_reads (keys (graph self)) [] self) as R1.
  pose proof (select_start_loop_keys (keys (graph self)) [] self
                (keys (graph self)) (incl_refl _) (incl_nil_l _)) as K1.
  destruct (fold_left select_start (keys (graph self)) ([], self))
    as [start_nodes self1]. simpl in R1, K1.
  assert (H2 : exists sn2 self2,
             match start_nodes with
             | [] => first_with_out_edge (keys (graph self1)) self1
             | _ :: _ => (start_nodes, self1)
             end = (sn2, self2)
             /\ degrees_read self1 self2 /\ incl sn2 (keys (graph self1))).
  { destruct start_nodes as [|s0 rest].
    - pose proof (first_with_out_edge_reads (keys (graph self1)) self1) as R.
      pose proof (first_with_out_edge_keys (keys (graph self1)) self1) as K.
      destruct (first_with_out_edge (keys (graph self1)) self1) as [a b].
      exists a, b. auto.
    - exists (s0 :: rest), self1. split; [reflexivity|].
      split; [apply degrees_read_refl|].
      destruct R1 as (_ & G & _). rewrite G. exact K1. }
  destruct H2 as (sn2 & self2 & -> & R2 & K2).
  assert (G2 : graph self2 = graph self1) by apply R2.
  assert (G1 : graph self1 = graph self) by apply R1.
  destruct (extract_loop_ok (all_nodes (graph self2))
              (S (List.length (all_nodes (graph self2)))) sn2
              (Return ([], []), self2)) as (T & G & F); simpl; auto.
  { discriminate. }
  { rewrite G2. intros x Hx. apply keys_all_nodes. auto. }
  { apply incl_refl. }
  destruct (fold_left _ sn2 (Return ([], []), self2)) as [res self3].
  simpl in *. split; [|split].
  - destruct res as [[c v]|e|]; congruence.
  - rewrite <- G1, <- G2. exact G.
  - eapply frame_trans; [|exact F].
    eapply frame_trans; apply degrees_read_frame; eassumption.
Qed.

(** C3 (as the code has it): [find_contigs] always comes to an end, on
    any assembler state.  It keeps [k], every key of the graph and every
    adjacency list; the only change to the graph is that strings reached
    by the traversal that were no keys are appended as keys with empty
    adjacency lists, and each of them was a successor in the graph
    before.  The degree counters keep their values. *)
Theorem find_contigs_frame (self : DBGAssembler) :
  fst (find_contigs self) <> OutOfFuel
  /\ frame self (snd (find_contigs self))
  /\ incl (all_nodes (graph (snd (find_contigs self))))
          (all_nodes (graph self)).
Proof.
  destruct (find_contigs_core self) as (T & G & F).
  split; [exact T|]. split; assumption.
Qed.

(** C3, the claim as worded: after building the graph of the single
    read ACGT with k = 3, [find_contigs] ends on the sink GT and the
    lookup of its successors makes GT a key: the key set is not the
    same after the call. *)
Lemma find_contigs_adds_sink_key :
  let self := build_graph (init 3) [("r0", "ACGT", [])] in
  keys (graph self) = ["AC"; "CG"]
  /\ fst (find_contigs self) = Return ["ACGT"]
  /\ keys (graph (snd (find_contigs self))) = ["AC"; "CG"; "GT"]
  /\ keys (graph (snd (find_contigs self))) <> keys (graph self).
Proof.
  vm_compute. repeat split; discriminate.
Qed.

(** *** Shape of the built graph *)

Lemma length_chars (s : string) : List.length (chars s) = String.length s.
Proof. induction s; simpl; auto. Qed.

Lemma length_str (l : list ascii) : String.length (str l) = List.length l.
Proof. induction l; simpl; auto. Qed.



Lemma len_nonneg (s : string) : 0 <= len s.
Proof. unfold len. lia. Qed.

Lemma adjust_range (n i : Z) : 0 <= n -> 0 <= adjust n i <= n.
Proof. intros H. unfold adjust. destruct (i <? 0) eqn:E; lia. Qed.

Lemma len_slice_some (s : string) (lo hi : Z) :
  len (slice s (Some lo) (Some hi))
  = Z.max 0 (adjust (len s) hi - adjust (len s) lo).
Proof.
  unfold slice, len at 1. rewrite length_str, length_firstn, length_skipn.
  rewrite length_chars.
  pose proof (adjust_range (len s) lo (len_nonneg s)).
  pose proof (adjust_range (len s) hi (len_nonneg s)).
  unfold len in *. lia.
Qed.

Lemma len_slice_to (s : string) (hi : Z) :
  len (slice s None (Some hi)) = adjust (len s) hi.
Proof.
  unfold slice, len at 1. rewrite length_str, length_firstn. simpl skipn.
  rewrite length_chars.
  pose proof (adjust_range (len s) hi (len_nonneg s)).
  unfold len in *. lia.
Qed.

Lemma in_range3 (a b st x : Z) :
  0 < st -> In x (range3 a b st) -> a <= x < b.
Proof.
  intros Hs H. unfold range3 in H. apply in_map_iff in H.
  destruct H as (i & <- & Hi). apply in_seq in Hi.
  pose proof (Z.mul_div_le (b - a + st - 1) st Hs) as Hd.
  remember ((b - a + st - 1) / st) as q eqn:Eq. clear Eq.
  assert (Z.of_nat i + 1 <= q) by lia. nia.
Qed.

Lemma in_range (n x : Z) : In x (range n) -> 0 <= x < n.
Proof. apply in_range3. lia. Qed.

Lemma window_len (seq : string) (k0 i : Z) :
  1 <= k0 -> 0 <= i < len seq - k0 + 1 ->
  len (slice seq (Some i) (Some (i + k0))) = k0.
Proof.
  intros Hk Hi. rewrite len_slice_some. unfold adjust.
  destruct (i + k0 <? 0) eqn:E1; destruct (i <? 0) eqn:E2; lia.
Qed.

Lemma add_kmer_graph (self : DBGAssembler) (kmer : string) :
  k (add_kmer self kmer) = k self
  /\ exists l,
      let prefix := slice kmer None (Some (-1)) in
      let suffix := slice kmer (Some 1) None in
      graph (add_kmer self kmer) = set_item prefix l (graph self)
      /\ match lookup prefix (graph self) with
         | Some old => l = old \/ (l = old ++ [suffix] /\ ~ In suffix old)
         | None => l = [suffix]
         end.
Proof.
  unfold add_kmer.
  set (prefix := slice kmer None (Some (-1))).
  set (suffix := slice kmer (Some 1) None).
  unfold dd_getitem.
  destruct (lookup prefix (graph self)) as [succs|] eqn:E.
  - destruct (mem suffix succs) eqn:M; simpl; (split; [reflexivity|]).
    + exists succs. split; [|left; reflexivity].
      clear M. induction (graph self) as [|[k0 v0] g IH]; simpl in *;
        [congruence|].
      destruct (String.eqb_spec prefix k0) as [->|Hp].
      * congruence.
      * f_equal. auto.
    + exists (succs ++ [suffix]). split; [reflexivity|].
      right. split; [reflexivity | apply mem_false; exact M].
  - simpl. split; [reflexivity|]. exists [suffix].
    split; [|reflexivity].
    simpl app. induction (graph self) as [|[k0 v0] g IH]; simpl in *.
    + rewrite String.eqb_refl. reflexivity.
    + destruct (String.eqb_spec prefix k0) as [->|Hp]; [congruence|].
      f_equal. auto.
Qed.

Lemma keys_set_item (V : Type) (a : string) (v : V) (d : dict V) :
  keys (set_item a v d)
  = match lookup a d with Some _ => keys d | None => keys d ++ [a] end.
Proof.
  destruct (lookup a d) eqn:E.
  - apply keys_set_item_present. congruence.
  - rewrite (keys_set_item_absent _ a v d E). unfold keys.
    rewrite map_app. reflexivity.
Qed.

Lemma In_set_item (V : Type) (a n : string) (v l : V) (d : dict V) :
  In (n, l) (set_item a v d) ->
  (n = a /\ l = v) \/ In (n, l) d.
Proof.
  induction d as [|[k0 v0] d IH]; simpl.
  - intros [H|[]]. inversion H. auto.
  - destruct (String.eqb_spec a k0) as [->|Ha]; simpl.
    + intros [H|H]; [inversion H; auto | auto].
    + intros [H|H]; [auto|]. destruct (IH H); auto.
Qed.

Lemma add_kmer_simple (self : DBGAssembler) (kmer : string) :
  simple_graph (graph self) -> simple_graph (graph (add_kmer self kmer)).
Proof.
  intros [Hk Hl].
  destruct (add_kmer_graph self kmer) as (_ & l & Eg & Hl').
  simpl in Eg, Hl'. rewrite Eg. split.
  - rewrite keys_set_item.
    destruct (lookup _ (graph self)) eqn:E; [exact Hk|].
    apply NoDup_app; [exact Hk | repeat constructor; simpl; tauto|].
    intros x Hx [<-|[]]. apply lookup_None_keys in E. auto.
  - intros n l' Hin. apply In_set_item in Hin.
    destruct Hin as [[-> ->]|Hin]; [|eapply Hl; eassumption].
    destruct (lookup _ (graph self)) as [old|] eqn:E.
    + pose proof (Hl _ _ (lookup_Some_In _ _ _ _ E)) as Nold.
      destruct Hl' as [->|(-> & Hs)]; [exact Nold|].
      apply NoDup_app; [exact Nold | repeat constructor; simpl; tauto|].
      intros x Hx [<-|[]]. auto.
    + subst l. repeat constructor. simpl. tauto.
Qed.

Lemma all_nodes_set_item (p : string) (l : list string)
  (g : dict (list string)) :
  incl (all_nodes (set_item p l g)) (p :: l ++ all_nodes g).
Proof.
  induction g as [|[k0 v0] g IH]; simpl.
  - intros x Hx. rewrite app_nil_r in *. exact Hx.
  - destruct (String.eqb_spec p k0) as [->|Hp]; simpl; intros x Hx.
    + destruct Hx as [<-|Hx]; [left; reflexivity|]. right.
      apply in_app_or in Hx. apply in_or_app.
      destruct Hx as [Hx|Hx]; [left; exact Hx|].
      right. right. apply in_or_app. right. exact Hx.
    + destruct Hx as [<-|Hx].
      * right. apply in_or_app. right. left. reflexivity.
      * apply in_app_or in Hx. destruct Hx as [Hx|Hx].
        -- right. apply in_or_app. right. right. apply in_or_app. left. exact Hx.
        -- destruct (IH x Hx) as [<-|Hx']; [left; reflexivity|]. right.
           apply in_app_or in Hx'. apply in_or_app.
           destruct Hx' as [Hx'|Hx']; [left; exact Hx'|].
           right. right. apply in_or_app. right. exact Hx'.
Qed.

Lemma len_slice_from (s : string) (lo : Z) :
  len (slice s (Some lo) None) = len s - adjust (len s) lo.
Proof.
  unfold slice, len at 1. rewrite length_str, length_firstn, length_skipn.
  rewrite length_chars.
  pose proof (adjust_range (len s) lo (len_nonneg s)).
  unfold len in *. lia.
Qed.

Lemma add_kmer_k1mers (self : DBGAssembler) (kmer : string) :
  1 <= k self -> len kmer = k self ->
  nodes_are_k1mers self -> nodes_are_k1mers (add_kmer self kmer).
Proof.
  intros Hk Hlen Hinv p Hp.
  destruct (add_kmer_graph self kmer) as (Ek & l & Eg & Hl).
  simpl in Eg, Hl. rewrite Eg in Hp. rewrite Ek.
  assert (Hpre : len (slice kmer None (Some (-1))) = k self - 1).
  { rewrite len_slice_to, Hlen. unfold adjust.
    change (-1 <? 0) with true. cbv iota. lia. }
  assert (Hsuf : len (slice kmer (Some 1) None) = k self - 1).
  { rewrite len_slice_from, Hlen. unfold adjust.
    change (1 <? 0) with false. cbv iota. lia. }
  apply all_nodes_set_item in Hp. destruct Hp as [<-|Hp]; [exact Hpre|].
  apply in_app_or in Hp. destruct Hp as [Hp|Hp]; [|auto].
  destruct (lookup _ (graph self)) as [old|] eqn:E.
  - assert (Hold : forall x, In x old -> len x = k self - 1).
    { intros x Hx. apply Hinv.
      apply (lookup_all_nodes _ old _ E). right. exact Hx. }
    destruct Hl as [->|(-> & _)]; [auto|].
    apply in_app_or in Hp. destruct Hp as [Hp|[<-|[]]]; auto.
  - subst l. destruct Hp as [<-|[]]. exact Hsuf.
Qed.

Lemma add_kmer_k (self : DBGAssembler) (kmer : string) :
  k (add_kmer self kmer) = k self.
Proof. apply add_kmer_graph. Qed.

Lemma add_window_k (seq : string) (self : DBGAssembler) (i : Z) :
  k (add_window seq self i) = k self.
Proof.
  unfold add_window. destruct (has_non_acgt _); [reflexivity | apply add_kmer_k].
Qed.

Lemma fold_left_invariant_in (A B : Type) (P : A -> Prop) (f : A -> B -> A)
  (l : list B) (a : A) :
  (forall x y, In y l -> P x -> P (f x y)) -> P a -> P (fold_left f l a).
Proof.
  revert a. induction l as [|y l IH]; simpl; intros a Hf Ha; [exact Ha|].
  apply IH; [intros x z Hz; apply Hf; auto | apply Hf; auto].
Qed.

Lemma add_read_well_built (k0 : Z) (self : DBGAssembler) (r : read) :
  1 <= k0 ->
  k self = k0 /\ well_built self ->
  k (add_read self r) = k0 /\ well_built (add_read self r).
Proof.
  intros Hk H. destruct r as [[h seq] q]. unfold add_read.
  destruct (len seq <? k self); [exact H|].
  destruct H as [Ek H].
  apply fold_left_invariant_in
    with (P := fun s => k s = k0 /\ well_built s); [|auto].
  intros x i Hi [Ex [Hs Hm]]. rewrite Ek in Hi. apply in_range in Hi.
  split; [rewrite add_window_k; exact Ex|].
  unfold add_window. destruct (has_non_acgt _); [split; assumption|].
  split; [apply add_kmer_simple; exact Hs|].
  apply add_kmer_k1mers; try assumption; [lia|].
  rewrite Ex. apply window_len; lia.
Qed.

Lemma build_graph_well_built (k0 : Z) (reads : list read) :
  1 <= k0 ->
  k (build_graph (init k0) reads) = k0
  /\ well_built (build_graph (init k0) reads).
Proof.
  intros Hk. unfold build_graph.
  apply fold_left_invariant
    with (P := fun s => k s = k0 /\ well_built s).
  - intros x r. apply add_read_well_built. exact Hk.
  - split; [reflexivity|]. split; [split|].
    + constructor.
    + intros n l [].
    + intros p [].
Qed.

Lemma link_lines_of_k1mers (g : dict (list string)) (ov : Z) :
  (forall p, In p (keys g) -> len p - 1 = ov) ->
  flat_map (fun e => map (GFA.link_line (fst e)) (snd e)) g
  = link_lines_with g ov.
Proof.
  unfold link_lines_with. induction g as [|[n l] g IH]; simpl; intros H.
  - reflexivity.
  - rewrite IH by (intros p Hp; apply H; right; exact Hp).
    f_equal. unfold GFA.link_line. rewrite (H n) by (left; reflexivity).
    reflexivity.
Qed.

Lemma extends_simple (g g' : dict (list string)) :
  extends g g' -> simple_graph g -> simple_graph g'.
Proof.
  intros (extra & -> & Nx & Fx) [Hk Hl]. split.
  - unfold keys. rewrite map_app, map_map. simpl. rewrite map_id.
    apply NoDup_app; [exact Hk | exact Nx|].
    intros x Hx Hx'. apply Fx in Hx'. apply lookup_None_keys in Hx'. auto.
  - intros n l H. apply in_app_or in H. destruct H as [H|H].
    + eapply Hl. exact H.
    + apply in_map_iff in H. destruct H as (x & E & _). inversion E.
      constructor.
Qed.

Lemma extends_link_lines (g g' : dict (list string)) (ov : Z) :
  extends g g' -> link_lines_with g' ov = link_lines_with g ov.
Proof.
  intros (extra & -> & _). unfold link_lines_with.
  rewrite flat_map_app.
  assert (E : forall l : list string,
             flat_map (fun e : string * list string =>
                         map (fun m => GFA.link_line_with (fst e) m ov) (snd e))
                      (map (fun n => (n, [])) l) = []).
  { induction l as [|x l IH]; simpl; auto. }
  rewrite E, app_nil_r. reflexivity.
Qed.

(** C4 (as the code has it): for the graph built with any [k >= 1] the
    export writes the header line, then segment lines, then link
    lines.  The segment lines are those of distinct nodes of the graph,
    every node with an outgoing edge among them.  There is one link
    line for every key and every entry of its adjacency list (keys are
    distinct and no list repeats an entry), and its overlap field is
    the key's length less one, which is [k - 2].  The same holds for
    the graph as it is after [find_contigs], when [assemble] exports
    it, with the same link lines. *)
Theorem write_gfa_format (k0 : Z) (reads : list read) :
  1 <= k0 ->
  let g := graph (build_graph (init k0) reads) in
  let g' := graph (snd (find_contigs (build_graph (init k0) reads))) in
  simple_graph g
  /\ forall gx, gx = g \/ gx = g' ->
       exists ns,
         GFA.write_gfa gx
         = GFA.header_line :: map GFA.segment_line ns
             ++ link_lines_with g (k0 - 2)
         /\ NoDup ns
         /\ incl ns (all_nodes g)
         /\ (forall n, adjacency g n <> [] -> In n ns).
Proof.
  intros Hk. cbv zeta.
  destruct (build_graph_well_built k0 reads Hk) as (Ek & Hs & Hm).
  destruct (find_contigs_core (build_graph (init k0) reads))
    as (_ & Hin & _ & Hext & _).
  unfold nodes_are_k1mers in Hm. rewrite Ek in Hm.
  remember (graph (build_graph (init k0) reads)) as g eqn:Eg.
  remember (graph (snd (find_contigs (build_graph (init k0) reads)))) as g'
    eqn:Eg'.
  assert (Hout : forall n, adjacency g n <> [] -> In n (keys g)).
  { intros n Hn. apply lookup_In_keys. unfold adjacency in Hn.
    destruct (lookup n g); congruence. }
  split; [exact Hs|]. intros gx [->| ->].
  - exists (keys g). split; [|split; [exact (proj1 Hs)|split]].
    + unfold GFA.write_gfa. f_equal. f_equal.
      apply link_lines_of_k1mers. intros p Hp.
      rewrite (Hm p (keys_all_nodes _ p Hp)). lia.
    + apply keys_all_nodes.
    + exact Hout.
  - exists (keys g').
    split; [|split; [exact (proj1 (extends_simple g g' Hext Hs))|split]].
    + unfold GFA.write_gfa. f_equal. f_equal.
      rewrite <- (extends_link_lines g g' (k0 - 2) Hext).
      apply link_lines_of_k1mers. intros p Hp.
      rewrite (Hm p (Hin p (keys_all_nodes _ p Hp))). lia.
    + intros n Hn. apply Hin, keys_all_nodes, Hn.
    + intros n Hn. destruct Hext as (extra & -> & _).
      unfold keys. rewrite map_app. apply in_or_app. left.
      apply Hout. exact Hn.
Qed.

(** The export of the graph of the single read ACGT, k = 3. *)
Lemma write_gfa_format_witness :
  1 <= 3
  /\ exists ns,
       GFA.write_gfa (graph (build_graph (init 3) [("r0", "ACGT", [])]))
       = GFA.header_line :: map GFA.segment_line ns
           ++ [GFA.link_line_with "AC" "CG" 1; GFA.link_line_with "CG" "GT" 1]
       /\ In "AC" ns /\ In "CG" ns.
Proof.
  split; [lia|].
  destruct (proj2 (write_gfa_format 3 [("r0", "ACGT", [])] ltac:(lia))
              (graph (build_graph (init 3) [("r0", "ACGT", [])]))
              (or_introl eq_refl))
    as (ns & E & _ & _ & Hout).
  exists ns. split; [exact E|].
  split; apply Hout; vm_compute; discriminate.
Defined.

(** C4, the claim as worded: with k = 3 the link line of the edge
    AC -> CG carries the overlap field 1, not k - 1 = 2. *)
Lemma write_gfa_overlap_is_not_k_minus_1 :
  let g := graph (build_graph (init 3) [("r0", "ACGT", [])]) in
  adjacency g "AC" = ["CG"]
  /\ In (GFA.link_line_with "AC" "CG" 1) (GFA.write_gfa g)
  /\ ~ In (GFA.link_line_with "AC" "CG" (3 - 1)) (GFA.write_gfa g).
Proof.
  vm_compute. split; [reflexivity|]. split.
  - tauto.
  - intros H. repeat (destruct H as [H|H]; [discriminate H|]). exact H.
Qed.

(** C6: the reads ACGTAC, GTACTG, ACTGAA with k = 4.  The eight
    3-mers are nodes of the built graph (seven are keys, GAA is the
    successor of TGA and becomes a key during the traversal), and
    [find_contigs] returns the single contig ACGTACTGAA. *)
Theorem scenario_A_contig :
  let reads := [("r0", "ACGTAC", []); ("r1", "GTACTG", []);
                ("r2", "ACTGAA", [])] in
  let self := build_graph (init 4) reads in
  keys (graph self) = ["ACG"; "CGT"; "GTA"; "TAC"; "ACT"; "CTG"; "TGA"]
  /\ adjacency (graph self) "TGA" = ["GAA"]
  /\ incl ["ACG"; "CGT"; "GTA"; "TAC"; "ACT"; "CTG"; "TGA"; "GAA"]
          (all_nodes (graph self))
  /\ fst (find_contigs self) = Return ["ACGTACTGAA"]
  /\ keys (graph (snd (find_contigs self)))
     = ["ACG"; "CGT"; "GTA"; "TAC"; "ACT"; "CTG"; "TGA"; "GAA"].
Proof.
  vm_compute. repeat split.
  intros a H. repeat (destruct H as [<-|H]; [tauto|]). destruct H.
Qed.

End DBGFacts.

(* ================================================================== *)
(** ** Overlap detection records exact overlaps only *)
(* ================================================================== *)

Module OLCFacts.
Import OLC OLCProps DBGFacts.

Lemma refine_fold (seq_i seq_j : string) (l : list Z) (acc : Z) :
  forall r,
    r = fold_left
          (fun max_overlap exact_k =>
             if suffix_matches seq_i seq_j exact_k
             then Z.max max_overlap exact_k else max_overlap) l acc ->
    r = acc \/ (In r l /\ suffix_matches seq_i seq_j r = true).
Proof.
  revert acc. induction l as [|x l IH]; intros acc r Hr; simpl in Hr; [auto|].
  destruct (suffix_matches seq_i seq_j x) eqn:M.
  - destruct (IH (Z.max acc x) r Hr) as [E|[Hin Hm]].
    + destruct (Z.max_spec acc x) as [[_ Ex]|[_ Ex]]; rewrite Ex in E.
      * right. split; [left; auto | rewrite E; exact M].
      * left. exact E.
    + right. split; [right; exact Hin | exact Hm].
  - destruct (IH acc r Hr) as [E|[Hin Hm]]; [left; exact E|].
    right. split; [right; exact Hin | exact Hm].
Qed.

(** The overlap recorded for a pair is 0 (no hit) or a length in range
    at which suffix and prefix agree. *)
Lemma pair_overlap_hit (eff step : Z) (seq_i seq_j : string) :
  0 < step ->
  let r := pair_overlap eff step seq_i seq_j in
  r = 0
  \/ (eff <= r <= Z.min (len seq_i) (len seq_j)
      /\ suffix_matches seq_i seq_j r = true).
Proof.
  intros Hs. unfold pair_overlap.
  set (bound := Z.min (len seq_i) (len seq_j)).
  assert (Hc : forall x, In x (range3 eff (bound + 1) step) ->
                         eff <= x <= bound).
  { intros x Hx. apply in_range3 in Hx; lia. }
  induction (range3 eff (bound + 1) step) as [|c cands IH]; simpl; [auto|].
  destruct (suffix_matches seq_i seq_j c) eqn:M.
  - destruct (step >? 1).
    + unfold refine. fold bound.
      match goal with |- context [fold_left ?f ?l 0] =>
        destruct (refine_fold seq_i seq_j l 0 (fold_left f l 0) eq_refl)
          as [E|[Hin Hm]]
      end; [left; exact E|].
      right. split; [|exact Hm].
      apply in_range3 in Hin; [|lia].
      specialize (Hc c (or_introl eq_refl)). lia.
    + right. split; [apply Hc; left; reflexivity | exact M].
  - apply IH. intros x Hx. apply Hc. right. exact Hx.
Qed.

Lemma suffix_matches_exact (seq_i seq_j : string) (w : Z) :
  w <= Z.min (len seq_i) (len seq_j) ->
  w = 0 \/ suffix_matches seq_i seq_j w = true ->
  last_chars w seq_i = first_chars w seq_j.
Proof.
  intros Hw H. unfold last_chars, first_chars.
  destruct (Z_le_gt_dec w 0) as [Hneg|Hpos].
  - replace (Z.to_nat w) with 0%nat by lia.
    rewrite Nat.sub_0_r, skipn_all2 by (rewrite length_chars; lia).
    reflexivity.
  - destruct H as [H|H]; [lia|].
    unfold suffix_matches in H. apply String.eqb_eq in H.
    unfold slice, adjust in H.
    destruct (- w <? 0) eqn:E1; [|lia].
    destruct (w <? 0) eqn:E2; [lia|].
    unfold len in *. simpl skipn in H.
    replace (Z.to_nat (Z.min w (Z.of_nat (String.length seq_j)) - 0))
      with (Z.to_nat w) in H by lia.
    rewrite <- H. f_equal.
    replace (Z.to_nat (Z.max 0 (- w + Z.of_nat (String.length seq_i))))
      with (String.length seq_i - Z.to_nat w)%nat by lia.
    rewrite firstn_all2; [reflexivity|].
    rewrite length_skipn, length_chars. lia.
Qed.

(** *** Edges of the graph after [add_edge] *)

Lemma lookup_add_node (u n : string) (g : DiGraph) :
  lookup u (add_node n g)
  = match lookup u g with
    | Some x => Some x
    | None => if String.eqb u n then Some [] else None
    end.
Proof.
  unfold add_node. destruct (lookup n g) eqn:E.
  - destruct (lookup u g) eqn:E'; [reflexivity|].
    destruct (String.eqb_spec u n); [congruence | reflexivity].
  - rewrite lookup_app. simpl. reflexivity.
Qed.

Lemma edge_weight_add_edge (a b u v : string) (w0 w : Z) (g : DiGraph) :
  edge_weight (add_edge a b w0 g) (u, v) = Return w ->
  (u = a /\ v = b /\ w = w0) \/ edge_weight g (u, v) = Return w.
Proof.
  unfold edge_weight, add_edge, getitem. simpl.
  set (g2 := add_node b (add_node a g)).
  assert (L2 : forall x nb, lookup x g2 = Some nb ->
                 lookup x g = Some nb \/ nb = []).
  { intros x nb. unfold g2. rewrite !lookup_add_node.
    destruct (lookup x g); [auto|].
    destruct (String.eqb x a); [intros H; inversion H; auto|].
    destruct (String.eqb x b); [intros H; inversion H; auto | discriminate]. }
  destruct (lookup a g2) as [nbrs|] eqn:Ea.
  - rewrite lookup_set_item.
    destruct (String.eqb_spec u a) as [->|Hu]; simpl.
    + rewrite lookup_set_item.
      destruct (String.eqb_spec v b) as [->|Hv].
      * intros H. inversion H. auto.
      * destruct (L2 a nbrs Ea) as [E| ->]; [rewrite E; auto | simpl; discriminate].
    + destruct (lookup u g2) as [nb|] eqn:Eu; simpl; [|discriminate].
      destruct (L2 u nb Eu) as [E| ->]; [rewrite E; auto | simpl; discriminate].
  - destruct (lookup u g2) as [nb|] eqn:Eu; simpl; [|discriminate].
    destruct (L2 u nb Eu) as [E| ->]; [rewrite E; auto | simpl; discriminate].
Qed.

Lemma in_enumerate (A : Type) (l : list A) (i : nat) (x : A) :
  In (i, x) (enumerate l) -> nth_error l i = Some x.
Proof.
  unfold enumerate.
  assert (H : forall s, In (i, x) (combine (seq s (List.length l)) l) ->
                        (s <= i)%nat /\ nth_error l (i - s) = Some x).
  { induction l as [|y l IH]; simpl; intros s; [tauto|].
    intros [E|Hin].
    - inversion E; subst. rewrite Nat.sub_diag. auto.
    - destruct (IH (S s) Hin) as [Hle Hn]. split; [lia|].
      replace (i - s)%nat with (S (i - S s)) by lia. exact Hn. }
  intros Hin. destruct (H 0%nat Hin) as [_ Hn].
  rewrite Nat.sub_0_r in Hn. exact Hn.
Qed.

Lemma overlap_step_exact (ws : list read) (eff step : Z)
  (ir jr : nat * read) (g : DiGraph) :
  0 < step ->
  In ir (enumerate ws) -> In jr (enumerate ws) ->
  (forall u v w, edge_weight g (u, v) = Return w -> exact_overlap ws eff u v w) ->
  forall u v w,
    edge_weight (overlap_step eff step ir g jr) (u, v) = Return w ->
    exact_overlap ws eff u v w.
Proof.
  intros Hs Hi Hj Hg u v w. unfold overlap_step.
  destruct (Nat.eqb_spec (fst ir) (fst jr)) as [E|Hne]; [apply Hg|].
  destruct (Z.geb_spec (pair_overlap eff step (seq_of (snd ir)) (seq_of (snd jr))) eff)
    as [Hge|Hlt]; [|apply Hg].
  intros H. apply edge_weight_add_edge in H.
  destruct H as [(-> & -> & ->)|H]; [|apply Hg; exact H].
  destruct ir as [i r_i], jr as [j r_j]. simpl in *.
  exists i, j, r_i, r_j.
  pose proof (pair_overlap_hit eff step (seq_of r_i) (seq_of r_j) Hs) as Hit.
  simpl in Hit.
  assert (Hb : pair_overlap eff step (seq_of r_i) (seq_of r_j)
               <= Z.min (len (seq_of r_i)) (len (seq_of r_j))).
  { destruct Hit as [E|[Hr _]]; [|lia].
    rewrite E. pose proof (len_nonneg (seq_of r_i)).
    pose proof (len_nonneg (seq_of r_j)). lia. }
  repeat split; auto using in_enumerate; try lia.
  apply suffix_matches_exact; [exact Hb|].
  destruct Hit as [E|[_ M]]; auto.
Qed.

Lemma stride_pos (ws : list read) : 0 < stride ws.
Proof. unfold stride. destruct (is_long_read ws); lia. Qed.

Lemma find_overlaps_exact (m : Z) (reads : list read)
  (u v : string) (w : Z) :
  edge_weight (graph (find_overlaps (init m) reads)) (u, v) = Return w ->
  exact_overlap (working_set reads)
                (effective_min_overlap (init m) (working_set reads)) u v w.
Proof.
  unfold find_overlaps. simpl graph.
  set (ws := working_set reads).
  set (eff := effective_min_overlap (init m) ws).
  revert u v w.
  apply fold_left_invariant_in
    with (P := fun g => forall u v w, edge_weight g (u, v) = Return w ->
                                      exact_overlap ws eff u v w).
  - intros g ir Hi Hg.
    apply fold_left_invariant_in
      with (P := fun g => forall u v w, edge_weight g (u, v) = Return w ->
                                        exact_overlap ws eff u v w);
      [|exact Hg].
    intros g' jr Hj Hg'.
    apply overlap_step_exact; auto using stride_pos.
  - intros u v w H. discriminate H.
Qed.

(** C5: every edge [u -> v] of weight [w] in the graph that
    [find_overlaps] builds comes from two distinct working reads with
    these identifiers such that the last [w] characters of the first
    equal the first [w] characters of the second, and [w] is at least
    the effective minimum overlap (in short-read mode with stride 1 and
    in long-read mode after the refinement alike). *)
Theorem find_overlaps_edges_exact (m : Z) (reads : list read)
  (u v : string) (w : Z) :
  edge_weight (graph (find_overlaps (init m) reads)) (u, v) = Return w ->
  exact_overlap (working_set reads)
                (effective_min_overlap (init m) (working_set reads)) u v w.
Proof. apply find_overlaps_exact. Qed.

(** The edge of the reads AAAACCCC and CCCCGGGG, minimum overlap 4. *)
Lemma find_overlaps_edges_exact_witness :
  exact_overlap
    (working_set [("read0", "AAAACCCC", []); ("read1", "CCCCGGGG", [])])
    4 "read0" "read1" 4.
Proof.
  exact (find_overlaps_edges_exact 4
           [("read0", "AAAACCCC", []); ("read1", "CCCCGGGG", [])]
           "read0" "read1" 4 eq_refl).
Defined.


(** *** Consensus of a two-read path *)

Lemma slice_from_offset (s : string) (w : Z) :
  0 <= w <= len s -> slice s (Some w) None = from_offset w s.
Proof.
  intros Hw. unfold slice, from_offset, adjust.
  destruct (w <? 0) eqn:E; [lia|].
  replace (Z.min w (len s)) with w by lia.
  rewrite firstn_all2; [reflexivity|].
  rewrite length_skipn, length_chars. unfold len in *. lia.
Qed.

Lemma two_read_path (self : OLCAssembler) (read_dict : dict string)
  (r1 r2 s1 s2 : string) (w : Z) :
  lookup r1 read_dict = Some s1 ->
  lookup r2 read_dict = Some s2 ->
  edge_weight (graph self) (r1, r2) = Return w ->
  generate_consensus self [[r1; r2]] read_dict
  = Return [(s1 ++ slice s2 (Some (clip_overlap w (len s2))) None)%string].
Proof.
  intros H1 H2 Hw. unfold generate_consensus. simpl.
  unfold getitem at 1. rewrite H1. simpl. rewrite Hw. simpl.
  unfold getitem. rewrite H2. simpl.
  destruct read_dict; reflexivity.
Qed.

Lemma clip_overlap_bounds (w n : Z) :
  0 <= n ->
  clip_overlap w n <= n
  /\ (0 <= w -> 0 <= clip_overlap w n)
  /\ (n <= w -> clip_overlap w n = Z.max 0 (n - 1))
  /\ (w < n -> clip_overlap w n = w).
Proof.
  intros Hn. unfold clip_overlap.
  destruct (Z.geb_spec w n); repeat split; intros; lia.
Qed.

(** C7 (as the code has it): for a two-read path whose edge carries the
    weight [w], the contig is the first read followed by the second
    read from offset [w] onward when [0 <= w < len(read2)]; a weight
    that reaches the length of the second read is clipped to
    [max(0, len(read2) - 1)] first.  For the reads AAAACCCC and
    CCCCGGGG with minimum overlap 4 the edge read0 -> read1 has weight
    4, the path is [read0, read1] and the contig is AAAACCCCGGGG. *)
Theorem two_read_consensus :
  (forall (self : OLCAssembler) (read_dict : dict string)
          (r1 r2 s1 s2 : string) (w : Z),
      lookup r1 read_dict = Some s1 ->
      lookup r2 read_dict = Some s2 ->
      edge_weight (graph self) (r1, r2) = Return w ->
      (0 <= w < len s2 ->
       generate_consensus self [[r1; r2]] read_dict
       = Return [(s1 ++ from_offset w s2)%string])
      /\ (len s2 <= w ->
          generate_consensus self [[r1; r2]] read_dict
          = Return [(s1 ++ from_offset (Z.max 0 (len s2 - 1)) s2)%string]))
  /\ (let reads := [("read0", "AAAACCCC", []); ("read1", "CCCCGGGG", [])] in
      let self := find_overlaps (init 4) reads in
      edge_weight (graph self) ("read0", "read1") = Return 4
      /\ (forall pick, find_paths self pick = Return [["read0"; "read1"]])
      /\ generate_consensus self [["read0"; "read1"]] (make_read_dict reads)
         = Return ["AAAACCCCGGGG"]).
Proof.
  split.
  - intros self read_dict r1 r2 s1 s2 w H1 H2 Hw.
    rewrite (two_read_path self read_dict r1 r2 s1 s2 w H1 H2 Hw).
    pose proof (clip_overlap_bounds w (len s2) (len_nonneg s2))
      as (_ & _ & Hclip & Hkeep).
    pose proof (len_nonneg s2) as Hn.
    split; intros Hr.
    + rewrite (Hkeep ltac:(lia)), slice_from_offset by lia. reflexivity.
    + rewrite (Hclip Hr), slice_from_offset by lia. reflexivity.
  - vm_compute. split; [reflexivity|]. split; [intros pick|]; reflexivity.
Qed.

(** The two-read path of the reads AAAACCCC and CCCCGGGG. *)
Lemma two_read_consensus_witness :
  let reads := [("read0", "AAAACCCC", []); ("read1", "CCCCGGGG", [])] in
  0 <= 4 < len "CCCCGGGG"
  /\ generate_consensus (find_overlaps (init 4) reads) [["read0"; "read1"]]
                        (make_read_dict reads)
     = Return [("AAAACCCC" ++ from_offset 4 "CCCCGGGG")%string].
Proof.
  split; [vm_compute; split; [discriminate | reflexivity]|].
  apply (proj1 (proj1 two_read_consensus
                 (find_overlaps (init 4)
                    [("read0", "AAAACCCC", []); ("read1", "CCCCGGGG", [])])
                 (make_read_dict
                    [("read0", "AAAACCCC", []); ("read1", "CCCCGGGG", [])])
                 "read0" "read1" "AAAACCCC" "CCCCGGGG" 4
                 eq_refl eq_refl eq_refl)).
  vm_compute. split; [discriminate | reflexivity].
Defined.

(** C7, the claim as worded: the reads AAAACCCC and CCCC with minimum
    overlap 4 give the edge r0 -> r1 of weight 4, the whole of r1;
    the contig is r0 followed by the last character of r1, not r0
    followed by r1 from offset 4 onward (which is empty). *)
Lemma clipped_two_read_contig :
  let reads := [("r0", "AAAACCCC", []); ("r1", "CCCC", [])] in
  let self := find_overlaps (init 4) reads in
  edge_weight (graph self) ("r0", "r1") = Return 4
  /\ (forall pick, find_paths self pick = Return [["r0"; "r1"]])
  /\ generate_consensus self [["r0"; "r1"]] (make_read_dict reads)
     = Return ["AAAACCCCC"]
  /\ generate_consensus self [["r0"; "r1"]] (make_read_dict reads)
     <> Return [("AAAACCCC" ++ slice "CCCC" (Some 4) None)%string].
Proof.
  vm_compute. split; [reflexivity|]. split; [intros pick; reflexivity|].
  split; [reflexivity | discriminate].
Qed.

(** *** The offset of the consensus slice *)


Lemma consensus_of_path_first (g : DiGraph) (read_dict : dict string)
  (p0 : string) (rest : list string) :
  consensus_of_path g read_dict (p0 :: rest)
  = bind (getitem p0 read_dict) (extend_contig g read_dict p0 rest).
Proof.
  destruct rest; simpl; [|reflexivity].
  destruct (getitem p0 read_dict); reflexivity.
Qed.






(** The bound on the minimum overlap is needed: with the minimum
    overlap -1 the reads AC and CG get the edge r0 -> r1 of weight -1,
    and the offset applied to CG on the path [r0, r1] is -1. *)
Lemma consensus_offset_negative :
  let reads := [("r0", "AC", []); ("r1", "CG", [])] in
  let self := find_overlaps (init (-1)) reads in
  edge_weight (graph self) ("r0", "r1") = Return (-1)
  /\ (forall pick, find_paths self pick = Return [["r0"; "r1"]])
  /\ clip_overlap (-1) (len "CG") = -1
  /\ ~ (0 <= clip_overlap (-1) (len "CG") <= len "CG")
  /\ generate_consensus self [["r0"; "r1"]] (make_read_dict reads)
     = Return ["ACG"].
Proof.
  vm_compute. split; [reflexivity|]. split; [intros pick; reflexivity|].
  split; [reflexivity|]. split; [|reflexivity].
  intros [H _]. apply H. reflexivity.
Qed.


(** *** The path search *)

Lemma edge_eqb_eq (e1 e2 : edge) : edge_eqb e1 e2 = true <-> e1 = e2.
Proof.
  destruct e1 as [a b], e2 as [c d]. unfold edge_eqb. simpl.
  rewrite andb_true_iff, !String.eqb_eq. split.
  - intros [-> ->]. reflexivity.
  - intros H. inversion H. auto.
Qed.

Lemma emem_In (e : edge) (l : list edge) : emem e l = true <-> In e l.
Proof.
  unfold emem. rewrite existsb_exists. split.
  - intros (x & Hx & E). apply edge_eqb_eq in E. subst. exact Hx.
  - intros H. exists e. split; [exact H | apply edge_eqb_eq; reflexivity].
Qed.

Lemma emem_false (e : edge) (l : list edge) : emem e l = false <-> ~ In e l.
Proof.
  rewrite <- emem_In. destruct (emem e l); split; congruence.
Qed.

Lemma In_ediff (e : edge) (l t : list edge) :
  In e (ediff l t) <-> In e l /\ ~ In e t.
Proof.
  unfold ediff. rewrite filter_In, negb_true_iff, emem_false. tauto.
Qed.

Lemma eadd_fresh (e : edge) (l : list edge) : ~ In e l -> eadd e l = e :: l.
Proof.
  intros H. unfold eadd. apply emem_false in H. rewrite H. reflexivity.
Qed.

Lemma max_by_from_In (A : Type) (key : A -> Z) (l : list A) (best : A) :
  In (max_by_from key best l) (best :: l).
Proof.
  revert best. induction l as [|x l IH]; intros best; simpl; [auto|].
  destruct (IH (if key best <? key x then x else best)) as [E|Hin].
  - destruct (key best <? key x); rewrite <- E; auto.
  - auto.
Qed.

Lemma max_by_In (A : Type) (key : A -> Z) (l : list A) (x : A) :
  max_by key l = Some x -> In x l.
Proof.
  destruct l as [|y l]; simpl; [discriminate|].
  intros H. inversion H. apply max_by_from_In.
Qed.


Lemma out_edges_edges (g : DiGraph) (u : string) (e : edge) :
  In e (out_edges g u) -> In e (edges g) /\ fst e = u.
Proof.
  unfold out_edges, successors.
  destruct (lookup u g) as [nbrs|] eqn:E; simpl; [|tauto].
  intros H. apply in_map_iff in H. destruct H as (v & <- & Hv).
  split; [|reflexivity].
  unfold edges. apply in_flat_map. exists (u, nbrs).
  split; [apply lookup_Some_In; exact E|].
  simpl. apply in_map. exact Hv.
Qed.

Lemma pairs_from_snoc (p c v : string) (pre : list string) :
  pairs_from p (pre ++ [c; v]) = pairs_from p (pre ++ [c]) ++ [(c, v)].
Proof.
  revert p. induction pre as [|x pre IH]; intros p; simpl; [reflexivity|].
  rewrite IH. reflexivity.
Qed.

Lemma path_pairs_snoc (pre : list string) (c v : string) :
  path_pairs ((pre ++ [c]) ++ [v]) = path_pairs (pre ++ [c]) ++ [(c, v)].
Proof.
  rewrite <- app_assoc. simpl. destruct pre as [|p pre]; simpl; [reflexivity|].
  apply pairs_from_snoc.
Qed.

Lemma paths_pairs_snoc (paths : list (list string)) (path : list string) :
  paths_pairs (paths ++ [path]) = paths_pairs paths ++ path_pairs path.
Proof.
  unfold paths_pairs. rewrite flat_map_app. simpl. rewrite app_nil_r.
  reflexivity.
Qed.

Lemma path_pairs_short (path : list string) :
  (List.length path <= 1)%nat -> path_pairs path = [].
Proof.
  destruct path as [|a [|b t]]; simpl; intros H; try reflexivity. lia.
Qed.

Lemma NoDup_snoc (A : Type) (l : list A) (x : A) :
  NoDup l -> ~ In x l -> NoDup (l ++ [x]).
Proof.
  intros Hl Hx. apply NoDup_app; [exact Hl | repeat constructor; simpl; tauto|].
  intros y Hy [<-|[]]. auto.
Qed.

(** One more edge on the path under construction. *)
Lemma search_inv_extend (g : DiGraph) (paths : list (list string))
  (pre : list string) (c v : string) (visited : list edge) :
  search_inv g paths (pre ++ [c]) visited ->
  In (c, v) (edges g) -> ~ In (c, v) visited ->
  ~ In v (pre ++ [c]) ->
  search_inv g paths ((pre ++ [c]) ++ [v]) ((c, v) :: visited).
Proof.
  intros (N & I & NP & IP & W & A) He Hn Hv.
  unfold search_inv. rewrite path_pairs_snoc, app_assoc.
  repeat split.
  - constructor; assumption.
  - intros e [<-|H]; auto.
  - apply NoDup_snoc; [exact NP | intros H; apply Hn, IP, H].
  - intros e H. apply in_app_or in H. destruct H as [H|[<-|[]]].
    + right. apply IP. exact H.
    + left. reflexivity.
  - intros e H. rewrite path_pairs_snoc in H.
    apply in_app_or in H. destruct H as [H|[<-|[]]]; auto.
  - intros Ha e [<-|H]; apply in_or_app.
    + right. left. reflexivity.
    + left. apply A; assumption.
Qed.

(** The cycle guard: the edge is marked, the path is left as it is.
    In a graph without cycles the guard cannot fire. *)
Lemma search_inv_guard (g : DiGraph) (paths : list (list string))
  (pre : list string) (c v : string) (visited : list edge) :
  search_inv g paths (pre ++ [c]) visited ->
  In (c, v) (edges g) -> ~ In (c, v) visited ->
  In v (pre ++ [c]) ->
  search_inv g paths (pre ++ [c]) ((c, v) :: visited).
Proof.
  intros (N & I & NP & IP & W & A) He Hn Hv.
  repeat split; auto.
  - constructor; assumption.
  - intros e [<-|H]; auto.
  - intros e H. right. apply IP. exact H.
  - intros Ha. exfalso.
    assert (Hw : is_walk g ((pre ++ [c]) ++ [v])).
    { intros e H. rewrite path_pairs_snoc in H.
      apply in_app_or in H. destruct H as [H|[<-|[]]]; auto. }
    apply Ha in Hw. apply NoDup_remove_2 in Hw.
    rewrite app_nil_r in Hw. auto.
Qed.

Lemma visited_bound (g : DiGraph) (visited : list edge) :
  NoDup visited -> incl visited (edges g) ->
  (List.length visited <= List.length (edges g))%nat.
Proof. apply NoDup_incl_length. Qed.

Lemma greedy_loop_ok (g : DiGraph) (paths : list (list string)) (fuel : nat) :
  forall (pre : list string) (current : string) (visited : list edge),
    search_inv g paths (pre ++ [current]) visited ->
    (List.length (edges g) < List.length visited + fuel)%nat ->
    exists path' visited',
      greedy_loop fuel g current (pre ++ [current]) visited
      = Return (path', visited')
      /\ search_inv g paths path' visited'
      /\ (List.length visited <= List.length visited')%nat
      /\ (List.length (pre ++ [current]) <= List.length path')%nat.
Proof.
  induction fuel as [|fuel IH]; intros pre current visited Hinv Hf.
  - exfalso. destruct Hinv as (N & I & _).
    pose proof (visited_bound g visited N I). lia.
  - simpl.
    destruct (max_by (weight_key g) (ediff (out_edges g current) visited))
      as [next_edge|] eqn:Em.
    + apply max_by_In in Em. apply In_ediff in Em. destruct Em as [Ho Hn].
      apply out_edges_edges in Ho. destruct Ho as [He Hu].
      destruct next_edge as [u v]. simpl in Hu. subst u. simpl snd.
      rewrite (eadd_fresh _ _ Hn).
      destruct (mem v (pre ++ [current])) eqn:Mv.
      * exists (pre ++ [current]), ((current, v) :: visited).
        split; [reflexivity|]. split; [|simpl; lia].
        apply search_inv_guard; auto. apply mem_In. exact Mv.
      * apply mem_false in Mv.
        destruct (IH (pre ++ [current]) v ((current, v) :: visited))
          as (path' & visited' & E & Hinv' & Hl & Hp).
        { apply search_inv_extend; auto. }
        { simpl. lia. }
        exists path', visited'. split; [exact E|]. split; [exact Hinv'|].
        simpl in Hl. rewrite length_app in Hp. simpl in Hp. lia.
    + exists (pre ++ [current]), visited. auto.
Qed.

(** Recording the finished path, if it has an edge. *)
Lemma search_inv_close (g : DiGraph) (paths : list (list string))
  (path : list string) (visited : list edge) :
  search_inv g paths path visited ->
  search_inv g (if Z.of_nat (List.length path) >? 1
                then paths ++ [path] else paths) [] visited.
Proof.
  intros (N & I & NP & IP & W & A).
  assert (E : paths_pairs (if Z.of_nat (List.length path) >? 1
                           then paths ++ [path] else paths) ++ path_pairs []
              = paths_pairs paths ++ path_pairs path).
  { simpl. rewrite app_nil_r.
    destruct (Z.gtb_spec (Z.of_nat (List.length path)) 1) as [H|H].
    - apply paths_pairs_snoc.
    - rewrite (path_pairs_short path) by lia. rewrite app_nil_r. reflexivity. }
  unfold search_inv. rewrite E. repeat split; auto.
  intros e [].
Qed.

Lemma all_long_close (paths : list (list string)) (path : list string) :
  all_long paths ->
  all_long (if Z.of_nat (List.length path) >? 1 then paths ++ [path] else paths).
Proof.
  intros H. destruct (Z.gtb_spec (Z.of_nat (List.length path)) 1) as [Hl|Hl];
    [|exact H].
  apply Forall_app. split; [exact H|]. constructor; [lia | constructor].
Qed.

Lemma search_inv_start (g : DiGraph) (paths : list (list string))
  (start : string) (visited : list edge) :
  search_inv g paths [] visited -> search_inv g paths ([] ++ [start]) visited.
Proof.
  intros (N & I & NP & IP & W & A). repeat split; auto; intros e [].
Qed.

Lemma build_from_node_ok (g : DiGraph) (fuel : nat) (start : string)
  (paths : list (list string)) (visited : list edge) :
  search_inv g paths [] visited -> all_long paths ->
  (List.length (edges g) < fuel)%nat ->
  exists paths' visited',
    build_greedy_paths fuel g start paths visited None
    = Return (paths', visited')
    /\ search_inv g paths' [] visited' /\ all_long paths'
    /\ (List.length visited <= List.length visited')%nat.
Proof.
  intros Hinv Hlong Hf. unfold build_greedy_paths.
  destruct (greedy_loop_ok g paths fuel [] start visited)
    as (path' & visited' & E & Hinv' & Hl & _).
  { apply search_inv_start. exact Hinv. }
  { lia. }
  simpl app in E. rewrite E. simpl.
  eexists _, _. split; [reflexivity|].
  split; [apply search_inv_close; exact Hinv'|].
  split; [apply all_long_close; exact Hlong | exact Hl].
Qed.

Lemma build_from_edge_ok (g : DiGraph) (fuel : nat) (e : edge)
  (paths : list (list string)) (visited : list edge) :
  search_inv g paths [] visited -> all_long paths ->
  In e (edges g) -> ~ In e visited ->
  (List.length (edges g) < fuel)%nat ->
  exists paths' visited',
    build_greedy_paths fuel g (fst e) paths visited (Some e)
    = Return (paths', visited')
    /\ search_inv g paths' [] visited' /\ all_long paths'
    /\ (List.length visited < List.length visited')%nat.
Proof.
  intros Hinv Hlong He Hn Hf. unfold build_greedy_paths.
  rewrite String.eqb_refl, (eadd_fresh _ _ Hn).
  destruct e as [u v]. cbn [fst snd]. cbv beta iota.
  destruct (greedy_loop_ok g paths fuel [u] v ((u, v) :: visited))
    as (path' & visited' & E & Hinv' & Hl & _).
  { destruct Hinv as (N & I & NP & IP & W & A). simpl in NP, IP, A.
    rewrite app_nil_r in NP, IP, A.
    repeat split; simpl.
    - constructor; assumption.
    - intros x [<-|H]; auto.
    - apply NoDup_snoc; [exact NP | intros H; apply Hn, IP, H].
    - intros x H. apply in_app_or in H. destruct H as [H|[<-|[]]].
      + right. apply IP. exact H.
      + left. reflexivity.
    - intros x [<-|[]]. exact He.
    - intros Ha x [<-|H]; apply in_or_app.
      + right. left. reflexivity.
      + left. apply A; [exact Ha|]. exact H. }
  { simpl. lia. }
  match goal with |- context [bind ?x _] =>
    replace x with (Return (path', visited')) by (symmetry; exact E)
  end. simpl.
  eexists _, _. split; [reflexivity|].
  split; [apply search_inv_close; exact Hinv'|].
  split; [apply all_long_close; exact Hlong | simpl in Hl; lia].
Qed.

Lemma from_starts_ok (g : DiGraph) (fuel : nat) (starts : list string) :
  forall (paths : list (list string)) (visited : list edge),
    search_inv g paths [] visited -> all_long paths ->
    (List.length (edges g) < fuel)%nat ->
    exists paths' visited',
      from_starts fuel g starts paths visited = Return (paths', visited')
      /\ search_inv g paths' [] visited' /\ all_long paths'.
Proof.
  induction starts as [|start starts IH]; intros paths visited Hinv Hlong Hf;
    simpl.
  - eexists _, _. split; [reflexivity | auto].
  - destruct (build_from_node_ok g fuel start paths visited Hinv Hlong Hf)
      as (paths1 & visited1 & E & Hinv1 & Hlong1 & _).
    rewrite E. simpl. apply IH; assumption.
Qed.

Lemma leftover_loop_ok (g : DiGraph) (pick : list edge -> nat)
  (inner : nat) (fuel : nat) :
  forall (paths : list (list string)) (visited : list edge),
    search_inv g paths [] visited -> all_long paths ->
    (List.length (edges g) < inner)%nat ->
    (List.length (edges g) < List.length visited + fuel)%nat ->
    exists paths' visited',
      leftover_loop fuel inner g pick (edges g) paths visited = Return paths'
      /\ search_inv g paths' [] visited' /\ all_long paths'
      /\ incl (edges g) visited'.
Proof.
  induction fuel as [|fuel IH]; intros paths visited Hinv Hlong Hi Hf.
  - exfalso. destruct Hinv as (N & I & _).
    pose proof (visited_bound g visited N I). lia.
  - simpl.
    destruct (ediff (edges g) visited) as [|e0 rest] eqn:Ed.
    + exists paths, visited. split; [reflexivity|]. split; [exact Hinv|].
      split; [exact Hlong|].
      intros e He. destruct (emem e visited) eqn:M; [apply emem_In; exact M|].
      exfalso. apply emem_false in M.
      assert (H : In e (ediff (edges g) visited)) by (apply In_ediff; auto).
      rewrite Ed in H. destruct H.
    + set (e := nth (Nat.modulo (pick (e0 :: rest)) (List.length (e0 :: rest)))
                    (e0 :: rest) e0).
      assert (He : In e (ediff (edges g) visited)).
      { rewrite Ed. apply nth_In. apply Nat.mod_upper_bound. simpl. lia. }
      apply In_ediff in He. destruct He as [He Hn].
      destruct (build_from_edge_ok g inner e paths visited Hinv Hlong He Hn Hi)
        as (paths1 & visited1 & E & Hinv1 & Hlong1 & Hl).
      match goal with |- context [bind ?x _] =>
        replace x with (Return (paths1, visited1)) by (symmetry; exact E)
      end.
      simpl. apply IH; auto. lia.
Qed.


Lemma search_inv_init (g : DiGraph) : search_inv g [] [] [].
Proof.
  unfold search_inv. simpl.
  split; [constructor|]. split; [intros e []|]. split; [constructor|].
  split; [intros e []|]. split; [intros e [] | intros _ e []].
Qed.

(** *** Every edge is emitted or stopped at by the cycle guard *)









(** Graphs built by [add_edge] are well formed. *)
Lemma NoDup_keys_set_item (V : Type) (a : string) (v : V) (d : dict V) :
  NoDup (keys d) -> NoDup (keys (set_item a v d)).
Proof.
  intros H. rewrite keys_set_item. destruct (lookup a d) eqn:E; [exact H|].
  apply NoDup_snoc; [exact H | apply lookup_None_keys; exact E].
Qed.

Lemma add_node_well_formed (n : string) (g : DiGraph) :
  well_formed g -> well_formed (add_node n g).
Proof.
  intros [Hk Hn]. unfold add_node. destruct (lookup n g) eqn:E; [split; auto|].
  split.
  - unfold keys. rewrite map_app. simpl.
    apply NoDup_snoc; [exact Hk | apply lookup_None_keys; exact E].
  - intros n' nb H. apply in_app_or in H. destruct H as [H|[H|[]]].
    + eapply Hn; eassumption.
    + inversion H. constructor.
Qed.

Lemma add_edge_well_formed (u v : string) (w : Z) (g : DiGraph) :
  well_formed g -> well_formed (add_edge u v w g).
Proof.
  intros H. unfold add_edge.
  pose proof (add_node_well_formed v _ (add_node_well_formed u g H)) as [Hk Hn].
  destruct (lookup u (add_node v (add_node u g))) as [nbrs|] eqn:E;
    [|split; assumption].
  split.
  - apply NoDup_keys_set_item. exact Hk.
  - intros n nb Hin. apply In_set_item in Hin.
    destruct Hin as [[-> ->]|Hin]; [|eapply Hn; eassumption].
    apply NoDup_keys_set_item. apply (Hn u nbrs).
    apply lookup_Some_In. exact E.
Qed.

Lemma find_overlaps_well_formed (m : Z) (reads : list read) :
  well_formed (graph (find_overlaps (init m) reads)).
Proof.
  unfold find_overlaps. simpl graph.
  apply fold_left_invariant.
  - intros g ir Hg. apply fold_left_invariant; [|exact Hg].
    intros g' jr Hg'. unfold overlap_step.
    destruct (Nat.eqb _ _); [exact Hg'|].
    destruct (_ >=? _); [apply add_edge_well_formed; exact Hg' | exact Hg'].
  - split; [constructor | intros n nb []].
Qed.




(** *** A minimum overlap that is not positive *)

Lemma lookup_add_node_same (n : string) (g : DiGraph) :
  exists nbrs, lookup n (add_node n g) = Some nbrs.
Proof.
  rewrite lookup_add_node, String.eqb_refl.
  destruct (lookup n g); eauto.
Qed.

Lemma lookup_add_node_keeps (u n : string) (nb : dict Z) (g : DiGraph) :
  lookup u g = Some nb -> lookup u (add_node n g) = Some nb.
Proof. intros H. rewrite lookup_add_node, H. reflexivity. Qed.

Lemma edge_weight_add_edge_same (a b : string) (w : Z) (g : DiGraph) :
  edge_weight (add_edge a b w g) (a, b) = Return w.
Proof.
  unfold edge_weight, add_edge, getitem. simpl.
  destruct (lookup_add_node_same a g) as (n0 & E0).
  rewrite (lookup_add_node_keeps a b n0 _ E0).
  rewrite lookup_set_item, String.eqb_refl. simpl.
  rewrite lookup_set_item, String.eqb_refl. reflexivity.
Qed.

Lemma has_edge_add_edge (a b u v : string) (w0 : Z) (g : DiGraph) :
  has_edge g u v -> has_edge (add_edge a b w0 g) u v.
Proof.
  intros (w & H). unfold has_edge, edge_weight, getitem in *. simpl in *.
  destruct (lookup u g) as [nb|] eqn:Eu; simpl in H; [|discriminate].
  destruct (lookup v nb) as [w1|] eqn:Ev; [|discriminate].
  unfold add_edge.
  pose proof (lookup_add_node_keeps u b nb _ (lookup_add_node_keeps u a nb g Eu))
    as Eu2.
  destruct (lookup_add_node_same a g) as (n0 & E0).
  rewrite (lookup_add_node_keeps a b n0 _ E0).
  rewrite lookup_set_item.
  destruct (String.eqb_spec u a) as [->|Hu]; simpl.
  - rewrite lookup_set_item.
    destruct (String.eqb_spec v b) as [->|Hv]; [eauto|].
    pose proof (lookup_add_node_keeps a b n0 _ E0) as E0'.
    rewrite Eu2 in E0'. inversion E0'; subst. rewrite Ev. eauto.
  - rewrite Eu2. simpl. rewrite Ev. eauto.
Qed.

Lemma nth_error_enumerate (A : Type) (l : list A) (i : nat) (x : A) :
  nth_error l i = Some x -> In (i, x) (enumerate l).
Proof.
  unfold enumerate.
  assert (H : forall s i, nth_error l i = Some x ->
                In ((s + i)%nat, x) (combine (seq s (List.length l)) l)).
  { induction l as [|y l IH]; intros s' [|i']; simpl; try discriminate.
    - intros E. inversion E. left. rewrite Nat.add_0_r. reflexivity.
    - intros E. right. replace (s' + S i')%nat with (S s' + i')%nat by lia.
      apply IH. exact E. }
  intros Hn. exact (H 0%nat i Hn).
Qed.

Lemma overlap_step_keeps (eff step : Z) (ir jr : nat * read) (g : DiGraph)
  (u v : string) :
  has_edge g u v -> has_edge (overlap_step eff step ir g jr) u v.
Proof.
  intros H. unfold overlap_step.
  destruct (Nat.eqb _ _); [exact H|].
  destruct (_ >=? _); [apply has_edge_add_edge; exact H | exact H].
Qed.

Lemma overlap_step_adds (eff step : Z) (ir jr : nat * read) (g : DiGraph) :
  0 < step -> eff <= 0 -> fst ir <> fst jr ->
  has_edge (overlap_step eff step ir g jr)
           (header_of (snd ir)) (header_of (snd jr)).
Proof.
  intros Hs He Hne. unfold overlap_step.
  destruct (Nat.eqb_spec (fst ir) (fst jr)) as [E|_]; [contradiction|].
  pose proof (pair_overlap_hit eff step (seq_of (snd ir)) (seq_of (snd jr)) Hs)
    as Hit. simpl in Hit.
  destruct (Z.geb_spec (pair_overlap eff step (seq_of (snd ir)) (seq_of (snd jr)))
                       eff) as [_|Hlt].
  - eexists. apply edge_weight_add_edge_same.
  - exfalso. destruct Hit as [E|[Hr _]]; lia.
Qed.

Lemma fold_left_establishes (A B : Type) (Q : B -> A -> Prop)
  (f : A -> B -> A) (l : list B) :
  (forall s x, In x l -> Q x (f s x)) ->
  (forall s x y, Q x s -> Q x (f s y)) ->
  forall a x, In x l -> Q x (fold_left f l a).
Proof.
  intros Hest Hkeep. induction l as [|y l IH]; intros a x Hx; [destruct Hx|].
  simpl. destruct Hx as [->|Hx].
  - apply fold_left_invariant; [intros; apply Hkeep; assumption|].
    apply Hest. left. reflexivity.
  - apply IH; [intros; apply Hest; right; assumption | exact Hx].
Qed.

(** With a minimum overlap that is not positive every ordered pair of
    distinct working reads gets an edge. *)
Lemma find_overlaps_nonpositive (m : Z) (reads : list read)
  (i j : nat) (r_i r_j : read) :
  m <= 0 -> i <> j ->
  nth_error (working_set reads) i = Some r_i ->
  nth_error (working_set reads) j = Some r_j ->
  has_edge (graph (find_overlaps (init m) reads))
           (header_of r_i) (header_of r_j).
Proof.
  intros Hm Hne Hi Hj. unfold find_overlaps. simpl graph.
  set (ws := working_set reads).
  set (eff := effective_min_overlap (init m) ws).
  assert (He : eff <= 0).
  { unfold eff, effective_min_overlap. simpl.
    destruct (is_long_read ws); lia. }
  apply nth_error_enumerate in Hi. apply nth_error_enumerate in Hj.
  fold ws in Hi, Hj.
  pose proof (fold_left_establishes _ _
           (fun ir g => forall jr, In jr (enumerate ws) -> fst ir <> fst jr ->
                          has_edge g (header_of (snd ir)) (header_of (snd jr)))
           (fun g ir => fold_left (overlap_step eff (stride ws) ir)
                                  (enumerate ws) g)
           (enumerate ws)) as Houter.
  apply (Houter) with (x := (i, r_i)) (jr := (j, r_j)); auto.
  - intros g ir _ jr Hjr Hd. revert Hd.
    pose proof (fold_left_establishes _ _
             (fun jr g => fst ir <> fst jr ->
                          has_edge g (header_of (snd ir)) (header_of (snd jr)))
             (overlap_step eff (stride ws) ir) (enumerate ws)) as Hinner.
    apply Hinner; auto.
    + intros s x _ Hd. apply overlap_step_adds; auto using stride_pos.
    + intros s x y H Hd. apply overlap_step_keeps. auto.
  - intros g ir ir' H jr Hjr Hd.
    apply fold_left_invariant; [|auto].
    intros g' jr'. apply overlap_step_keeps.
Qed.

End OLCFacts.

(* ================================================================== *)
(** ** Configuration and empty input *)
(* ================================================================== *)

Module Pipeline.
Import DBGProps DBGFacts.

Lemma slice_empty_window (s : string) (i : Z) :
  slice s (Some i) (Some (i + 0)) = "".
Proof.
  unfold slice. rewrite Z.add_0_r, Z.sub_diag. reflexivity.
Qed.

Lemma add_read_k0 (self : DBG.DBGAssembler) (r : read) :
  self = DBG.init 0 \/ self = loop_on_empty ->
  DBG.add_read self r = loop_on_empty.
Proof.
  intros Hs. destruct r as [[h seq] q]. unfold DBG.add_read.
  assert (Ek : DBG.k self = 0) by (destruct Hs; subst; reflexivity).
  rewrite Ek.
  destruct (Z.ltb_spec (len seq) 0) as [H|_];
    [pose proof (len_nonneg seq); lia|].
  unfold range, range3.
  replace ((len seq - 0 + 1 - 0 + 1 - 1) / 1) with (len seq + 1)
    by (rewrite Z.div_1_r; lia).
  replace (Z.to_nat (len seq + 1)) with (S (String.length seq))
    by (unfold len; lia).
  assert (Hfold : forall l s0,
             s0 = DBG.init 0 \/ s0 = loop_on_empty ->
             l <> [] \/ s0 = loop_on_empty ->
             fold_left (DBG.add_window seq) l s0 = loop_on_empty).
  { induction l as [|i l IH]; intros s0 H0 Hl; simpl.
    - destruct Hl as [Hl|Hl]; [congruence | exact Hl].
    - apply IH; [right | right].
      all: unfold DBG.add_window;
        destruct H0; subst; simpl DBG.k; rewrite slice_empty_window;
        reflexivity. }
  apply Hfold; [exact Hs | left; discriminate].
Qed.

(** C2 (as the code has it): neither constructor checks its parameter.
    For every integer, zero and negative ones included, it stores the
    parameter with an empty graph, and graph construction then runs as
    for any other value: with [k = 0] every non-empty list of reads
    yields the graph whose single node is the empty string with an
    edge to itself, and with [min_overlap <= 0] every ordered pair of
    distinct working reads gets an overlap edge. *)
Theorem constructors_accept_any_parameter :
  (forall k0 : Z, DBG.init k0 = DBG.mkDBG k0 [] [] [])
  /\ (forall m : Z, OLC.init m = OLC.mkOLC m [])
  /\ (forall reads : list read,
         reads <> [] ->
         DBG.build_graph (DBG.init 0) reads = loop_on_empty)
  /\ (forall (m : Z) (reads : list read) (i j : nat) (r_i r_j : read),
         m <= 0 -> i <> j ->
         nth_error (OLC.working_set reads) i = Some r_i ->
         nth_error (OLC.working_set reads) j = Some r_j ->
         OLCProps.has_edge (OLC.graph (OLC.find_overlaps (OLC.init m) reads))
                           (OLC.header_of r_i) (OLC.header_of r_j)).
Proof.
  split; [reflexivity|]. split; [reflexivity|]. split.
  - intros reads Hne. unfold DBG.build_graph.
    destruct reads as [|r reads]; [congruence|]. simpl.
    rewrite (add_read_k0 (DBG.init 0) r (or_introl eq_refl)). clear Hne.
    induction reads as [|r' reads IH]; simpl; [reflexivity|].
    rewrite (add_read_k0 loop_on_empty r' (or_intror eq_refl)). exact IH.
  - exact OLCFacts.find_overlaps_nonpositive.
Qed.

(** The graph built from one read with [k = 0], and the edge that two
    reads without any common character get with [min_overlap = 0]. *)
Lemma constructors_accept_any_parameter_witness :
  ([("r0", "ACGT", @nil Z)] <> []
   /\ DBG.build_graph (DBG.init 0) [("r0", "ACGT", [])] = loop_on_empty)
  /\ (0 <= 0 /\ 0%nat <> 1%nat
      /\ OLCProps.has_edge
           (OLC.graph (OLC.find_overlaps (OLC.init 0)
                         [("r0", "AAAA", []); ("r1", "CCCC", [])]))
           "r0" "r1").
Proof.
  split; split.
  - discriminate.
  - apply (proj1 (proj2 (proj2 constructors_accept_any_parameter))).
    discriminate.
  - lia.
  - split; [discriminate|].
    apply (proj2 (proj2 (proj2 constructors_accept_any_parameter)) 0
             [("r0", "AAAA", []); ("r1", "CCCC", [])] 0%nat 1%nat
             ("r0", "AAAA", []) ("r1", "CCCC", [])).
    + lia.
    + discriminate.
    + reflexivity.
    + reflexivity.
Defined.

(** C2, the claim as worded: with [k = 0] and with [min_overlap = 0]
    no error is raised; both assemblers build a graph and return
    contigs. *)
Lemma no_configuration_error :
  DBG.graph (DBG.build_graph (DBG.init 0) [("r0", "ACGT", [])]) = [("", [""])]
  /\ fst (DBG.find_contigs (DBG.build_graph (DBG.init 0) [("r0", "ACGT", [])]))
     = Return [""]
  /\ OLC.graph (OLC.find_overlaps (OLC.init 0)
                  [("r0", "AAAACCCC", []); ("r1", "CCCC", [])])
     = [("r0", [("r1", 1)]); ("r1", [("r0", 0)])]
  /\ (forall pick,
         fst (OLC.assemble (OLC.init 0) pick
                [("r0", "AAAACCCC", []); ("r1", "CCCC", [])])
         = Return ["AAAACCCCCCC"]).
Proof.
  vm_compute. split; [reflexivity|]. split; [reflexivity|].
  split; [reflexivity | intros pick; reflexivity].
Qed.

(** C8: on zero reads both pipelines return an empty list of contigs,
    for every parameter, and no stage raises: the de Bruijn graph stays
    empty and its export is the header line alone; the overlap graph
    stays empty, no path is found and the consensus stage has nothing
    to fall back on. *)
Theorem empty_input_gives_no_contigs (k0 m : Z) (pick : list OLC.edge -> nat) :
  DBG.graph (DBG.build_graph (DBG.init k0) []) = []
  /\ fst (DBG.find_contigs (DBG.build_graph (DBG.init k0) [])) = Return []
  /\ fst (dbg_assemble (DBG.init k0) []) = Return ([], [GFA.header_line])
  /\ OLC.graph (OLC.find_overlaps (OLC.init m) []) = []
  /\ OLC.find_paths (OLC.find_overlaps (OLC.init m) []) pick = Return []
  /\ OLC.generate_consensus (OLC.find_overlaps (OLC.init m) []) []
       (OLC.make_read_dict []) = Return []
  /\ fst (OLC.assemble (OLC.init m) pick []) = Return [].
Proof.
  repeat split; reflexivity.
Qed.

End Pipeline.

(* ================================================================== *)
(** ** More about the de Bruijn graph assembler *)
(* ================================================================== *)

Module DBGMore.
Import DBG DBGProps DBGFacts MoreProps.

Lemma In_lookup_nodup (V : Type) (a : string) (v : V) (d : dict V) :
  NoDup (keys d) -> In (a, v) d -> lookup a d = Some v.
Proof.
  induction d as [|[k0 v0] d IH]; simpl; intros Hn Hin; [destruct Hin|].
  inversion Hn as [|? ? Hnot Hn']; subst.
  destruct Hin as [E|Hin].
  - inversion E; subst. rewrite String.eqb_refl. reflexivity.
  - destruct (String.eqb_spec a k0) as [->|Ha]; [|auto].
    exfalso. apply Hnot. unfold keys. apply in_map_iff.
    exists (k0, v). auto.
Qed.

(** *** Edges come from the reads *)

Lemma add_kmer_edges (k0 : Z) (reads : list read) (self : DBGAssembler)
  (kmer : string) :
  window_of k0 reads kmer ->
  edges_from_reads k0 reads (graph self) ->
  edges_from_reads k0 reads (graph (add_kmer self kmer)).
Proof.
  intros Hw Hinv p l s Hin Hs.
  destruct (add_kmer_graph self kmer) as (_ & l' & Eg & Hl).
  simpl in Eg, Hl. rewrite Eg in Hin. apply In_set_item in Hin.
  destruct Hin as [[-> ->]|Hin]; [|eapply Hinv; eassumption].
  destruct (lookup _ (graph self)) as [old|] eqn:E.
  - apply lookup_Some_In in E.
    destruct Hl as [->|(-> & _)]; [eapply Hinv; eassumption|].
    apply in_app_or in Hs. destruct Hs as [Hs|[<-|[]]].
    + eapply Hinv; eassumption.
    + exists kmer. auto.
  - subst l'. destruct Hs as [<-|[]]. exists kmer. auto.
Qed.

Lemma add_read_edges (k0 : Z) (reads : list read) (self : DBGAssembler)
  (r : read) :
  In r reads ->
  k self = k0 /\ edges_from_reads k0 reads (graph self) ->
  k (add_read self r) = k0
  /\ edges_from_reads k0 reads (graph (add_read self r)).
Proof.
  intros Hr H. destruct r as [[h seq] q]. unfold add_read.
  destruct (Z.ltb_spec (len seq) (k self)) as [Hlt|Hge]; [exact H|].
  destruct H as [Ek H]. rewrite Ek in *.
  apply fold_left_invariant_in
    with (P := fun s => k s = k0 /\ edges_from_reads k0 reads (graph s));
    [|auto].
  intros x i Hi [Ex Hx]. apply in_range in Hi.
  split; [rewrite add_window_k; exact Ex|].
  unfold add_window. rewrite Ex.
  destruct (has_non_acgt _) eqn:Hc; [exact Hx|].
  apply add_kmer_edges; [|exact Hx].
  exists (h, seq, q), i. simpl. auto.
Qed.

Lemma build_graph_edges_from_reads_aux (k0 : Z) (reads : list read) :
  edges_from_reads k0 reads (graph (build_graph (init k0) reads)).
Proof.
  unfold build_graph.
  apply (fold_left_invariant_in _ _
           (fun s => k s = k0 /\ edges_from_reads k0 reads (graph s))).
  - intros x r Hr Hx. apply add_read_edges; assumption.
  - split; [reflexivity|]. intros p l s [].
Qed.

(** Every edge of the graph that [build_graph] builds from a fresh
    assembler is the prefix and the suffix of a window of length [k] of
    some read, a window without characters other than A, C, G, T. *)
Theorem build_graph_edges_from_reads (k0 : Z) (reads : list read) :
  edges_from_reads k0 reads (graph (build_graph (init k0) reads)).
Proof. apply build_graph_edges_from_reads_aux. Qed.

(** *** Nodes are made of A, C, G, T *)

Lemma existsb_firstn (A : Type) (f : A -> bool) (n : nat) (l : list A) :
  existsb f l = false -> existsb f (firstn n l) = false.
Proof.
  revert n. induction l as [|x l IH]; intros [|n]; simpl; auto.
  intros H. apply orb_false_iff in H. destruct H as [-> H]. simpl. auto.
Qed.

Lemma existsb_skipn (A : Type) (f : A -> bool) (n : nat) (l : list A) :
  existsb f l = false -> existsb f (skipn n l) = false.
Proof.
  revert n. induction l as [|x l IH]; intros [|n]; simpl; auto.
  intros H. apply orb_false_iff in H. destruct H as [_ H]. auto.
Qed.

Lemma slice_acgt (s : string) (lo hi : option Z) :
  has_non_acgt s = false -> has_non_acgt (slice s lo hi) = false.
Proof.
  unfold has_non_acgt, slice, str, chars. intros H.
  rewrite list_ascii_of_string_of_list_ascii.
  apply existsb_firstn, existsb_skipn, H.
Qed.

Lemma add_kmer_acgt (self : DBGAssembler) (kmer : string) :
  has_non_acgt kmer = false ->
  (forall n, In n (all_nodes (graph self)) -> has_non_acgt n = false) ->
  forall n, In n (all_nodes (graph (add_kmer self kmer))) ->
            has_non_acgt n = false.
Proof.
  intros Hk Hinv n Hn.
  destruct (add_kmer_graph self kmer) as (_ & l & Eg & Hl).
  simpl in Eg, Hl. rewrite Eg in Hn. apply all_nodes_set_item in Hn.
  destruct Hn as [<-|Hn]; [apply slice_acgt; exact Hk|].
  apply in_app_or in Hn. destruct Hn as [Hn|Hn]; [|auto].
  destruct (lookup _ (graph self)) as [old|] eqn:E.
  - assert (Hold : forall x, In x old -> has_non_acgt x = false).
    { intros x Hx. apply Hinv.
      apply (lookup_all_nodes _ old _ E). right. exact Hx. }
    destruct Hl as [->|(-> & _)]; [auto|].
    apply in_app_or in Hn. destruct Hn as [Hn|[<-|[]]]; [auto|].
    apply slice_acgt; exact Hk.
  - subst l. destruct Hn as [<-|[]]. apply slice_acgt; exact Hk.
Qed.

(** Characters other than A, C, G, T never reach the graph: every
    node that [build_graph] creates, key or successor, consists of
    these four characters only, whatever the reads contain. *)
Theorem build_graph_nodes_acgt (k0 : Z) (reads : list read) (n : string) :
  In n (all_nodes (graph (build_graph (init k0) reads))) ->
  has_non_acgt n = false.
Proof.
  revert n. unfold build_graph.
  apply (fold_left_invariant _ _
           (fun s => forall n, In n (all_nodes (graph s)) ->
                               has_non_acgt n = false)).
  - intros x [[h seq] q] Hx. unfold add_read.
    destruct (len seq <? k x); [exact Hx|].
    apply fold_left_invariant; [|exact Hx].
    intros y i Hy. unfold add_window.
    destruct (has_non_acgt _) eqn:Hc; [exact Hy|].
    apply add_kmer_acgt; assumption.
  - intros n [].
Qed.

(** The reads ACNGT and TTAG with [k = 3]: only the window TTA and TAG
    are free of N. *)
Lemma build_graph_nodes_acgt_witness :
  In "TA" (all_nodes (graph (build_graph (init 3)
                               [("r0", "ACNGT", []); ("r1", "TTAG", [])])))
  /\ has_non_acgt "TA" = false.
Proof.
  assert (H : In "TA" (all_nodes (graph (build_graph (init 3)
                        [("r0", "ACNGT", []); ("r1", "TTAG", [])])))).
  { vm_compute. tauto. }
  split; [exact H|].
  exact (build_graph_nodes_acgt 3 [("r0", "ACNGT", []); ("r1", "TTAG", [])]
           "TA" H).
Defined.

(** *** One edge per pair, for every [k] *)

(** [build_graph] never repeats a key and never puts a successor twice
    into an adjacency list, for every [k] and every list of reads, on
    any assembler whose graph has that property (a fresh one has). *)
Theorem build_graph_simple (self : DBGAssembler) (reads : list read) :
  simple_graph (graph self) -> simple_graph (graph (build_graph self reads)).
Proof.
  intros H. unfold build_graph.
  apply (fold_left_invariant _ _ (fun s => simple_graph (graph s))); [|exact H].
  intros x [[h seq] q] Hx. unfold add_read.
  destruct (len seq <? k x); [exact Hx|].
  apply (fold_left_invariant _ _ (fun s => simple_graph (graph s))); [|exact Hx].
  intros y i Hy. unfold add_window.
  destruct (has_non_acgt _); [exact Hy | apply add_kmer_simple; exact Hy].
Qed.

(** A fresh assembler with [k = -1] and the same read twice. *)
Lemma build_graph_simple_witness :
  simple_graph (graph (build_graph (init (-1))
                         [("r0", "ACGT", []); ("r1", "ACGT", [])])).
Proof.
  apply (build_graph_simple (init (-1))).
  split; [constructor | intros n l []].
Defined.

(** *** Contigs are at least [k] long *)

Lemma walk_k (fuel : nat) (self : DBGAssembler) (visited path : list string)
  (current : string) :
  k (snd (walk fuel self visited path current)) = k self.
Proof. apply walk_frame. Qed.

Lemma extract_from_long (k0 : Z) (fuel : nat)
  (st : outcome (list string * list string) * DBGAssembler) (start : string) :
  contigs_long k0 st -> contigs_long k0 (extract_from fuel st start).
Proof.
  unfold contigs_long.
  intros [Hk Hc]. destruct st as [[[contigs visited]|e|] self];
    simpl in *; try (split; [exact Hk | intros; discriminate]).
  destruct (mem start visited); [split; [exact Hk | exact Hc]|].
  pose proof (walk_k fuel self visited [start] start) as Wk.
  destruct (walk fuel self visited [start] start)
    as [[[path visited1]|e|] self1]; simpl in *;
    try (split; [congruence | intros; discriminate]).
  split; [congruence|].
  intros cs vs E. inversion E; subst. clear E.
  specialize (Hc contigs visited eq_refl).
  destruct (Z.geb_spec (len (hd "" path ++ join (tl path))) (k self));
    [|exact Hc].
  apply Forall_app. split; [exact Hc|]. constructor; [lia | constructor].
Qed.

(** Every contig that [find_contigs] returns has at least [k]
    characters, on any assembler state. *)
Theorem find_contigs_min_length (self : DBGAssembler)
  (contigs : list string) (c : string) :
  fst (find_contigs self) = Return contigs -> In c contigs ->
  k self <= len c.
Proof.
  unfold find_contigs.
  pose proof (select_start_loop_reads (keys (graph self)) [] self) as R1.
  destruct (fold_left select_start (keys (graph self)) ([], self))
    as [start_nodes self1]. simpl in R1.
  assert (H2 : exists sn2 self2,
             match start_nodes with
             | [] => first_with_out_edge (keys (graph self1)) self1
             | _ :: _ => (start_nodes, self1)
             end = (sn2, self2) /\ k self2 = k self).
  { destruct R1 as (K1 & _). destruct start_nodes as [|s0 rest].
    - pose proof (first_with_out_edge_reads (keys (graph self1)) self1) as R.
      destruct (first_with_out_edge (keys (graph self1)) self1) as [a b].
      exists a, b. split; [reflexivity|]. destruct R as (K & _).
      simpl in K. congruence.
    - exists (s0 :: rest), self1. auto. }
  destruct H2 as (sn2 & self2 & -> & K2).
  assert (L : contigs_long (k self)
                (fold_left (extract_from (S (List.length (all_nodes (graph self2)))))
                           sn2 (Return ([], []), self2))).
  { apply fold_left_invariant.
    - intros x y. apply extract_from_long.
    - split; [exact K2|]. intros cs vs E. inversion E. constructor. }
  destruct (fold_left _ sn2 (Return ([], []), self2)) as [res self3].
  destruct L as [_ L]. simpl in *.
  destruct res as [[cs vs]|e|]; intros E Hin; try discriminate.
  inversion E; subst.
  specialize (L contigs vs eq_refl). rewrite Forall_forall in L. auto.
Qed.

(** The contig of the reads ACGTAC, GTACTG, ACTGAA with [k = 4]. *)
Lemma find_contigs_min_length_witness : 4 <= len "ACGTACTGAA".
Proof.
  apply (find_contigs_min_length
           (build_graph (init 4)
              [("r0", "ACGTAC", []); ("r1", "GTACTG", []);
               ("r2", "ACTGAA", [])])
           ["ACGTACTGAA"] "ACGTACTGAA").
  - reflexivity.
  - left. reflexivity.
Defined.

(** *** [find_contigs] returns on every built graph *)

Lemma len_zero_empty (s : string) : len s = 0 -> s = "".
Proof. destruct s; unfold len; simpl; [reflexivity | lia]. Qed.

Lemma suffix_empty_prefix_empty (kmer : string) :
  slice kmer (Some 1) None = "" -> slice kmer None (Some (-1)) = "".
Proof.
  intros H. apply len_zero_empty.
  assert (L : len (slice kmer (Some 1) None) = 0) by (rewrite H; reflexivity).
  rewrite len_slice_from in L. rewrite len_slice_to.
  pose proof (len_nonneg kmer). unfold adjust in *.
  change (1 <? 0) with false in L. change (-1 <? 0) with true.
  cbv iota in *. lia.
Qed.

Lemma add_kmer_empty_after_empty (self : DBGAssembler) (kmer : string) :
  empty_after_empty (graph self) ->
  empty_after_empty (graph (add_kmer self kmer)).
Proof.
  intros Hinv p l Hin He.
  destruct (add_kmer_graph self kmer) as (_ & l' & Eg & Hl).
  simpl in Eg, Hl. rewrite Eg in Hin. apply In_set_item in Hin.
  destruct Hin as [[-> ->]|Hin]; [|eapply Hinv; eassumption].
  destruct (lookup _ (graph self)) as [old|] eqn:E.
  - apply lookup_Some_In in E.
    destruct Hl as [->|(-> & _)]; [eapply Hinv; eassumption|].
    apply in_app_or in He. destruct He as [He|[He|[]]].
    + eapply Hinv; eassumption.
    + apply suffix_empty_prefix_empty. exact He.
  - subst l'. destruct He as [He|[]].
    apply suffix_empty_prefix_empty. exact He.
Qed.

Lemma build_graph_empty_after_empty (k0 : Z) (reads : list read) :
  empty_after_empty (graph (build_graph (init k0) reads)).
Proof.
  unfold build_graph.
  apply (fold_left_invariant _ _ (fun s => empty_after_empty (graph s))).
  - intros x [[h seq] q] Hx. unfold add_read.
    destruct (len seq <? k x); [exact Hx|].
    apply (fold_left_invariant _ _ (fun s => empty_after_empty (graph s)));
      [|exact Hx].
    intros y i Hy. unfold add_window.
    destruct (has_non_acgt _); [exact Hy|].
    apply add_kmer_empty_after_empty. exact Hy.
  - intros p l [].
Qed.

Lemma last_char_nonempty (s : string) :
  s <> "" -> exists c, last_char s = Some c.
Proof.
  intros H. unfold last_char, chars.
  destruct s as [|a s']; [congruence|]. simpl.
  destruct (rev (list_ascii_of_string s') ++ [a]) as [|c t] eqn:E.
  - apply app_eq_nil in E. destruct E as [_ E]. discriminate.
  - eauto.
Qed.

Lemma empty_after_empty_dd (key : string) (g : dict (list string)) :
  empty_after_empty g -> empty_after_empty (snd (dd_getitem [] key g)).
Proof.
  intros H. unfold dd_getitem. destruct (lookup key g); simpl; [exact H|].
  intros p l Hin He. apply in_app_or in Hin. destruct Hin as [Hin|[E|[]]].
  - eapply H; eassumption.
  - inversion E; subst. destruct He.
Qed.

Lemma walk_no_raise (fuel : nat) (self : DBGAssembler)
  (visited path : list string) (current : string) :
  empty_after_empty (graph self) ->
  (forall e, fst (walk fuel self visited path current) <> Raise e)
  /\ empty_after_empty (graph (snd (walk fuel self visited path current))).
Proof.
  revert self visited path current.
  induction fuel as [|fuel IH]; intros self visited path current Hinv; simpl.
  - split; [discriminate | exact Hinv].
  - pose proof (empty_after_empty_dd current (graph self) Hinv) as Hg1.
    destruct (dd_getitem [] current (graph self)) as [next_nodes g1] eqn:Eg.
    simpl in Hg1.
    destruct next_nodes as [|next_node [|y t]]; simpl;
      try (split; [discriminate | exact Hg1]).
    destruct (dd_getitem 0 next_node (in_degree self)) as [d in1].
    destruct (d =? 1); simpl; [|split; [discriminate | exact Hg1]].
    destruct (mem next_node (set_add current visited)) eqn:Mn; simpl;
      [split; [discriminate | exact Hg1]|].
    assert (Hne : next_node <> "").
    { intros ->. unfold dd_getitem in Eg.
      destruct (lookup current (graph self)) as [l|] eqn:El;
        inversion Eg; subst.
      apply lookup_Some_In in El.
      assert (current = "") by (eapply Hinv; [exact El | left; reflexivity]).
      subst current. apply mem_false in Mn. apply Mn.
      unfold set_add. destruct (mem "" visited) eqn:M.
      - apply mem_In. exact M.
      - left. reflexivity. }
    destruct (last_char_nonempty next_node Hne) as (c & ->).
    apply IH. exact Hg1.
Qed.

Lemma extract_from_no_raise (fuel : nat)
  (st : outcome (list string * list string) * DBGAssembler) (start : string) :
  (forall e, fst st <> Raise e) /\ empty_after_empty (graph (snd st)) ->
  (forall e, fst (extract_from fuel st start) <> Raise e)
  /\ empty_after_empty (graph (snd (extract_from fuel st start))).
Proof.
  intros [Hr Hinv]. destruct st as [[[contigs visited]|e|] self];
    simpl in *; try (split; [discriminate | exact Hinv]).
  2: { exfalso. apply (Hr e). reflexivity. }
  destruct (mem start visited); simpl; [split; [discriminate | exact Hinv]|].
  destruct (walk_no_raise fuel self visited [start] start Hinv) as [Wr Wi].
  destruct (walk fuel self visited [start] start)
    as [[[path visited1]|e|] self1]; simpl in *.
  - split; [discriminate | exact Wi].
  - exfalso. apply (Wr e). reflexivity.
  - split; [discriminate | exact Wi].
Qed.

Lemma find_contigs_no_raise (self : DBGAssembler) :
  empty_after_empty (graph self) ->
  forall e, fst (find_contigs self) <> Raise e.
Proof.
  intros Hinv. unfold find_contigs.
  pose proof (select_start_loop_reads (keys (graph self)) [] self) as R1.
  destruct (fold_left select_start (keys (graph self)) ([], self))
    as [start_nodes self1]. simpl in R1.
  assert (H2 : exists sn2 self2,
             match start_nodes with
             | [] => first_with_out_edge (keys (graph self1)) self1
             | _ :: _ => (start_nodes, self1)
             end = (sn2, self2) /\ graph self2 = graph self).
  { destruct R1 as (_ & G1 & _). destruct start_nodes as [|s0 rest].
    - pose proof (first_with_out_edge_reads (keys (graph self1)) self1) as R.
      destruct (first_with_out_edge (keys (graph self1)) self1) as [a b].
      exists a, b. split; [reflexivity|]. destruct R as (_ & G & _).
      simpl in G. congruence.
    - exists (s0 :: rest), self1. auto. }
  destruct H2 as (sn2 & self2 & -> & G2).
  assert (L : (forall e,
                  fst (fold_left
                         (extract_from (S (List.length (all_nodes (graph self2)))))
                         sn2 (Return ([], []), self2)) <> Raise e)
              /\ empty_after_empty
                   (graph (snd (fold_left
                         (extract_from (S (List.length (all_nodes (graph self2)))))
                         sn2 (Return ([], []), self2))))).
  { apply (fold_left_invariant _ _
             (fun st => (forall e, fst st <> Raise e)
                        /\ empty_after_empty (graph (snd st)))).
    - intros x y. apply extract_from_no_raise.
    - simpl. split; [discriminate | rewrite G2; exact Hinv]. }
  destruct (fold_left _ sn2 (Return ([], []), self2)) as [res self3].
  destruct L as [L _]. simpl in *.
  intros e. destruct res as [[cs vs]|e'|]; try discriminate.
  intros E. inversion E; subst. apply (L e). reflexivity.
Qed.

(** On the graph that [build_graph] builds from a fresh assembler,
    whatever [k] and the reads are, [find_contigs] comes to an end and
    returns its contigs: the index into a successor never fails. *)
Theorem find_contigs_returns (k0 : Z) (reads : list read) :
  exists contigs,
    fst (find_contigs (build_graph (init k0) reads)) = Return contigs.
Proof.
  pose proof (find_contigs_no_raise (build_graph (init k0) reads)
                (build_graph_empty_after_empty k0 reads)) as Hr.
  destruct (find_contigs_core (build_graph (init k0) reads)) as (Ht & _).
  destruct (fst (find_contigs (build_graph (init k0) reads)))
    as [contigs|e|].
  - exists contigs. reflexivity.
  - exfalso. apply (Hr e). reflexivity.
  - congruence.
Qed.

(** *** Degrees stay consistent through the traversal *)

Lemma lookup_fresh_keys (n : string) (extra : list string) :
  lookup n (map (fun x : string => (x, @nil string)) extra) = None
  \/ lookup n (map (fun x : string => (x, @nil string)) extra) = Some [].
Proof.
  induction extra as [|x extra IH]; simpl; [auto|].
  destruct (String.eqb n x); auto.
Qed.

Lemma frame_consistent (a b : DBGAssembler) :
  frame a b -> degrees_consistent a -> degrees_consistent b.
Proof.
  intros (_ & (extra & Eg & _ & _) & Hi & Ho) Hc n.
  destruct (Hc n) as [Co Ci]. rewrite Hi, Ho, Co, Ci, Eg. split.
  - unfold adjacency. rewrite lookup_app.
    destruct (lookup n (graph a)); [reflexivity|].
    destruct (lookup_fresh_keys n extra) as [-> | ->]; reflexivity.
  - unfold in_count. rewrite flat_map_app, count_occ_app.
    assert (E : flat_map snd (map (fun x : string => (x, @nil string)) extra)
                = []).
    { clear. induction extra as [|x extra IH]; simpl; auto. }
    rewrite E. simpl. lia.
Qed.

(** The agreement of degree counters and adjacency lists survives
    [find_contigs], although the call adds keys to the graph and to
    the degree maps. *)
Theorem find_contigs_keeps_degrees (self : DBGAssembler) :
  degrees_consistent self -> degrees_consistent (snd (find_contigs self)).
Proof.
  intros H. destruct (find_contigs_core self) as (_ & _ & F).
  exact (frame_consistent _ _ F H).
Qed.

(** The assembler of the read ACGT, [k = 3], after the traversal. *)
Lemma find_contigs_keeps_degrees_witness :
  degrees_consistent
    (snd (find_contigs (build_graph (init 3) [("r0", "ACGT", [])]))).
Proof.
  apply find_contigs_keeps_degrees.
  unfold build_graph.
  apply fold_left_invariant; [apply add_read_consistent | apply init_consistent].
Defined.

(** *** Adding the same reads again changes nothing *)

Lemma add_kmer_same (self : DBGAssembler) (kmer : string) :
  edge_present self kmer -> add_kmer self kmer = self.
Proof.
  intros (l & El & Hin). unfold add_kmer, dd_getitem. rewrite El.
  apply mem_In in Hin. rewrite Hin. destruct self. reflexivity.
Qed.

Lemma add_kmer_present (self : DBGAssembler) (kmer : string) :
  edge_present (add_kmer self kmer) kmer.
Proof.
  unfold edge_present, add_kmer, dd_getitem.
  destruct (lookup (slice kmer None (Some (-1))) (graph self)) as [l|] eqn:El.
  - destruct (mem (slice kmer (Some 1) None) l) eqn:M; simpl.
    + exists l. split; [exact El | apply mem_In; exact M].
    + eexists. rewrite lookup_set_item, String.eqb_refl.
      split; [reflexivity|]. apply in_or_app. right. left. reflexivity.
  - simpl. eexists. rewrite lookup_set_item, String.eqb_refl.
    split; [reflexivity|]. left. reflexivity.
Qed.

Lemma add_kmer_keeps (self : DBGAssembler) (kmer kmer' : string) :
  edge_present self kmer' -> edge_present (add_kmer self kmer) kmer'.
Proof.
  intros (l0 & El & Hin).
  destruct (add_kmer_graph self kmer) as (_ & l & Eg & Hl).
  simpl in Eg, Hl. unfold edge_present. rewrite Eg, lookup_set_item.
  destruct (String.eqb_spec (slice kmer' None (Some (-1)))
                            (slice kmer None (Some (-1)))) as [E|_].
  - rewrite <- E in Hl. rewrite El in Hl. exists l. split; [reflexivity|].
    destruct Hl as [->|(-> & _)]; [exact Hin|].
    apply in_or_app. left. exact Hin.
  - exists l0. auto.
Qed.

Lemma add_window_done (k0 : Z) (seq : string) (self : DBGAssembler) (i : Z) :
  k self = k0 -> window_done k0 seq (add_window seq self i) i.
Proof.
  intros <-. unfold window_done, add_window.
  destruct (has_non_acgt _) eqn:Hc; [left; reflexivity|].
  right. apply add_kmer_present.
Qed.

Lemma add_window_keeps (k0 : Z) (seq seq' : string) (self : DBGAssembler)
  (i j : Z) :
  window_done k0 seq' self j -> window_done k0 seq' (add_window seq self i) j.
Proof.
  intros [H|H]; [left; exact H|]. right. unfold add_window.
  destruct (has_non_acgt _); [exact H | apply add_kmer_keeps; exact H].
Qed.

Lemma add_window_same (seq : string) (self : DBGAssembler) (i : Z) :
  window_done (k self) seq self i -> add_window seq self i = self.
Proof.
  unfold window_done, add_window. intros [-> | H]; [reflexivity|].
  destruct (has_non_acgt _); [reflexivity | apply add_kmer_same; exact H].
Qed.

Lemma add_read_k (self : DBGAssembler) (r : read) :
  k (add_read self r) = k self.
Proof.
  destruct r as [[h seq] q]. unfold add_read.
  destruct (len seq <? k self); [reflexivity|].
  apply (fold_left_invariant _ _ (fun s => k s = k self)); [|reflexivity].
  intros x i Hx. rewrite add_window_k. exact Hx.
Qed.

Lemma add_read_keeps (k0 : Z) (r r' : read) (self : DBGAssembler) :
  read_done k0 r' self -> read_done k0 r' (add_read self r).
Proof.
  intros H i Hi. specialize (H i Hi).
  destruct r as [[h seq] q]. unfold add_read.
  destruct (len seq <? k self); [exact H|].
  apply (fold_left_invariant _ _
           (fun s => window_done k0 (OLC.seq_of r') s i)); [|exact H].
  intros x j Hx. apply add_window_keeps. exact Hx.
Qed.

Lemma add_read_done (k0 : Z) (r : read) (self : DBGAssembler) :
  k self = k0 ->
  len (OLC.seq_of r) < k0 \/ read_done k0 r (add_read self r).
Proof.
  intros Hk. destruct r as [[h seq] q]. unfold add_read, read_done, OLC.seq_of.
  cbn [fst snd]. rewrite Hk.
  destruct (Z.ltb_spec (len seq) k0) as [Hlt|Hge]; [left; exact Hlt|].
  right. intros i Hi.
  assert (Q : k (fold_left (add_window seq) (range (len seq - k0 + 1)) self)
              = k0 -> window_done k0 seq
                        (fold_left (add_window seq) (range (len seq - k0 + 1))
                                   self) i).
  { apply (OLCFacts.fold_left_establishes _ _
             (fun j s => k s = k0 -> window_done k0 seq s j)
             (add_window seq)); [| |exact Hi].
    - intros s x _ Hs. rewrite add_window_k in Hs.
      apply add_window_done. exact Hs.
    - intros s x y Hx Hs. rewrite add_window_k in Hs.
      apply add_window_keeps. auto. }
  apply Q. apply (fold_left_invariant _ _ (fun s => k s = k0)); [|exact Hk].
  intros x j Hx. rewrite add_window_k. exact Hx.
Qed.

Lemma fold_left_fixed (A B : Type) (f : A -> B -> A) (l : list B) (a : A) :
  (forall x, In x l -> f a x = a) -> fold_left f l a = a.
Proof.
  induction l as [|y l IH]; simpl; intros H; [reflexivity|].
  rewrite (H y) by (left; reflexivity).
  apply IH. intros x Hx. apply H. right. exact Hx.
Qed.

Lemma add_read_same (r : read) (self : DBGAssembler) :
  len (OLC.seq_of r) < k self \/ read_done (k self) r self ->
  add_read self r = self.
Proof.
  destruct r as [[h seq] q]. unfold add_read, read_done, OLC.seq_of.
  cbn [fst snd]. intros [H|H].
  - destruct (Z.ltb_spec (len seq) (k self)); [reflexivity | lia].
  - destruct (len seq <? k self); [reflexivity|].
    apply fold_left_fixed. intros i Hi. apply add_window_same. auto.
Qed.

(** [build_graph] keeps no count of occurrences: running it a second
    time on the same reads leaves the assembler (graph and both degree
    maps) exactly as the first run left it, for every [k] and every
    starting state. *)
Theorem build_graph_idempotent (self : DBGAssembler) (reads : list read) :
  build_graph (build_graph self reads) reads = build_graph self reads.
Proof.
  assert (Hk : forall l s, k (build_graph s l) = k s).
  { intros l s. unfold build_graph.
    apply (fold_left_invariant _ _ (fun x => k x = k s)); [|reflexivity].
    intros x r Hx. rewrite add_read_k. exact Hx. }
  assert (Hd : forall r, In r reads ->
                 len (OLC.seq_of r) < k self
                 \/ read_done (k self) r (build_graph self reads)).
  { intros r Hr.
    assert (Q : k (build_graph self reads) = k self ->
                len (OLC.seq_of r) < k self
                \/ read_done (k self) r (build_graph self reads)).
    { unfold build_graph.
      apply (OLCFacts.fold_left_establishes _ _
               (fun r s => k s = k self ->
                           len (OLC.seq_of r) < k self
                           \/ read_done (k self) r s)
               add_read); [| |exact Hr].
      - intros s x _ Hs. rewrite add_read_k in Hs.
        apply add_read_done. exact Hs.
      - intros s x y Hx Hs. rewrite add_read_k in Hs.
        destruct (Hx Hs) as [H|H]; [left; exact H|].
        right. apply add_read_keeps. exact H. }
    apply Q, Hk. }
  unfold build_graph at 1. apply fold_left_fixed.
  intros r Hr. apply add_read_same. rewrite Hk. apply Hd. exact Hr.
Qed.

End DBGMore.

(* ================================================================== *)
(** ** More about the overlap-layout-consensus assembler *)
(* ================================================================== *)

Module OLCMore.
Import OLC OLCProps OLCFacts DBGFacts MoreProps DBGMore.

(** *** The working set *)

Lemma working_set_first_500_eq (reads : list read) :
  working_set reads = firstn 500 reads.
Proof.
  unfold working_set.
  destruct (Z.ltb_spec (Z.of_nat (List.length reads)) 500) as [H|H].
  - rewrite Z.min_l by lia. rewrite Nat2Z.id.
    rewrite firstn_all. symmetry. apply firstn_all2. lia.
  - reflexivity.
Qed.

(** [find_overlaps] works on the first 500 reads at most: the cap of
    2000 in the source applies only below 500 reads, where it cannot
    bind. *)
Theorem working_set_first_500 (reads : list read) :
  working_set reads = firstn 500 reads
  /\ (List.length (working_set reads) <= 500)%nat.
Proof.
  rewrite working_set_first_500_eq. split; [reflexivity|].
  rewrite length_firstn. lia.
Qed.

(** *** The short-read scan stops at the smallest overlap *)

Lemma range3_step1 (a : Z) (n : nat) :
  range3 a (a + Z.of_nat n) 1 = map (fun i => a + Z.of_nat i) (seq 0 n).
Proof.
  unfold range3. rewrite Z.div_1_r.
  replace (Z.to_nat (a + Z.of_nat n - a + 1 - 1)) with n by lia.
  apply map_ext. intros i. lia.
Qed.

Lemma range3_step1_cons (a b : Z) :
  a < b -> range3 a b 1 = a :: range3 (a + 1) b 1.
Proof.
  intros H.
  replace b with (a + Z.of_nat (S (Z.to_nat (b - a - 1)))) at 1 by lia.
  replace b with (a + 1 + Z.of_nat (Z.to_nat (b - a - 1))) at 2 by lia.
  rewrite !range3_step1. simpl. f_equal; [lia|].
  rewrite <- seq_shift, map_map. apply map_ext. intros i. lia.
Qed.

Lemma range3_step1_nil (a b : Z) : b <= a -> range3 a b 1 = [].
Proof.
  intros H. unfold range3. rewrite Z.div_1_r.
  replace (Z.to_nat (b - a + 1 - 1)) with 0%nat by lia. reflexivity.
Qed.

Lemma scan_first_hit (eff : Z) (seq_i seq_j : string) (n : nat) :
  forall a b k,
    Z.to_nat (b - a) = n ->
    a <= k < b -> suffix_matches seq_i seq_j k = true ->
    let r := scan eff 1 seq_i seq_j (range3 a b 1) in
    a <= r <= k
    /\ suffix_matches seq_i seq_j r = true
    /\ forall j, a <= j < r -> suffix_matches seq_i seq_j j = false.
Proof.
  induction n as [|n IH]; intros a b k Hn Hk Hm; [lia|].
  rewrite range3_step1_cons by lia. simpl.
  destruct (suffix_matches seq_i seq_j a) eqn:Ma.
  - change (1 >? 1) with false. cbv iota.
    split; [lia|]. split; [exact Ma|]. intros j Hj. lia.
  - assert (Hka : a <> k) by (intros ->; congruence).
    destruct (IH (a + 1) b k ltac:(lia) ltac:(lia) Hm) as (Hr & Hmr & Hmin).
    split; [lia|]. split; [exact Hmr|].
    intros j Hj. destruct (Z.eq_dec j a) as [->|Hja]; [exact Ma|].
    apply Hmin. lia.
Qed.

(** In short-read mode (stride 1) the overlap recorded for a pair is
    the smallest length, from the effective minimum up to the shorter
    sequence, at which suffix and prefix agree: the scan stops at its
    first hit, so a longer overlap of the same pair is not looked for. *)
Theorem pair_overlap_smallest (eff : Z) (seq_i seq_j : string) (k : Z) :
  eff <= k <= Z.min (len seq_i) (len seq_j) ->
  suffix_matches seq_i seq_j k = true ->
  let r := pair_overlap eff 1 seq_i seq_j in
  eff <= r <= k
  /\ suffix_matches seq_i seq_j r = true
  /\ forall j, eff <= j < r -> suffix_matches seq_i seq_j j = false.
Proof.
  intros Hk Hm. unfold pair_overlap.
  apply (scan_first_hit eff seq_i seq_j
           (Z.to_nat (Z.min (len seq_i) (len seq_j) + 1 - eff))
           eff (Z.min (len seq_i) (len seq_j) + 1) k); auto. lia.
Qed.

(** AACCC and CCCGG overlap by 3 and by 2; with minimum overlap 2 the
    recorded overlap is 2. *)
Lemma pair_overlap_smallest_witness :
  (2 <= 3 <= Z.min (len "AACCC") (len "CCCGG")
   /\ suffix_matches "AACCC" "CCCGG" 3 = true)
  /\ (let r := pair_overlap 2 1 "AACCC" "CCCGG" in
      2 <= r <= 3
      /\ suffix_matches "AACCC" "CCCGG" r = true
      /\ forall j, 2 <= j < r -> suffix_matches "AACCC" "CCCGG" j = false).
Proof.
  split.
  - split; [vm_compute; split; discriminate | reflexivity].
  - apply (pair_overlap_smallest 2 "AACCC" "CCCGG" 3).
    + vm_compute. split; discriminate.
    + reflexivity.
Defined.

(** *** Sorting by decreasing key *)

Lemma insert_desc_perm (A : Type) (key : A -> Z) (x : A) (l : list A) :
  Permutation (insert_desc key x l) (x :: l).
Proof.
  induction l as [|y l IH]; simpl; [reflexivity|].
  destruct (key x <? key y); [|reflexivity].
  rewrite IH. apply perm_swap.
Qed.

Lemma sort_desc_perm (A : Type) (key : A -> Z) (l : list A) :
  Permutation (sort_desc key l) l.
Proof.
  induction l as [|x l IH]; simpl; [reflexivity|].
  rewrite insert_desc_perm. constructor. exact IH.
Qed.

Lemma insert_desc_sorted (A : Type) (key : A -> Z) (x : A) (l : list A) :
  StronglySorted (fun a b => key b <= key a) l ->
  StronglySorted (fun a b => key b <= key a) (insert_desc key x l).
Proof.
  induction l as [|y l IH]; simpl; intros H.
  - repeat constructor.
  - inversion H as [|? ? Hs Hf]; subst.
    destruct (Z.ltb_spec (key x) (key y)) as [Hlt|Hge].
    + constructor; [apply IH; exact Hs|].
      rewrite Forall_forall in *. intros z Hz.
      apply (Permutation_in _ (insert_desc_perm A key x l)) in Hz.
      destruct Hz as [<-|Hz]; [lia | auto].
    + constructor; [exact H|]. constructor; [exact Hge|].
      rewrite Forall_forall in *. intros z Hz. specialize (Hf z Hz). lia.
Qed.

Lemma sort_desc_sorted (A : Type) (key : A -> Z) (l : list A) :
  StronglySorted (fun a b => key b <= key a) (sort_desc key l).
Proof.
  induction l as [|x l IH]; simpl; [constructor|].
  apply insert_desc_sorted. exact IH.
Qed.

Lemma firstn_In (A : Type) (n : nat) (l : list A) (x : A) :
  In x (firstn n l) -> In x l.
Proof.
  revert n. induction l as [|y l IH]; intros [|n]; simpl; try tauto.
  intros [H|H]; [auto | right; eauto].
Qed.

Lemma NoDup_firstn (A : Type) (n : nat) (l : list A) :
  NoDup l -> NoDup (firstn n l).
Proof.
  revert n. induction l as [|x l IH]; intros [|n] H; simpl; try constructor.
  - inversion H; subst. intros Hx. apply firstn_In in Hx. auto.
  - inversion H; subst. auto.
Qed.

(** *** When [generate_consensus] returns *)

Lemma map_outcome_returns (A B : Type) (f : A -> outcome B) (l : list A) :
  (exists ys, map_outcome f l = Return ys)
  <-> Forall (fun x => exists y, f x = Return y) l.
Proof.
  induction l as [|x l IH]; simpl.
  - split; [constructor | eauto].
  - split.
    + intros (ys & E). destruct (f x) as [y|e|] eqn:Ex; simpl in E;
        try discriminate.
      constructor; [eauto|]. apply IH.
      destruct (map_outcome f l) as [zs|e|]; simpl in E; try discriminate.
      eauto.
    + intros H. inversion H as [|? ? (y & Ey) Hl]; subst.
      apply IH in Hl. destruct Hl as (zs & Ez).
      rewrite Ey, Ez. simpl. eauto.
Qed.

Lemma map_outcome_length (A B : Type) (f : A -> outcome B) (l : list A)
  (ys : list B) :
  map_outcome f l = Return ys -> List.length ys = List.length l.
Proof.
  revert ys. induction l as [|x l IH]; simpl; intros ys E.
  - inversion E. reflexivity.
  - destruct (f x) as [y|e|]; simpl in E; try discriminate.
    destruct (map_outcome f l) as [zs|e|]; simpl in E; try discriminate.
    inversion E. simpl. f_equal. apply IH. reflexivity.
Qed.

Lemma map_outcome_map (A B : Type) (f : A -> outcome B) (g : A -> B)
  (l : list A) :
  (forall x, In x l -> f x = Return (g x)) ->
  map_outcome f l = Return (map g l).
Proof.
  induction l as [|x l IH]; simpl; intros H; [reflexivity|].
  rewrite (H x) by (left; reflexivity). simpl.
  rewrite IH by (intros y Hy; apply H; right; exact Hy). reflexivity.
Qed.

Lemma extend_contig_returns (g : DiGraph) (read_dict : dict string)
  (rest : list string) :
  forall (prev contig : string),
    (exists c, extend_contig g read_dict prev rest contig = Return c)
    <-> (forall n, In n rest -> lookup n read_dict <> None)
        /\ (forall e, In e (pairs_from prev rest) -> has_edge g (fst e) (snd e)).
Proof.
  induction rest as [|cur rest IH]; intros prev contig; simpl.
  - split; [intros _; split; intros ? [] | eauto].
  - split.
    + intros (c & E).
      destruct (edge_weight g (prev, cur)) as [w|e|] eqn:Ew; simpl in E;
        try discriminate.
      unfold getitem in E.
      destruct (lookup cur read_dict) as [s|] eqn:El; simpl in E;
        try discriminate.
      destruct (proj1 (IH _ _) (ex_intro _ c E)) as [Hn He].
      split.
      * intros n [<-|Hn']; [congruence | auto].
      * intros e [<-|He']; [exists w; exact Ew | auto].
    + intros [Hn He].
      destruct (He (prev, cur) (or_introl eq_refl)) as (w & Ew).
      simpl in Ew. rewrite Ew. simpl. unfold getitem.
      destruct (lookup cur read_dict) as [s|] eqn:El;
        [|exfalso; apply (Hn cur); auto].
      simpl. apply IH. split; auto.
Qed.

Lemma consensus_of_path_returns (g : DiGraph) (read_dict : dict string)
  (path : list string) :
  (exists c, consensus_of_path g read_dict path = Return c)
  <-> valid_path g read_dict path.
Proof.
  destruct path as [|p0 rest].
  - simpl. split; [intros (c & E); discriminate | intros (H & _); congruence].
  - rewrite consensus_of_path_first. unfold valid_path, getitem. simpl.
    split.
    + intros (c & E).
      destruct (lookup p0 read_dict) as [s|] eqn:El; simpl in E;
        try discriminate.
      destruct (proj1 (extend_contig_returns g read_dict rest p0 s)
                      (ex_intro _ c E)) as [Hn He].
      split; [discriminate|]. split; [|exact He].
      intros n [<-|Hn']; [congruence | auto].
    + intros (_ & Hn & He).
      destruct (lookup p0 read_dict) as [s|] eqn:El;
        [|exfalso; apply (Hn p0); auto].
      simpl. apply extend_contig_returns. split; auto.
Qed.

Lemma fallback_returns (read_dict : dict string)
  (l : list (string * Z)) :
  incl (map fst l) (keys read_dict) ->
  exists ys,
    map_outcome (fun hl : string * Z => getitem (fst hl) read_dict) l
    = Return ys.
Proof.
  intros H. apply map_outcome_returns. apply Forall_forall.
  intros hl Hin. unfold getitem.
  destruct (lookup (fst hl) read_dict) as [v|] eqn:E; [eauto|].
  exfalso. apply lookup_None_keys in E. apply E, H.
  apply in_map. exact Hin.
Qed.

Lemma longest_reads_keys (read_dict : dict string) :
  incl (map fst
          (firstn 5 (sort_desc snd
                       (map (fun hs : string * string =>
                               (fst hs, len (snd hs))) read_dict))))
       (keys read_dict).
Proof.
  intros h Hh. apply in_map_iff in Hh. destruct Hh as (hl & <- & Hin).
  apply firstn_In in Hin.
  apply (Permutation_in _ (sort_desc_perm _ _ _)) in Hin.
  apply in_map_iff in Hin. destruct Hin as (hs & <- & Hin).
  simpl. unfold keys. apply in_map. exact Hin.
Qed.

Lemma generate_consensus_valid (self : OLCAssembler)
  (paths : list (list string)) (read_dict : dict string) :
  Forall (valid_path (graph self) read_dict) paths ->
  exists contigs, generate_consensus self paths read_dict = Return contigs.
Proof.
  intros H. unfold generate_consensus.
  assert (Hm : exists cs,
             map_outcome (consensus_of_path (graph self) read_dict) paths
             = Return cs).
  { apply map_outcome_returns. rewrite Forall_forall in *.
    intros p Hp. apply consensus_of_path_returns. auto. }
  destruct Hm as (cs & ->). simpl.
  destruct cs as [|c cs]; [|eauto].
  destruct read_dict as [|e rd]; [eauto|].
  apply fallback_returns, longest_reads_keys.
Qed.

(** [generate_consensus] returns exactly when every path is non-empty,
    names only reads of the dictionary and steps only along edges of
    the graph (otherwise [KeyError] or, for an empty path,
    [IndexError] is raised); and it then returns one contig per path. *)
Theorem generate_consensus_returns (self : OLCAssembler)
  (paths : list (list string)) (read_dict : dict string) :
  ((exists contigs, generate_consensus self paths read_dict = Return contigs)
   <-> Forall (valid_path (graph self) read_dict) paths)
  /\ (forall contigs,
         paths <> [] ->
         generate_consensus self paths read_dict = Return contigs ->
         List.length contigs = List.length paths).
Proof.
  split; [split|].
  - intros (contigs & E). unfold generate_consensus in E.
    destruct (map_outcome (consensus_of_path (graph self) read_dict) paths)
      as [cs|e|] eqn:Em; simpl in E; try discriminate.
    assert (Hm : exists cs,
               map_outcome (consensus_of_path (graph self) read_dict) paths
               = Return cs) by eauto.
    apply map_outcome_returns in Hm. rewrite Forall_forall in *.
    intros p Hp. apply consensus_of_path_returns. auto.
  - apply generate_consensus_valid.
  - intros contigs Hne E. unfold generate_consensus in E.
    destruct (map_outcome (consensus_of_path (graph self) read_dict) paths)
      as [cs|e|] eqn:Em; simpl in E; try discriminate.
    apply map_outcome_length in Em.
    destruct cs as [|c cs].
    + destruct paths; [congruence | discriminate].
    + inversion E; subst. exact Em.
Qed.

(** The path read0, read1 of the reads AAAACCCC and CCCCGGGG. *)
Lemma generate_consensus_returns_witness :
  [["read0"; "read1"]] <> []
  /\ List.length ["AAAACCCCGGGG"] = List.length [["read0"; "read1"]].
Proof.
  split; [discriminate|].
  apply (proj2 (generate_consensus_returns
                  (find_overlaps (init 4)
                     [("read0", "AAAACCCC", []); ("read1", "CCCCGGGG", [])])
                  [["read0"; "read1"]]
                  (make_read_dict
                     [("read0", "AAAACCCC", []); ("read1", "CCCCGGGG", [])]))).
  - discriminate.
  - reflexivity.
Defined.

(** *** The fallback to the longest reads *)

Lemma sorted_app_le (A : Type) (R : A -> A -> Prop) (l1 l2 : list A) :
  StronglySorted R (l1 ++ l2) ->
  StronglySorted R l1 /\ forall a b, In a l1 -> In b l2 -> R a b.
Proof.
  induction l1 as [|x l1 IH]; simpl; intros H.
  - split; [constructor | intros a b []].
  - inversion H as [|? ? Hs Hf]; subst. destruct (IH Hs) as [S1 Hle].
    rewrite Forall_forall in Hf. split.
    + constructor; [exact S1|]. apply Forall_forall.
      intros y Hy. apply Hf. apply in_or_app. left. exact Hy.
    + intros a b [<-|Ha] Hb; [|auto].
      apply Hf. apply in_or_app. right. exact Hb.
Qed.

Lemma sorted_map_len (g : string * Z -> string) (l : list (string * Z)) :
  (forall x, In x l -> len (g x) = snd x) ->
  StronglySorted (fun a b : string * Z => snd b <= snd a) l ->
  longest_first (map g l).
Proof.
  unfold longest_first. induction l as [|x l IH]; simpl; intros Hg Hs.
  - constructor.
  - inversion Hs as [|? ? Hs' Hf]; subst.
    constructor; [apply IH; auto|].
    rewrite Forall_forall in *. intros c Hc.
    apply in_map_iff in Hc. destruct Hc as (y & <- & Hy).
    rewrite (Hg x) by auto. rewrite (Hg y) by auto. auto.
Qed.

(** With no path and a non-empty dictionary of reads (distinct ids),
    [generate_consensus] returns reads instead of contigs: the
    sequences of five entries of the dictionary with five different
    ids, or of all entries if there are fewer, longest first, and every
    entry left out is no longer than any sequence returned. *)
Theorem generate_consensus_fallback (self : OLCAssembler)
  (read_dict : dict string) :
  NoDup (keys read_dict) ->
  exists chosen : list (string * string),
    generate_consensus self [] read_dict = Return (map snd chosen)
    /\ NoDup (map fst chosen)
    /\ incl chosen read_dict
    /\ List.length chosen = Nat.min 5 (List.length read_dict)
    /\ longest_first (map snd chosen)
    /\ (forall h s, In (h, s) read_dict ->
          In (h, s) chosen
          \/ forall c, In c (map snd chosen) -> len s <= len c).
Proof.
  intros Hnd. unfold generate_consensus. simpl.
  destruct read_dict as [|e0 rd0] eqn:Erd.
  { exists []. simpl. split; [reflexivity|]. split; [constructor|].
    split; [intros x []|]. split; [reflexivity|].
    split; [constructor | intros h s []]. }
  rewrite <- Erd in *. clear Erd e0 rd0.
  set (keyed := map (fun hs : string * string => (fst hs, len (snd hs)))
                    read_dict).
  set (sorted := sort_desc snd keyed).
  set (g := fun hl : string * Z =>
              match lookup (fst hl) read_dict with
              | Some s => s
              | None => ""
              end).
  set (chosen := map (fun hl : string * Z => (fst hl, g hl)) (firstn 5 sorted)).
  assert (Hsnd : map snd chosen = map g (firstn 5 sorted)).
  { unfold chosen. rewrite map_map. reflexivity. }
  assert (Hfst : map fst chosen = firstn 5 (map fst sorted)).
  { unfold chosen. rewrite map_map, firstn_map. reflexivity. }
  assert (Hkeyed : forall hl, In hl sorted ->
             exists s, In (fst hl, s) read_dict /\ snd hl = len s
                       /\ lookup (fst hl) read_dict = Some s).
  { intros hl Hin.
    apply (Permutation_in _ (sort_desc_perm _ _ _)) in Hin.
    apply in_map_iff in Hin. destruct Hin as ([h s] & <- & Hin).
    exists s. simpl. repeat split; auto. apply In_lookup_nodup; assumption. }
  assert (Hret : map_outcome (fun hl : string * Z => getitem (fst hl) read_dict)
                             (firstn 5 sorted)
                 = Return (map g (firstn 5 sorted))).
  { apply map_outcome_map. intros hl Hin. apply firstn_In in Hin.
    destruct (Hkeyed hl Hin) as (s & _ & _ & El).
    unfold getitem, g. rewrite El. reflexivity. }
  exists chosen. rewrite Hsnd. split; [exact Hret|].
  assert (Hsorted : StronglySorted (fun a b : string * Z => snd b <= snd a)
                                   sorted) by apply sort_desc_sorted.
  rewrite <- (firstn_skipn 5 sorted) in Hsorted.
  apply sorted_app_le in Hsorted. destruct Hsorted as [S1 Hle].
  split; [|split; [|split; [|split]]].
  - rewrite Hfst. apply NoDup_firstn.
    apply (Permutation_NoDup
             (Permutation_sym (Permutation_map fst (sort_desc_perm _ snd keyed)))).
    unfold keyed. rewrite map_map. exact Hnd.
  - intros [h s] Hin. unfold chosen in Hin. apply in_map_iff in Hin.
    destruct Hin as (hl & E & Hin). inversion E; subst h s.
    apply firstn_In in Hin. destruct (Hkeyed hl Hin) as (s & Hs & _ & El).
    unfold g. rewrite El. exact Hs.
  - unfold chosen. rewrite length_map, length_firstn. unfold sorted.
    rewrite (Permutation_length (sort_desc_perm _ _ _)).
    unfold keyed. rewrite length_map. reflexivity.
  - apply sorted_map_len; [|exact S1].
    intros x Hx. apply firstn_In in Hx.
    destruct (Hkeyed x Hx) as (s & _ & Hl & El). unfold g. rewrite El. auto.
  - intros h s Hin.
    assert (Hk : In (h, len s) sorted).
    { apply (Permutation_in _ (Permutation_sym (sort_desc_perm _ _ _))).
      unfold keyed. apply in_map_iff. exists (h, s). auto. }
    rewrite <- (firstn_skipn 5 sorted) in Hk. apply in_app_or in Hk.
    destruct Hk as [Hk|Hk].
    + left. unfold chosen. apply in_map_iff. exists (h, len s).
      split; [|exact Hk].
      unfold g. simpl. rewrite (In_lookup_nodup _ h s read_dict Hnd Hin).
      reflexivity.
    + right. intros c Hc. apply in_map_iff in Hc.
      destruct Hc as (hl & <- & Hhl).
      specialize (Hle hl (h, len s) Hhl Hk). simpl in Hle.
      apply firstn_In in Hhl. destruct (Hkeyed hl Hhl) as (s' & _ & Hl & El).
      unfold g. rewrite El. lia.
Qed.

(** Six reads without any overlap of length 9: five of them are
    returned, r0 or r1 or r3 (of length 4) is left out. *)
Lemma generate_consensus_fallback_witness :
  let read_dict := make_read_dict [("r0", "AACC", []); ("r1", "CCAA", []);
                                   ("r2", "CCGGT", []); ("r3", "TTAA", []);
                                   ("r4", "TTAAAA", []); ("r5", "TTAAA", [])] in
  NoDup (keys read_dict)
  /\ exists chosen,
       generate_consensus (init 9) [] read_dict = Return (map snd chosen)
       /\ NoDup (map fst chosen)
       /\ incl chosen read_dict
       /\ List.length chosen = 5%nat.
Proof.
  intros read_dict.
  assert (Hnd : NoDup (keys read_dict)).
  { vm_compute. repeat constructor; simpl; intuition discriminate. }
  split; [exact Hnd|].
  destruct (generate_consensus_fallback (init 9) read_dict Hnd)
    as (chosen & E & N & I & L & _).
  exists chosen. split; [exact E|]. split; [exact N|].
  split; [exact I | exact L].
Defined.

(** *** Nodes of the overlap graph *)

Lemma keys_add_node (n : string) (g : DiGraph) :
  incl (keys (add_node n g)) (n :: keys g)
  /\ incl (keys g) (keys (add_node n g)).
Proof.
  unfold add_node. destruct (lookup n g).
  - split; [intros x Hx; right; exact Hx | apply incl_refl].
  - unfold keys. rewrite map_app. simpl. split; intros x Hx.
    + apply in_app_or in Hx. destruct Hx as [Hx|[<-|[]]]; [right|left]; auto.
    + apply in_or_app. left. exact Hx.
Qed.

Lemma keys_add_edge (u v : string) (w : Z) (g : DiGraph) :
  incl (keys (add_edge u v w g)) (u :: v :: keys g).
Proof.
  unfold add_edge.
  assert (H : incl (keys (add_node v (add_node u g))) (u :: v :: keys g)).
  { intros x Hx. apply (proj1 (keys_add_node v _)) in Hx.
    destruct Hx as [<-|Hx]; [right; left; reflexivity|].
    apply (proj1 (keys_add_node u g)) in Hx.
    destruct Hx as [<-|Hx]; [left | right; right]; auto. }
  destruct (lookup u (add_node v (add_node u g))) eqn:E; [|exact H].
  rewrite keys_set_item, E. exact H.
Qed.

Lemma enumerate_header (ws : list read) (ir : nat * read) :
  In ir (enumerate ws) -> In (header_of (snd ir)) (map header_of ws).
Proof.
  destruct ir as [i r]. intros H. apply in_enumerate in H.
  apply nth_error_In in H. apply in_map. exact H.
Qed.

Lemma find_overlaps_nodes (m : Z) (reads : list read) :
  incl (nodes (graph (find_overlaps (init m) reads)))
       (map header_of (working_set reads)).
Proof.
  unfold find_overlaps, nodes. simpl graph.
  set (ws := working_set reads).
  apply (fold_left_invariant_in _ _
           (fun g => incl (keys g) (map header_of ws))).
  - intros g ir Hi Hg.
    apply (fold_left_invariant_in _ _
             (fun g => incl (keys g) (map header_of ws))); [|exact Hg].
    intros g' jr Hj Hg'. unfold overlap_step.
    destruct (Nat.eqb _ _); [exact Hg'|].
    destruct (_ >=? _); [|exact Hg'].
    intros x Hx. apply keys_add_edge in Hx.
    destruct Hx as [<-|[<-|Hx]]; auto using enumerate_header.
  - intros x [].
Qed.

(** The overlap graph that [find_overlaps] builds has distinct nodes
    and distinct successors per node; every node is the identifier of
    one of the first 500 reads, so the graph has at most 500 nodes
    however many reads are given. *)
Theorem find_overlaps_graph_nodes (m : Z) (reads : list read) :
  let g := graph (find_overlaps (init m) reads) in
  well_formed g
  /\ incl (nodes g) (map header_of (firstn 500 reads))
  /\ (List.length (nodes g) <= 500)%nat.
Proof.
  intros g. pose proof (find_overlaps_well_formed m reads) as Hwf.
  pose proof (find_overlaps_nodes m reads) as Hn.
  rewrite working_set_first_500_eq in Hn.
  split; [exact Hwf|]. split; [exact Hn|].
  apply Nat.le_trans with (List.length (map header_of (firstn 500 reads))).
  - apply NoDup_incl_length; [apply Hwf | exact Hn].
  - rewrite length_map, length_firstn. lia.
Qed.

(** *** No read twice on a path *)

Lemma greedy_loop_nodup (g : DiGraph) (fuel : nat) :
  forall (current : string) (path : list string) (visited : list edge)
         (path' : list string) (visited' : list edge),
    NoDup path ->
    greedy_loop fuel g current path visited = Return (path', visited') ->
    NoDup path'.
Proof.
  induction fuel as [|fuel IH];
    intros current path visited path' visited' Hn E; simpl in E;
    [discriminate|].
  destruct (max_by (weight_key g) (ediff (out_edges g current) visited))
    as [next_edge|]; [|inversion E; subst; exact Hn].
  destruct (mem (snd next_edge) path) eqn:M; [inversion E; subst; exact Hn|].
  apply (IH _ _ _ _ _ (NoDup_snoc _ _ _ Hn (proj1 (mem_false _ _) M)) E).
Qed.

Lemma build_greedy_paths_nodup (g : DiGraph) (fuel : nat) (start : string)
  (paths : list (list string)) (visited : list edge)
  (start_edge : option edge) (paths' : list (list string))
  (visited' : list edge) :
  Forall (@NoDup string) paths ->
  (forall e, start_edge = Some e -> fst e <> snd e) ->
  build_greedy_paths fuel g start paths visited start_edge
  = Return (paths', visited') ->
  Forall (@NoDup string) paths'.
Proof.
  intros Hp Hs E. unfold build_greedy_paths in E.
  assert (H0 : forall cur path vis,
             NoDup path ->
             bind (greedy_loop fuel g cur path vis)
                  (fun r => Return (if Z.of_nat (List.length (fst r)) >? 1
                                    then paths ++ [fst r] else paths, snd r))
             = Return (paths', visited') ->
             Forall (@NoDup string) paths').
  { intros cur path vis Hn Eb.
    destruct (greedy_loop fuel g cur path vis) as [[p v]|e|] eqn:Eg;
      simpl in Eb; try discriminate.
    apply greedy_loop_nodup in Eg; [|exact Hn].
    inversion Eb; subst.
    destruct (_ >? 1); [|exact Hp].
    apply Forall_app. split; [exact Hp | repeat constructor; exact Eg]. }
  assert (N1 : NoDup [start]) by (repeat constructor; simpl; tauto).
  destruct start_edge as [se|]; [|eapply H0; eassumption].
  destruct (String.eqb_spec (fst se) start) as [Es|_];
    [|eapply H0; eassumption].
  eapply H0; [|exact E].
  specialize (Hs se eq_refl). subst start.
  repeat constructor; simpl; intuition.
Qed.

Lemma from_starts_nodup (g : DiGraph) (fuel : nat) (starts : list string) :
  forall (paths : list (list string)) (visited : list edge)
         (paths' : list (list string)) (visited' : list edge),
    Forall (@NoDup string) paths ->
    from_starts fuel g starts paths visited = Return (paths', visited') ->
    Forall (@NoDup string) paths'.
Proof.
  induction starts as [|start starts IH];
    intros paths visited paths' visited' Hp E; simpl in E.
  - inversion E; subst. exact Hp.
  - destruct (build_greedy_paths fuel g start paths visited None)
      as [[p1 v1]|e|] eqn:Eb; simpl in E; try discriminate.
    apply build_greedy_paths_nodup in Eb; [|exact Hp | discriminate].
    eapply IH; eassumption.
Qed.

Lemma leftover_loop_nodup (g : DiGraph) (pick : list edge -> nat)
  (inner fuel : nat) :
  no_self_loop g ->
  forall (paths : list (list string)) (visited : list edge)
         (paths' : list (list string)),
    Forall (@NoDup string) paths ->
    leftover_loop fuel inner g pick (edges g) paths visited = Return paths' ->
    Forall (@NoDup string) paths'.
Proof.
  intros Hl. induction fuel as [|fuel IH];
    intros paths visited paths' Hp E; cbn [leftover_loop] in E.
  - destruct (ediff (edges g) visited); [|discriminate].
    inversion E; subst. exact Hp.
  - destruct (ediff (edges g) visited) as [|e0 rest] eqn:Ed.
    + inversion E; subst. exact Hp.
    + match type of E with
      | bind (build_greedy_paths _ _ (fst ?e) _ _ _) _ = _ =>
          set (e1 := e) in *;
          assert (He : In e1 (ediff (edges g) visited))
      end.
      { rewrite Ed. apply nth_In. apply Nat.mod_upper_bound. simpl. lia. }
      apply In_ediff in He. destruct He as [He _].
      destruct (build_greedy_paths inner g (fst e1) paths visited (Some e1))
        as [[p1 v1]|e|] eqn:Eb; cbn [bind fst snd] in E; try discriminate.
      apply build_greedy_paths_nodup in Eb; [|exact Hp|].
      * eapply IH; eassumption.
      * intros e2 E2. inversion E2; subst e2. intros Heq.
        apply (Hl (fst e1)). destruct e1 as [a b]. simpl in *. subst b.
        exact He.
Qed.

Lemma find_paths_nodup (self : OLCAssembler) (pick : list edge -> nat)
  (paths : list (list string)) :
  no_self_loop (graph self) ->
  find_paths self pick = Return paths ->
  Forall (@NoDup string) paths.
Proof.
  intros Hl E. unfold find_paths in E.
  destruct (nodes (graph self)); [inversion E; constructor|].
  destruct (from_starts _ (graph self) (start_nodes (graph self)) [] [])
    as [[p1 v1]|e|] eqn:Ef; cbn [bind fst snd] in E; try discriminate.
  apply from_starts_nodup in Ef; [|constructor].
  eapply leftover_loop_nodup; eassumption.
Qed.

Lemma edges_have_weight (g : DiGraph) (e : edge) :
  well_formed g -> In e (edges g) -> has_edge g (fst e) (snd e).
Proof.
  intros [Hk Hn] He. unfold edges in He. apply in_flat_map in He.
  destruct He as ([n nbrs] & Hin & Hm). simpl in Hm.
  apply in_map_iff in Hm. destruct Hm as (v & <- & Hv). simpl.
  unfold has_edge, edge_weight, getitem. simpl.
  rewrite (In_lookup_nodup _ n nbrs g Hk Hin). simpl.
  apply lookup_In_keys in Hv.
  destruct (lookup v nbrs) as [w|]; [eauto | congruence].
Qed.

Lemma nth_error_header_neq (ws : list read) (i j : nat) (r_i r_j : read) :
  NoDup (map header_of ws) -> i <> j ->
  nth_error ws i = Some r_i -> nth_error ws j = Some r_j ->
  header_of r_i <> header_of r_j.
Proof.
  intros Hn Hij Hi Hj Heq. apply Hij.
  apply (proj1 (NoDup_nth_error (map header_of ws)) Hn).
  - rewrite length_map. apply nth_error_Some. congruence.
  - rewrite !nth_error_map, Hi, Hj. simpl. congruence.
Qed.

Lemma find_overlaps_no_self_loop (m : Z) (reads : list read) :
  NoDup (map header_of reads) ->
  no_self_loop (graph (find_overlaps (init m) reads)).
Proof.
  intros Hn n He.
  apply (edges_have_weight _ _ (find_overlaps_well_formed m reads)) in He.
  destruct He as (w & Hw). simpl in Hw.
  apply find_overlaps_exact in Hw.
  destruct Hw as (i & j & r_i & r_j & Hij & Hi & Hj & Eu & Ev & _).
  apply (nth_error_header_neq (working_set reads) i j r_i r_j); auto;
    [|congruence].
  rewrite working_set_first_500_eq, <- firstn_map.
  apply NoDup_firstn. exact Hn.
Qed.

(** When the reads have distinct identifiers, no read occurs twice on
    a path that [find_paths] emits for their overlap graph. *)
Theorem find_paths_no_repeated_read (m : Z) (reads : list read)
  (pick : list edge -> nat) (paths : list (list string)) :
  NoDup (map header_of reads) ->
  find_paths (find_overlaps (init m) reads) pick = Return paths ->
  Forall (@NoDup string) paths.
Proof.
  intros Hn E.
  apply (find_paths_nodup _ pick paths
           (find_overlaps_no_self_loop m reads Hn) E).
Qed.

(** The reads AACC and CCAA, which overlap both ways. *)
Lemma find_paths_no_repeated_read_witness :
  Forall (@NoDup string) [["r0"; "r1"]].
Proof.
  apply (find_paths_no_repeated_read 2
           [("r0", "AACC", []); ("r1", "CCAA", [])] (fun _ => 0%nat)).
  - vm_compute. repeat constructor; simpl; intuition discriminate.
  - reflexivity.
Defined.

(** *** The whole pipeline returns *)

Lemma find_paths_core (self : OLCAssembler) (pick : list edge -> nat) :
  exists paths,
    find_paths self pick = Return paths
    /\ incl (paths_pairs paths) (edges (graph self))
    /\ all_long paths.
Proof.
  unfold find_paths. set (g := graph self).
  destruct (nodes g) eqn:En.
  - exists []. split; [reflexivity|]. split; [intros e [] | constructor].
  - clear En.
    destruct (from_starts_ok g (S (List.length (edges g))) (start_nodes g)
                [] [] (search_inv_init g) (Forall_nil _) ltac:(lia))
      as (paths1 & visited1 & E1 & Hinv1 & Hlong1).
    rewrite E1. simpl.
    destruct (leftover_loop_ok g pick (S (List.length (edges g)))
                (S (List.length (edges g))) paths1 visited1 Hinv1 Hlong1
                ltac:(lia) ltac:(lia))
      as (paths2 & visited2 & E2 & Hinv2 & Hlong2 & _).
    exists paths2. split; [exact E2|].
    destruct Hinv2 as (_ & I & _ & IP & _).
    simpl in IP. rewrite app_nil_r in IP.
    split; [intros e He; apply I, IP, He | exact Hlong2].
Qed.

Lemma path_node_on_pair (path : list string) (n : string) :
  (2 <= List.length path)%nat -> In n path ->
  exists e, In e (path_pairs path) /\ (fst e = n \/ snd e = n).
Proof.
  destruct path as [|p0 rest]; simpl; [lia|].
  revert p0. induction rest as [|p1 rest IH]; intros p0 Hl Hin; simpl in *;
    [lia|].
  destruct Hin as [<-|[<-|Hin]].
  - exists (p0, p1). auto.
  - exists (p0, p1). auto.
  - destruct rest as [|p2 rest']; [destruct Hin|].
    destruct (IH p1 ltac:(simpl; lia) (or_intror Hin)) as (e & He & Hn).
    exists e. auto.
Qed.

Lemma make_read_dict_has (reads : list read) (r : read) :
  In r reads -> lookup (header_of r) (make_read_dict reads) <> None.
Proof.
  intros Hr. unfold make_read_dict.
  apply (fold_left_establishes _ _
           (fun r d => lookup (header_of r) d <> None)
           (fun d r => set_item (header_of r) (seq_of r) d) reads);
    [| |exact Hr].
  - intros d x _. rewrite lookup_set_item, String.eqb_refl. discriminate.
  - intros d x y H. rewrite lookup_set_item.
    destruct (String.eqb _ _); [discriminate | exact H].
Qed.

Lemma overlap_edge_reads (m : Z) (reads : list read) (u v : string) :
  has_edge (graph (find_overlaps (init m) reads)) u v ->
  lookup u (make_read_dict reads) <> None
  /\ lookup v (make_read_dict reads) <> None.
Proof.
  intros (w & Hw). apply find_overlaps_exact in Hw.
  destruct Hw as (i & j & r_i & r_j & _ & Hi & Hj & <- & <- & _).
  apply nth_error_In in Hi, Hj. unfold working_set in Hi, Hj.
  apply firstn_In in Hi, Hj.
  split; apply make_read_dict_has; assumption.
Qed.

(** The in-memory pipeline of [assemble] (overlaps, paths, consensus)
    comes to an end and returns contigs for every list of reads, every
    minimum overlap and every order in which leftover edges are
    picked: the paths that [find_paths] emits name only reads of the
    dictionary and step only along edges, so no lookup fails. *)
Theorem assemble_returns (m : Z) (pick : list edge -> nat)
  (reads : list read) :
  exists contigs, fst (assemble (init m) pick reads) = Return contigs.
Proof.
  unfold assemble. simpl fst.
  destruct (find_paths_core (find_overlaps (init m) reads) pick)
    as (paths & -> & Hin & Hlong).
  simpl. apply generate_consensus_valid.
  pose proof (find_overlaps_well_formed m reads) as Hwf.
  apply Forall_forall. intros p Hp.
  assert (Hl : (2 <= List.length p)%nat).
  { unfold all_long in Hlong. rewrite Forall_forall in Hlong. auto. }
  assert (He : forall e, In e (path_pairs p) ->
                 has_edge (graph (find_overlaps (init m) reads))
                          (fst e) (snd e)).
  { intros e He. apply edges_have_weight; [exact Hwf|].
    apply Hin. unfold paths_pairs. apply in_flat_map. exists p. auto. }
  split; [destruct p; [simpl in Hl; lia | discriminate]|].
  split; [|exact He].
  intros n Hn. destruct (path_node_on_pair p n Hl Hn) as (e & Hep & Hen).
  destruct (overlap_edge_reads m reads _ _ (He e Hep)) as [H1 H2].
  destruct Hen as [<- | <-]; assumption.
Qed.

End OLCMore.

(* ================================================================== *)
(** ** The N50 statistic *)
(* ================================================================== *)

Module StatsFacts.
Import Stats MoreProps DBGFacts OLCMore.

Lemma fold_left_add_total (l : list Z) (a : Z) :
  fold_left Z.add l a = a + total l.
Proof.
  revert a. induction l as [|x l IH]; intros a; simpl; [lia|].
  rewrite IH. lia.
Qed.

Lemma total_app (l1 l2 : list Z) : total (l1 ++ l2) = total l1 + total l2.
Proof. induction l1 as [|x l1 IH]; simpl; lia. Qed.

Lemma total_perm (l1 l2 : list Z) :
  Permutation l1 l2 -> total l1 = total l2.
Proof. induction 1; simpl; lia. Qed.

Lemma filter_perm (A : Type) (f : A -> bool) (l1 l2 : list A) :
  Permutation l1 l2 -> Permutation (filter f l1) (filter f l2).
Proof.
  induction 1; simpl.
  - constructor.
  - destruct (f x); [constructor|]; assumption.
  - destruct (f x), (f y); try reflexivity. apply perm_swap.
  - etransitivity; eassumption.
Qed.

Lemma total_filter_bounds (f : Z -> bool) (l : list Z) :
  Forall (fun x => 0 <= x) l -> 0 <= total (filter f l) <= total l.
Proof.
  induction 1 as [|x l Hx Hl IH]; simpl; [lia|].
  destruct (f x); simpl; lia.
Qed.

Lemma filter_all (A : Type) (f : A -> bool) (l : list A) :
  (forall x, In x l -> f x = true) -> filter f l = l.
Proof.
  induction l as [|x l IH]; simpl; intros H; [reflexivity|].
  rewrite (H x) by auto. f_equal. auto.
Qed.

Lemma filter_none (A : Type) (f : A -> bool) (l : list A) :
  (forall x, In x l -> f x = false) -> filter f l = [].
Proof.
  induction l as [|x l IH]; simpl; intros H; [reflexivity|].
  rewrite (H x) by auto. auto.
Qed.

Lemma sorted_app_r (A : Type) (R : A -> A -> Prop) (l1 l2 : list A) :
  StronglySorted R (l1 ++ l2) -> StronglySorted R l2.
Proof.
  induction l1 as [|x l1 IH]; simpl; intros H; [exact H|].
  inversion H; subst. auto.
Qed.

Lemma n50_loop_spec (T : Z) (rest : list Z) :
  forall pre,
    StronglySorted (fun a b : Z => b <= a) (pre ++ rest) ->
    Forall (fun x => 0 <= x) (pre ++ rest) ->
    T = total (pre ++ rest) ->
    rest <> [] ->
    (pre = [] \/ 2 * total pre < T) ->
    let n := n50_loop T (total pre) rest in
    In n rest
    /\ T <= 2 * total (filter (fun x => n <=? x) (pre ++ rest))
    /\ (0 < T -> 2 * total (filter (fun x => n <? x) (pre ++ rest)) < T).
Proof.
  induction rest as [|x rest IH]; intros pre Hs Hp HT Hne Hpre;
    [congruence|].
  cbv zeta. cbn [n50_loop].
  pose proof (proj2 (sorted_app_le _ _ _ _ Hs)) as Hle.
  assert (Hxr : forall y, In y rest -> y <= x).
  { pose proof (sorted_app_r _ _ _ _ Hs) as S2.
    inversion S2 as [|? ? _ Hf]; subst.
    rewrite Forall_forall in Hf. exact Hf. }
  apply Forall_app in Hp. destruct Hp as [Hp1 Hp2].
  inversion Hp2 as [|? ? Hx0 Hp3]; subst x0 l.
  destruct (Z.geb_spec (2 * (total pre + x)) T) as [Hge|Hlt].
  - split; [left; reflexivity|]. rewrite !filter_app, !total_app.
    cbn [filter]. rewrite Z.leb_refl, Z.ltb_irrefl. cbn [total fold_right].
    fold (total (filter (fun y => x <=? y) rest)).
    rewrite (filter_all _ (fun y => x <=? y) pre)
      by (intros y Hy; apply Z.leb_le; apply (Hle y x Hy); left; reflexivity).
    rewrite (filter_none _ (fun y => x <? y) rest)
      by (intros y Hy; apply Z.ltb_ge; auto).
    pose proof (total_filter_bounds (fun y => x <=? y) rest Hp3).
    pose proof (total_filter_bounds (fun y => x <? y) pre Hp1).
    rewrite total_app in HT. cbn [total fold_right] in HT.
    fold (total rest) in HT.
    pose proof (total_filter_bounds (fun y => x <? y) rest Hp3).
    split; [lia|]. intros HT0.
    destruct Hpre as [-> | Hpre]; unfold total in *;
      cbn [fold_right filter] in *; lia.
  - assert (Hr : rest <> []).
    { intros ->. rewrite total_app in HT.
      pose proof (total_filter_bounds (fun _ => true) pre Hp1).
      unfold total in *. cbn [fold_right] in HT. lia. }
    assert (E : total (pre ++ [x]) = total pre + x).
    { rewrite total_app. unfold total. cbn [fold_right]. lia. }
    specialize (IH (pre ++ [x])).
    rewrite <- app_assoc in IH. cbn [app] in IH. rewrite E in IH.
    destruct (IH Hs (proj2 (Forall_app _ _ _) (conj Hp1 Hp2)) HT Hr
                 ltac:(right; lia)) as (Hin & H1 & H2).
    split; [right; exact Hin|]. split; assumption.
Qed.

(** [calculate_n50] returns 0 for no contigs.  Otherwise it returns
    the length of one of the contigs, such that the contigs at least
    that long make up half of the total length or more, while the
    contigs longer than that make up less than half (when the total is
    not zero). *)
Theorem calculate_n50_spec (contigs : list string) :
  calculate_n50 [] = 0
  /\ (contigs <> [] ->
      let n := calculate_n50 contigs in
      (exists c, In c contigs /\ len c = n)
      /\ total (map len contigs) <= 2 * total (at_least n contigs)
      /\ (0 < total (map len contigs) ->
          2 * total (longer_than n contigs) < total (map len contigs))).
Proof.
  split; [reflexivity|]. intros Hne. unfold calculate_n50.
  set (L := sort_desc (fun x : Z => x) (map len contigs)).
  assert (HP : Permutation L (map len contigs)) by apply sort_desc_perm.
  rewrite fold_left_add_total. simpl Z.add.
  assert (Hnn : Forall (fun x => 0 <= x) L).
  { apply Forall_forall. intros x Hx. apply (Permutation_in _ HP) in Hx.
    apply in_map_iff in Hx. destruct Hx as (c & <- & _). apply len_nonneg. }
  assert (HL : L <> []).
  { intros E. rewrite E in HP. apply Permutation_nil in HP.
    destruct contigs; [congruence | discriminate]. }
  destruct (n50_loop_spec (total L) L [] (sort_desc_sorted _ _ _) Hnn
              eq_refl HL (or_introl eq_refl)) as (Hin & H1 & H2).
  simpl in Hin, H1, H2 |- *.
  split; [|split].
  - apply (Permutation_in _ HP) in Hin. apply in_map_iff in Hin.
    destruct Hin as (c & E & Hc). eauto.
  - unfold at_least. rewrite <- (total_perm _ _ HP).
    rewrite <- (total_perm _ _ (filter_perm _ _ _ _ HP)). exact H1.
  - unfold longer_than. rewrite <- (total_perm _ _ HP).
    rewrite <- (total_perm _ _ (filter_perm _ _ _ _ HP)). exact H2.
Qed.

(** Contigs of lengths 2, 5, 3, 4: the N50 is 4. *)
Lemma calculate_n50_spec_witness :
  ["AA"; "CCCCC"; "GGG"; "TTTT"] <> []
  /\ calculate_n50 ["AA"; "CCCCC"; "GGG"; "TTTT"] = 4
  /\ total (map len ["AA"; "CCCCC"; "GGG"; "TTTT"])
     <= 2 * total (at_least 4 ["AA"; "CCCCC"; "GGG"; "TTTT"]).
Proof.
  split; [discriminate|]. split; [reflexivity|].
  apply (proj2 (calculate_n50_spec ["AA"; "CCCCC"; "GGG"; "TTTT"])).
  discriminate.
Defined.

End StatsFacts.

(* ================================================================== *)
(** ** Contigs spell k-mers of the reads *)
(* ================================================================== *)

Module DBGSound.
Import DBG DBGProps DBGFacts MoreProps DBGMore.

Lemma chars_append (a b : string) : chars (a ++ b) = chars a ++ chars b.
Proof. induction a as [|c a IH]; simpl; [reflexivity | f_equal; exact IH]. Qed.

Lemma chars_join (l : list string) : chars (join l) = flat_map chars l.
Proof.
  unfold join. induction l as [|x [|y l] IH].
  - reflexivity.
  - simpl. rewrite app_nil_r. reflexivity.
  - change (String.concat "" (x :: y :: l))
      with (x ++ "" ++ String.concat "" (y :: l))%string.
    rewrite chars_append.
    change ("" ++ String.concat "" (y :: l))%string
      with (String.concat "" (y :: l)).
    rewrite IH. reflexivity.
Qed.

Lemma exists_last_or_nil (A : Type) (l : list A) :
  l = [] \/ exists l' x, l = l' ++ [x].
Proof.
  destruct l as [|a l]; [left; reflexivity | right].
  destruct (exists_last (l := a :: l)) as (l' & x & E); [discriminate|].
  exists l', x. exact E.
Qed.

Lemma chars_contig_snoc (path : list string) (c : string) :
  path <> [] ->
  chars (contig_of (path ++ [c])) = chars (contig_of path) ++ chars c.
Proof.
  destruct path as [|p0 rest]; [congruence|]. intros _.
  unfold contig_of. simpl hd. simpl tl.
  rewrite !chars_append, !chars_join, flat_map_app. simpl.
  rewrite app_nil_r, app_assoc. reflexivity.
Qed.

(** A k-mer of length at least 2 is its prefix followed by the last
    character of its suffix, and its first character followed by its
    suffix. *)
Lemma kmer_split (kmer : string) :
  2 <= len kmer ->
  exists c0 mid c1,
    chars kmer = c0 :: mid ++ [c1]
    /\ chars (slice kmer None (Some (-1))) = c0 :: mid
    /\ chars (slice kmer (Some 1) None) = mid ++ [c1]
    /\ last_char (slice kmer (Some 1) None) = Some (str [c1]).
Proof.
  intros Hl. unfold len in Hl. rewrite <- length_chars in Hl.
  assert (Hs : forall lo hi, chars (slice kmer lo hi)
             = firstn (Z.to_nat
                         (match hi with
                          | None => len kmer
                          | Some i => adjust (len kmer) i
                          end
                          - match lo with
                            | None => 0
                            | Some i => adjust (len kmer) i
                            end))
                      (skipn (Z.to_nat match lo with
                                       | None => 0
                                       | Some i => adjust (len kmer) i
                                       end) (chars kmer))).
  { intros lo hi. unfold slice, str, chars.
    apply list_ascii_of_string_of_list_ascii. }
  unfold last_char. rewrite !Hs. unfold adjust, len.
  rewrite <- length_chars.
  change (-1 <? 0) with true. change (1 <? 0) with false. cbv iota.
  destruct (chars kmer) as [|c0 l] eqn:E; [simpl in Hl; lia|].
  destruct (exists_last (l := l)) as (mid & c1 & ->).
  { intros ->. simpl in Hl. lia. }
  exists c0, mid, c1. split; [reflexivity|].
  rewrite length_cons, length_app in *. simpl List.length in *.
  replace (Z.to_nat (Z.max 0 (-1 + Z.of_nat (S (List.length mid + 1))) - 0))
    with (S (List.length mid)) by lia.
  replace (Z.to_nat (Z.min 1 (Z.of_nat (S (List.length mid + 1)))))
    with 1%nat by lia.
  replace (Z.to_nat (Z.of_nat (S (List.length mid + 1))
                     - Z.min 1 (Z.of_nat (S (List.length mid + 1)))))
    with (List.length (mid ++ [c1])) by (rewrite length_app; cbn [List.length]; lia).
  simpl skipn. rewrite firstn_all.
  split; [|split; [reflexivity|]].
  - simpl. f_equal. rewrite firstn_app, firstn_all, Nat.sub_diag. simpl.
    apply app_nil_r.
  - rewrite rev_app_distr. reflexivity.
Qed.

Lemma app_same_length_tail (A : Type) (a b c d : list A) :
  a ++ b = c ++ d -> List.length b = List.length d -> b = d.
Proof.
  revert c. induction a as [|x a IH]; intros [|y c] E Hl; simpl in *.
  - exact E.
  - exfalso. apply (f_equal (@List.length A)) in E.
    simpl in E. rewrite length_app in E. lia.
  - exfalso. apply (f_equal (@List.length A)) in E.
    simpl in E. rewrite length_app in E. lia.
  - inversion E. eauto.
Qed.

(** One more character on a contig that ends with the current node. *)
Lemma kmers_from_reads_snoc (k0 : Z) (reads : list read)
  (pre cur : list ascii) (c1 : ascii) :
  2 <= k0 ->
  List.length (cur ++ [c1]) = Z.to_nat k0 ->
  kmers_from_reads k0 reads (pre ++ cur) ->
  window_of k0 reads (str (cur ++ [c1])) ->
  kmers_from_reads k0 reads ((pre ++ cur) ++ [c1]).
Proof.
  intros Hk Hl Hold Hnew a w b E Hw.
  destruct (exists_last_or_nil _ b) as [-> | (b' & x & ->)].
  - rewrite app_nil_r in E. rewrite <- app_assoc in E.
    assert (w = cur ++ [c1]).
    { symmetry. eapply app_same_length_tail; [exact E | congruence]. }
    subst w. exact Hnew.
  - rewrite !app_assoc in E. apply app_inj_tail in E. destruct E as [E _].
    apply (Hold a w b'); [rewrite E, app_assoc; reflexivity | exact Hw].
Qed.

Lemma edges_from_reads_dd (k0 : Z) (reads : list read) (key : string)
  (g : dict (list string)) :
  edges_from_reads k0 reads g ->
  edges_from_reads k0 reads (snd (dd_getitem [] key g)).
Proof.
  intros H. unfold dd_getitem. destruct (lookup key g); simpl; [exact H|].
  intros p l s Hin Hs. apply in_app_or in Hin. destruct Hin as [Hin|[E|[]]].
  - eapply H; eassumption.
  - inversion E; subst. destruct Hs.
Qed.

Lemma window_of_len (k0 : Z) (reads : list read) (kmer : string) :
  1 <= k0 -> window_of k0 reads kmer -> len kmer = k0.
Proof.
  intros Hk (r & i & _ & _ & Hi & -> & _). apply window_len; assumption.
Qed.

Lemma walk_sound (k0 : Z) (reads : list read) (fuel : nat) :
  2 <= k0 ->
  forall (self : DBGAssembler) (visited path : list string) (current : string)
         (pre : list ascii),
    edges_from_reads k0 reads (graph self) ->
    path <> [] ->
    chars (contig_of path) = pre ++ chars current ->
    kmers_from_reads k0 reads (chars (contig_of path)) ->
    match walk fuel self visited path current with
    | (Return (path', _), self') =>
        kmers_from_reads k0 reads (chars (contig_of path'))
        /\ edges_from_reads k0 reads (graph self')
    | _ => True
    end.
Proof.
  intros Hk. induction fuel as [|fuel IH];
    intros self visited path current pre Hg Hne Hend Hp; simpl; [exact I|].
  pose proof (edges_from_reads_dd k0 reads current (graph self) Hg) as Hg1.
  destruct (dd_getitem [] current (graph self)) as [next_nodes g1] eqn:Eg.
  simpl in Hg1.
  destruct next_nodes as [|next_node [|y t]]; simpl; try (split; assumption).
  destruct (dd_getitem 0 next_node (in_degree self)) as [d in1].
  destruct (d =? 1); simpl; [|split; assumption].
  destruct (mem next_node (set_add current visited)); simpl;
    [split; assumption|].
  assert (He : exists kmer,
             window_of k0 reads kmer
             /\ current = slice kmer None (Some (-1))
             /\ next_node = slice kmer (Some 1) None).
  { unfold dd_getitem in Eg.
    destruct (lookup current (graph self)) as [l|] eqn:El;
      inversion Eg; subst.
    apply lookup_Some_In in El. apply (Hg current [next_node] next_node El).
    left. reflexivity. }
  destruct He as (kmer & Hw & Ec & En).
  pose proof (window_of_len k0 reads kmer ltac:(lia) Hw) as Hlen.
  destruct (kmer_split kmer ltac:(lia)) as (c0 & mid & c1 & Ek & Epre & Esuf & Elast).
  rewrite <- En in Elast, Esuf. rewrite <- Ec in Epre. rewrite Elast.
  apply (IH _ _ _ _ (pre ++ [c0])); simpl; auto.
  - destruct path; [congruence | discriminate].
  - rewrite chars_contig_snoc by exact Hne.
    change (chars (String c1 "")) with [c1].
    rewrite Hend, Epre, Esuf, <- !app_assoc. reflexivity.
  - rewrite chars_contig_snoc by exact Hne.
    change (chars (String c1 "")) with [c1].
    rewrite Hend, Epre. rewrite Hend, Epre in Hp.
    apply kmers_from_reads_snoc; auto.
    + change ((c0 :: mid) ++ [c1]) with (c0 :: mid ++ [c1]).
      rewrite <- Ek, length_chars. unfold len in Hlen. lia.
    + change ((c0 :: mid) ++ [c1]) with (c0 :: mid ++ [c1]).
      rewrite <- Ek. unfold str, chars.
      rewrite string_of_list_ascii_of_string. exact Hw.
Qed.

Lemma short_no_kmer (k0 : Z) (reads : list read) (s : string) :
  len s < k0 -> kmers_from_reads k0 reads (chars s).
Proof.
  intros Hl a w b E Hw. exfalso.
  apply (f_equal (@List.length ascii)) in E.
  rewrite !length_app, length_chars in E. unfold len in Hl. lia.
Qed.

Lemma extract_from_sound (k0 : Z) (reads : list read) (fuel : nat)
  (st : outcome (list string * list string) * DBGAssembler) (start : string) :
  2 <= k0 -> len start < k0 ->
  contigs_sound k0 reads st ->
  contigs_sound k0 reads (extract_from fuel st start).
Proof.
  intros Hk Hs H. unfold contigs_sound in *.
  destruct st as [[[contigs visited]|e|] self]; simpl in *; try exact I.
  destruct (mem start visited); simpl; [exact H|].
  destruct H as [Hc Hg].
  pose proof (walk_sound k0 reads fuel Hk self visited [start] start []
                Hg ltac:(discriminate)) as W.
  assert (E0 : contig_of [start] = start).
  { clear. unfold contig_of. simpl hd. simpl tl. change (join []) with "".
    induction start as [|c s IH]; simpl; [reflexivity | f_equal; exact IH]. }
  rewrite E0 in W. specialize (W eq_refl (short_no_kmer k0 reads start Hs)).
  destruct (walk fuel self visited [start] start)
    as [[[path visited1]|e|] self1]; simpl; try exact I.
  destruct W as [Wp Wg]. split; [|exact Wg].
  fold (contig_of path).
  destruct (_ >=? _); [|exact Hc].
  apply Forall_app. split; [exact Hc|]. constructor; [exact Wp | constructor].
Qed.

(** The shape of [find_contigs]: start nodes among the keys, then the
    loop over them, on a state whose graph is the one given. *)
Lemma find_contigs_unfold (self : DBGAssembler) :
  exists sn2 self2,
    incl sn2 (keys (graph self))
    /\ graph self2 = graph self
    /\ forall res self3,
        fold_left (extract_from (S (List.length (all_nodes (graph self2)))))
                  sn2 (Return ([], []), self2) = (res, self3) ->
        find_contigs self
        = (match res with
           | Return (contigs, _) => Return contigs
           | Raise e => Raise e
           | OutOfFuel => OutOfFuel
           end, self3).
Proof.
  unfold find_contigs.
  pose proof (select_start_loop_reads (keys (graph self)) [] self) as R1.
  pose proof (select_start_loop_keys (keys (graph self)) [] self
                (keys (graph self)) (incl_refl _) (incl_nil_l _)) as K1.
  destruct (fold_left select_start (keys (graph self)) ([], self))
    as [start_nodes self1]. simpl in R1, K1.
  destruct R1 as (_ & G1 & _).
  destruct start_nodes as [|s0 rest].
  - pose proof (first_with_out_edge_reads (keys (graph self1)) self1) as R.
    pose proof (first_with_out_edge_keys (keys (graph self1)) self1) as K.
    destruct (first_with_out_edge (keys (graph self1)) self1) as [a b].
    simpl in R, K. destruct R as (_ & G & _).
    exists a, b. split; [rewrite <- G1; exact K|].
    split; [congruence|]. intros res self3 E. rewrite E. reflexivity.
  - exists (s0 :: rest), self1. split; [exact K1|]. split; [exact G1|].
    intros res self3 E. rewrite E. reflexivity.
Qed.

(** For [k >= 2], every stretch of [k] consecutive characters of every
    contig that [find_contigs] returns for the graph of the reads is a
    window of one of the reads, free of characters other than A, C, G,
    T: a contig joins k-mers that were observed, and nothing else. *)
Theorem contigs_spell_read_kmers (k0 : Z) (reads : list read)
  (contigs : list string) (c : string) (i : Z) :
  2 <= k0 ->
  fst (find_contigs (build_graph (init k0) reads)) = Return contigs ->
  In c contigs ->
  0 <= i <= len c - k0 ->
  window_of k0 reads (slice c (Some i) (Some (i + k0))).
Proof.
  intros Hk E Hc Hi.
  destruct (find_contigs_unfold (build_graph (init k0) reads))
    as (sn2 & self2 & Hsn & G2 & Hf).
  destruct (build_graph_well_built k0 reads ltac:(lia)) as (Ek & _ & Hm).
  assert (S : contigs_sound k0 reads
                (fold_left
                   (extract_from (S (List.length (all_nodes (graph self2)))))
                   sn2 (Return ([], []), self2))).
  { apply fold_left_invariant_in.
    - intros st start Hin Hst. apply extract_from_sound; auto.
      rewrite (Hm start), Ek; [lia|].
      apply keys_all_nodes, Hsn, Hin.
    - unfold contigs_sound. simpl. split; [constructor|].
      rewrite G2. apply build_graph_edges_from_reads_aux. }
  destruct (fold_left _ sn2 (Return ([], []), self2)) as [res self3] eqn:Ef.
  rewrite (Hf res self3 eq_refl) in E. simpl in E.
  unfold contigs_sound in S. simpl in S.
  destruct res as [[cs vs]|e|]; try discriminate.
  inversion E; subst cs. destruct S as [S _].
  rewrite Forall_forall in S. specialize (S c Hc).
  assert (Hsl : slice c (Some i) (Some (i + k0))
                = str (firstn (Z.to_nat k0) (skipn (Z.to_nat i) (chars c)))).
  { unfold slice, adjust.
    destruct (i <? 0) eqn:E1; [lia|].
    destruct (i + k0 <? 0) eqn:E2; [lia|].
    do 2 f_equal; [lia | f_equal; lia]. }
  rewrite Hsl.
  apply (S (firstn (Z.to_nat i) (chars c))
           (firstn (Z.to_nat k0) (skipn (Z.to_nat i) (chars c)))
           (skipn (Z.to_nat k0) (skipn (Z.to_nat i) (chars c)))).
  - rewrite !firstn_skipn. reflexivity.
  - rewrite length_firstn, length_skipn, length_chars. unfold len in Hi. lia.
Qed.

(** The windows of the contig of the reads ACGTAC, GTACTG, ACTGAA with
    [k = 4]: the one at offset 3 is TACT, a window of the second
    read. *)
Lemma contigs_spell_read_kmers_witness :
  window_of 4 [("r0", "ACGTAC", []); ("r1", "GTACTG", []);
               ("r2", "ACTGAA", [])]
            (slice "ACGTACTGAA" (Some 3) (Some (3 + 4))).
Proof.
  apply (contigs_spell_read_kmers 4
           [("r0", "ACGTAC", []); ("r1", "GTACTG", []); ("r2", "ACTGAA", [])]
           ["ACGTACTGAA"] "ACGTACTGAA" 3).
  - lia.
  - reflexivity.
  - left. reflexivity.
  - vm_compute. split; discriminate.
Defined.

End DBGSound.
